(** * pgtools: the SQL lexer, formatter and analyzer

    A shallow embedding of [src/sql-formatter.js] (the node module: [tokenize],
    [format], [analyze]) and of the SQL part of the browser bundle
    ([tokenize], [formatSQL], [analyzeSQL]), with the properties the
    specification states about them.

    JavaScript strings are sequences of UTF-16 code units: a string is a list
    of code units, each an [N].  The scanning code only ever looks forward from
    the scan position [i], so every scanner below works on the suffix of the
    input that starts at [i] and returns how far [i] moves. *)

From Stdlib Require Import String Ascii NArith ZArith Bool Lia List.
From Stdlib Require Import Permutation DecimalNat.
Import ListNotations.

Local Open Scope N_scope.
Local Open Scope list_scope.

(** ** Strings as lists of code units *)

Definition char := N.
Definition str := list char.

(** A literal of the source, written as a Rocq string (ASCII only). *)
Definition js (s : string) : str := map N_of_ascii (list_ascii_of_string s).

Fixpoint str_eqb (a b : str) : bool :=
  match a, b with
  | [], [] => true
  | x :: a', y :: b' => (x =? y) && str_eqb a' b'
  | _, _ => false
  end.

(** [Set.has] and [Array.includes] on strings. *)
Definition in_set (x : str) (l : list str) : bool := existsb (str_eqb x) l.

(** [s.startsWith(pat)] on the suffix [s]. *)
Fixpoint starts_with (pat s : str) : bool :=
  match pat, s with
  | [], _ => true
  | p :: pat', c :: s' => (p =? c) && starts_with pat' s'
  | _ :: _, [] => false
  end.

(** [s.indexOf(pat, i)], relative to the suffix [s] that starts at [i]. *)
Fixpoint indexOf (pat s : str) : option nat :=
  if starts_with pat s then Some O
  else match s with
       | [] => None
       | _ :: s' => option_map S (indexOf pat s')
       end.

Definition includes (pat s : str) : bool :=
  match indexOf pat s with Some _ => true | None => false end.

(** [s.endsWith(pat)]. *)
Definition endsWith (pat s : str) : bool := starts_with (rev pat) (rev s).

(** The number of leading characters of [s] that satisfy [p]: how far a loop
    [while (j < s.length && p(s[j])) j++] moves [j]. *)
Fixpoint run (p : char -> bool) (s : str) : nat :=
  match s with
  | c :: s' => if p c then S (run p s') else O
  | [] => O
  end.

Fixpoint drop_while (p : char -> bool) (s : str) : str :=
  match s with
  | c :: s' => if p c then drop_while p s' else s
  | [] => []
  end.

(** [s[i + 1] === c], false when [s[i + 1]] is [undefined]. *)
Definition next_is (c : char) (rest : str) : bool :=
  match rest with
  | x :: _ => x =? c
  | [] => false
  end.

Definition next_sat (p : char -> bool) (rest : str) : bool :=
  match rest with
  | x :: _ => p x
  | [] => false
  end.

(** ** Character classes of the regular expressions *)

Definition between (lo hi c : char) : bool := (lo <=? c) && (c <=? hi).

(** [\s], which is also what [trim] and [trimEnd] strip. *)
Definition is_space (c : char) : bool :=
  existsb (N.eqb c)
    [9; 10; 11; 12; 13; 32; 160; 5760; 8232; 8233; 8239; 8287; 12288; 65279]
  || between 8192 8202 c.

(** [\d] *)
Definition is_digit (c : char) : bool := between 48 57 c.

(** [[a-zA-Z_]] *)
Definition is_alpha (c : char) : bool :=
  between 97 122 c || between 65 90 c || (c =? 95).

(** [[a-zA-Z0-9_]], also [\w] *)
Definition is_word (c : char) : bool :=
  between 97 122 c || between 65 90 c || between 48 57 c || (c =? 95).

(** [[\d.e+-]] *)
Definition is_numchar (c : char) : bool :=
  is_digit c || (c =? 46) || (c =? 101) || (c =? 43) || (c =? 45).

Definition trimEnd (s : str) : str := rev (drop_while is_space (rev s)).
Definition trim (s : str) : str := drop_while is_space (trimEnd s).

(** Upper case of one code unit of the ASCII range. *)
Definition upper_char (c : char) : char :=
  if between 97 122 c then c - 32 else c.

(** [toUpperCase] on text of the ASCII range.  The lexer applies it to words
    of [[a-zA-Z0-9_]] only, where it is exact. *)
Definition toUpperCase (s : str) : str := map upper_char s.

(** ** Tokens *)

Inductive tok_type :=
| Tkeyword | Tidentifier | Tstring | Tnumber | Toperator | Tsymbol | Tcomment.

Definition tok_type_eqb (a b : tok_type) : bool :=
  match a, b with
  | Tkeyword, Tkeyword | Tidentifier, Tidentifier | Tstring, Tstring
  | Tnumber, Tnumber | Toperator, Toperator | Tsymbol, Tsymbol
  | Tcomment, Tcomment => true
  | _, _ => false
  end.

Record token := mkToken {
  type : tok_type;
  value : str;
  original : option str
}.

Definition tok (ty : tok_type) (v : str) : token := mkToken ty v None.

Definition KEYWORDS : list str := map js
  [ "SELECT"; "FROM"; "WHERE"; "AND"; "OR"; "NOT"; "IN"; "EXISTS";
    "JOIN"; "LEFT"; "RIGHT"; "INNER"; "OUTER"; "CROSS"; "FULL";
    "ON"; "USING"; "AS"; "CASE"; "WHEN"; "THEN"; "ELSE"; "END";
    "INSERT"; "INTO"; "VALUES"; "UPDATE"; "SET"; "DELETE";
    "CREATE"; "TABLE"; "ALTER"; "DROP"; "INDEX"; "VIEW";
    "GROUP"; "BY"; "ORDER"; "HAVING"; "LIMIT"; "OFFSET";
    "UNION"; "ALL"; "INTERSECT"; "EXCEPT"; "DISTINCT";
    "WITH"; "RECURSIVE"; "RETURNING"; "CONFLICT"; "DO"; "NOTHING";
    "BEGIN"; "COMMIT"; "ROLLBACK"; "TRANSACTION";
    "GRANT"; "REVOKE"; "TRUNCATE"; "COPY"; "EXPLAIN"; "ANALYZE";
    "PRIMARY"; "KEY"; "FOREIGN"; "REFERENCES"; "CONSTRAINT";
    "DEFAULT"; "NULL"; "NOT"; "CHECK"; "UNIQUE";
    "IF"; "BETWEEN"; "LIKE"; "ILIKE"; "SIMILAR"; "IS";
    "TRUE"; "FALSE"; "ASC"; "DESC"; "NULLS"; "FIRST"; "LAST";
    "CAST"; "COALESCE"; "NULLIF"; "GREATEST"; "LEAST";
    "COUNT"; "SUM"; "AVG"; "MIN"; "MAX"; "ARRAY_AGG"; "STRING_AGG";
    "OVER"; "PARTITION"; "WINDOW"; "ROW_NUMBER"; "RANK"; "DENSE_RANK";
    "LAG"; "LEAD"; "FIRST_VALUE"; "LAST_VALUE"; "NTH_VALUE";
    "LATERAL"; "FETCH"; "NEXT"; "ROWS"; "ONLY"; "FOR";
    "LOCK"; "SHARE"; "NOWAIT"; "SKIP"; "LOCKED" ]%string.

Definition CLAUSE_KEYWORDS : list str := map js
  [ "SELECT"; "FROM"; "WHERE"; "JOIN"; "LEFT JOIN"; "RIGHT JOIN";
    "INNER JOIN"; "OUTER JOIN"; "CROSS JOIN"; "FULL JOIN";
    "FULL OUTER JOIN"; "LEFT OUTER JOIN"; "RIGHT OUTER JOIN";
    "GROUP BY"; "ORDER BY"; "HAVING"; "LIMIT"; "OFFSET";
    "UNION"; "UNION ALL"; "INTERSECT"; "EXCEPT";
    "INSERT INTO"; "VALUES"; "UPDATE"; "SET"; "DELETE FROM";
    "ON"; "USING"; "RETURNING"; "WITH"; "AND"; "OR";
    "ON CONFLICT"; "DO"; "WINDOW" ]%string.

(** The two-character operators of both lexers. *)
Definition TWO_CHAR : list str := map js
  [ "!="; "<>"; "<="; ">="; "::"; "||"; "->"; "=>" ]%string.

(** ** The lexer

    Every scanner takes the suffix [s] of the input at the scan position [i]
    and returns the token it pushes, if any, with the distance [i] advances. *)

Definition scan := (option token * nat)%type.

(** [--] to the end of the line: [end = s.indexOf('\n', i)], or [s.length]. *)
Definition line_comment (s : str) : scan :=
  let e := match indexOf [10] s with Some k => k | None => length s end in
  (Some (tok Tcomment (trim (firstn e s))), (e + 1)%nat).

(** [/*] to the next [*/]: [end = s.indexOf('*/', i + 2)], or [s.length - 2]. *)
Definition block_comment (s : str) : scan :=
  let e := match indexOf (js "*/") (skipn 2 s) with
           | Some k => (2 + k)%nat
           | None => (length s - 2)%nat
           end in
  (Some (tok Tcomment (firstn (e + 2) s)), (e + 2)%nat).

(** The loop over [j] of a single-quoted string, from the character after the
    opening quote: the distance to the closing quote, [''] skipped as a pair. *)
Fixpoint string_end (r : str) : nat :=
  match r with
  | [] => O
  | c :: r1 =>
      if c =? 39 then
        match r1 with
        | c2 :: r2 => if c2 =? 39 then S (S (string_end r2)) else O
        | [] => O
        end
      else S (string_end r1)
  end.

Definition quoted_string (s : str) : scan :=
  let j := S (string_end (skipn 1 s)) in
  (Some (tok Tstring (firstn (j + 1) s)), (j + 1)%nat).

(** [$tag$ ... $tag$]: [None] when the tag does not match or has no closing
    occurrence, and the [$] falls through to the later cases. *)
Definition dollar_quoted (s : str) : option scan :=
  let name := firstn (run is_alpha (skipn 1 s)) (skipn 1 s) in
  if next_is 36 (skipn (S (length name)) s) then
    let tag := 36 :: name ++ [36] in
    match indexOf tag (skipn (length tag) s) with
    | Some k =>
        let e := (length tag + k)%nat in
        Some (Some (tok Tstring (firstn (e + length tag) s)), (e + length tag)%nat)
    | None => None
    end
  else None.

Definition number (s : str) : scan :=
  let j := run is_numchar s in
  (Some (tok Tnumber (firstn j s)), j).

Definition word_token (s : str) : scan :=
  let j := run is_word s in
  let word := firstn j s in
  let upper := toUpperCase word in
  if in_set upper KEYWORDS
  then (Some (mkToken Tkeyword upper (Some word)), j)
  else (Some (tok Tidentifier word), j).

Definition quoted_identifier (s : str) : scan :=
  let j := S (run (fun c => negb (c =? 34)) (skipn 1 s)) in
  (Some (tok Tidentifier (firstn (j + 1) s)), (j + 1)%nat).

(** Operators and punctuation in the node module: the two-character test comes
    first, the test for [->>] second. *)
Definition operators (s : str) : scan :=
  let twoChar := firstn 2 s in
  if in_set twoChar TWO_CHAR then (Some (tok Toperator twoChar), 2%nat)
  else
    let threeChar := firstn 3 s in
    if str_eqb threeChar (js "->>") then (Some (tok Toperator threeChar), 3%nat)
    else (Some (tok Tsymbol (firstn 1 s)), 1%nat).

(** Operators and punctuation in the browser bundle: [->>] is tested first. *)
Definition operators_bundle (s : str) : scan :=
  let three := firstn 3 s in
  if str_eqb three (js "->>") then (Some (tok Toperator three), 3%nat)
  else
    let two := firstn 2 s in
    if in_set two TWO_CHAR then (Some (tok Toperator two), 2%nat)
    else (Some (tok Tsymbol (firstn 1 s)), 1%nat).

Section Lexer.

(** The two lexers are the same text up to the operator case. *)
Variable ops : str -> scan.

(** The cases after the dollar-quoted string. *)
Definition lex_plain (c : char) (rest s : str) : scan :=
  if is_digit c || ((c =? 46) && next_sat is_digit rest) then number s
  else if is_alpha c then word_token s
  else if c =? 34 then quoted_identifier s
  else ops s.

(** One iteration of [while (i < s.length)], on the suffix at [i]. *)
Definition lex_at (s : str) : scan :=
  match s with
  | [] => (None, O)
  | c :: rest =>
      if is_space c then (None, 1%nat)
      else if (c =? 45) && next_is 45 rest then line_comment s
      else if (c =? 47) && next_is 42 rest then block_comment s
      else if c =? 39 then quoted_string s
      else if c =? 36 then
        match dollar_quoted s with
        | Some r => r
        | None => lex_plain c rest s
        end
      else lex_plain c rest s
  end.

(** The loop, bounded by [fuel] iterations: [None] when they run out before
    the input does. *)
Fixpoint lex_loop (fuel : nat) (s : str) : option (list token) :=
  match s with
  | [] => Some []
  | _ :: _ =>
      match fuel with
      | O => None
      | S fuel' =>
          let '(t, n) := lex_at s in
          match lex_loop fuel' (skipn n s) with
          | Some ts => Some (match t with Some t' => t' :: ts | None => ts end)
          | None => None
          end
      end
  end.

(** Each iteration advances [i], so [s.length] iterations are enough
    (theorem [lex_loop_enough] below). *)
Definition tokenize_with (s : str) : list token :=
  match lex_loop (length s) s with
  | Some ts => ts
  | None => []
  end.

End Lexer.

(** [tokenize] of the node module. *)
Definition tokenize : str -> list token := tokenize_with operators.

Module Bundle.
(** [tokenize] of the browser bundle. *)
Definition tokenize : str -> list token := tokenize_with operators_bundle.
End Bundle.

(** ** The formatter *)

(** The state of [format]'s loop.  [indent] and [parenDepth] are JavaScript
    numbers, kept as integers: that they never go below zero is a property of
    the code, proved below, not of the type. *)
Record fstate := mkState {
  out : str;
  indent : Z;
  lineStart : bool;
  prevToken : option token;
  parenDepth : Z
}.

Definition init_state : fstate := mkState [] 0%Z true None 0%Z.

Definition set_out (o : str) (st : fstate) : fstate :=
  mkState o (indent st) (lineStart st) (prevToken st) (parenDepth st).
Definition set_indent (n : Z) (st : fstate) : fstate :=
  mkState (out st) n (lineStart st) (prevToken st) (parenDepth st).
Definition set_lineStart (b : bool) (st : fstate) : fstate :=
  mkState (out st) (indent st) b (prevToken st) (parenDepth st).
Definition set_prevToken (t : token) (st : fstate) : fstate :=
  mkState (out st) (indent st) (lineStart st) (Some t) (parenDepth st).
Definition set_parenDepth (n : Z) (st : fstate) : fstate :=
  mkState (out st) (indent st) (lineStart st) (prevToken st) n.

(** [out += v] *)
Definition emit (v : str) (st : fstate) : fstate := set_out (out st ++ v) st.

(** ['  '.repeat(indent)]; [indent] is never negative there. *)
Definition indent_str (n : Z) : str := concat (repeat (js "  ") (Z.to_nat n)).

Definition newline (st : fstate) : fstate :=
  set_lineStart true
    (set_out (trimEnd (out st) ++ [10] ++ indent_str (indent st)) st).

Definition space (st : fstate) : fstate :=
  if negb (lineStart st) && (0 <? length (out st))%nat
     && negb (endsWith (js " ") (out st))
     && negb (endsWith [10] (out st))
     && negb (endsWith (js "(") (out st))
  then emit (js " ") st
  else st.

Definition is_type (ty : tok_type) (t : token) : bool := tok_type_eqb (type t) ty.
Definition is_kw (v : string) (t : token) : bool :=
  is_type Tkeyword t && str_eqb (value t) (js v).
Definition is_sym (v : string) (t : token) : bool :=
  is_type Tsymbol t && str_eqb (value t) (js v).

(** [prevToken && p(prevToken)] *)
Definition prev_is (p : token -> bool) (st : fstate) : bool :=
  match prevToken st with
  | Some t => p t
  | None => false
  end.

(** [t.value || t.original || ''] *)
Definition text_of (t : token) : str :=
  match value t with
  | [] => match original t with
          | Some o => o
          | None => []
          end
  | v => v
  end.

(** The two-word clause [t] and [next] form, if any. *)
Definition compound_of (t : token) (next : option token) : option str :=
  match next with
  | Some n =>
      if is_type Tkeyword t && is_type Tkeyword n then
        let pair := value t ++ js " " ++ value n in
        if in_set pair CLAUSE_KEYWORDS then Some pair else None
      else None
  | None => None
  end.

Definition on_comment (t : token) (st : fstate) : fstate :=
  set_prevToken t (newline (emit (value t) (newline st))).

Definition on_open (t : token) (next : option token) (st : fstate) : fstate :=
  let st1 :=
    if prev_is (fun p => is_type Tidentifier p || is_type Tkeyword p) st
    then st else space st in
  let st2 := set_parenDepth (parenDepth st1 + 1) (emit (js "(") st1) in
  let st3 :=
    match next with
    | Some n =>
        if is_kw "SELECT" n then newline (set_indent (indent st2 + 1) st2)
        else st2
    | None => st2
    end in
  set_lineStart false (set_prevToken t st3).

(** [if (parenDepth > 0) parenDepth--] *)
Definition close_depth (st : fstate) : fstate :=
  if (parenDepth st >? 0)%Z then set_parenDepth (parenDepth st - 1) st else st.

(** [t.type === 'keyword' && ['LIMIT', 'OFFSET', 'ASC', 'DESC'].includes(t.value)] *)
Definition is_limit_kw (t : token) : bool :=
  is_type Tkeyword t
  && in_set (value t) (map js ["LIMIT"; "OFFSET"; "ASC"; "DESC"]%string).

(** [prevToken && prevToken.type === 'keyword' && [...].includes(prevToken.value)] *)
Definition after_limit (st : fstate) : bool := prev_is is_limit_kw st.

(** [)] in the node module: after [LIMIT], [OFFSET], [ASC] or [DESC] the
    indent goes down by one and [)] starts a new line. *)
Definition on_close (t : token) (st : fstate) : fstate :=
  let st1 := close_depth st in
  let st2 :=
    if after_limit st1
    then newline (set_indent (Z.max 0 (indent st1 - 1)) st1)
    else st1 in
  set_lineStart false (set_prevToken t (emit (js ")") st2)).

(** [)] in the browser bundle. *)
Definition on_close_bundle (t : token) (st : fstate) : fstate :=
  set_lineStart false (set_prevToken t (emit (js ")") (close_depth st))).

Definition on_comma (t : token) (st : fstate) : fstate :=
  let st1 := emit (js ",") st in
  let st2 :=
    if (parenDepth st1 =? 0)%Z then emit (js "  ") (newline st1)
    else emit (js " ") st1 in
  set_lineStart false (set_prevToken t st2).

Definition on_semicolon (t : token) (st : fstate) : fstate :=
  set_prevToken t
    (set_lineStart true (set_indent 0 (emit (js ";" ++ [10]) st))).

Definition on_compound (pair : str) (st : fstate) : fstate :=
  let st1 :=
    if (parenDepth st =? 0)%Z then
      newline
        (if in_set pair (map js ["UNION ALL"; "UNION"; "INTERSECT"; "EXCEPT"]%string)
         then set_indent 0 st else st)
    else space st in
  set_lineStart false
    (set_prevToken (tok Tkeyword pair) (emit pair st1)).

(** A keyword in the node module; its second and third cases do the same. *)
Definition on_keyword (t : token) (st : fstate) : fstate :=
  let st1 :=
    if in_set (value t) CLAUSE_KEYWORDS && (parenDepth st =? 0)%Z then
      if in_set (value t) (map js ["AND"; "OR"]%string) then
        emit (js "  " ++ value t) (newline st)
      else if str_eqb (value t) (js "SELECT") && prev_is (is_kw "UNION ALL") st then
        emit (value t) (newline st)
      else
        emit (value t) (newline st)
    else emit (value t) (space st) in
  set_lineStart false (set_prevToken t st1).

(** A keyword in the browser bundle. *)
Definition on_keyword_bundle (t : token) (st : fstate) : fstate :=
  let st1 :=
    if in_set (value t) CLAUSE_KEYWORDS && (parenDepth st =? 0)%Z then
      if in_set (value t) (map js ["AND"; "OR"]%string) then
        emit (js "  " ++ value t) (newline st)
      else
        emit (value t) (newline st)
    else emit (value t) (space st) in
  set_lineStart false (set_prevToken t st1).

(** Identifiers, strings, numbers, operators and the other symbols. *)
Definition on_default (t : token) (st : fstate) : fstate :=
  let st1 :=
    if is_type Toperator t
       && (str_eqb (value t) (js "::") || str_eqb (value t) (js "->")
           || str_eqb (value t) (js "->>"))
    then emit (value t) st
    else if is_sym "." t then emit (js ".") (set_out (trimEnd (out st)) st)
    else if prev_is (is_sym ".") st then emit (text_of t) st
    else emit (text_of t) (space st) in
  set_lineStart false (set_prevToken t st1).

Section FormatStep.

(** The two formatters are the same text up to [)] and the keyword case. *)
Variable close : token -> fstate -> fstate.
Variable keyword : token -> fstate -> fstate.

(** One iteration of the loop over the tokens: the state after it, and
    whether the iteration took [next] as well ([i++]). *)
Definition step_with (st : fstate) (t : token) (next : option token)
  : fstate * bool :=
  let compound := compound_of t next in
  if is_type Tcomment t then (on_comment t st, false)
  else if is_sym "(" t then (on_open t next st, false)
  else if is_sym ")" t then (close t st, false)
  else if is_sym "," t then (on_comma t st, false)
  else if is_sym ";" t then (on_semicolon t st, false)
  else match compound with
       | Some phrase => (on_compound phrase st, true)
       | None =>
           if is_type Tkeyword t then (keyword t st, false)
           else (on_default t st, false)
       end.

End FormatStep.

Definition format_step := step_with on_close on_keyword.
Definition formatSQL_step := step_with on_close_bundle on_keyword_bundle.

Section FormatLoop.

Variable step : fstate -> token -> option token -> fstate * bool.

(** [for (let i = 0; i < tokens.length; i++)]: the state after the loop. *)
Fixpoint fmt_loop (st : fstate) (toks : list token) : fstate :=
  match toks with
  | [] => st
  | t :: rest =>
      let '(st', skip) := step st t (hd_error rest) in
      if skip then
        match rest with
        | [] => st'
        | _ :: rest' => fmt_loop st' rest'
        end
      else fmt_loop st' rest
  end.

(** The states at the end of each iteration, in order. *)
Fixpoint fmt_trace (st : fstate) (toks : list token) : list fstate :=
  match toks with
  | [] => []
  | t :: rest =>
      let '(st', skip) := step st t (hd_error rest) in
      st' :: (if skip then
                match rest with
                | [] => []
                | _ :: rest' => fmt_trace st' rest'
                end
              else fmt_trace st' rest)
  end.

(** [return out.trim() + '\n'] *)
Definition finish (st : fstate) : str := trim (out st) ++ [10].

End FormatLoop.

(** [format] of the node module. *)
Definition format (sql : str) : str :=
  finish (fmt_loop format_step init_state (tokenize sql)).

(** [formatSQL] of the browser bundle. *)
Definition formatSQL (sql : str) : str :=
  finish (fmt_loop formatSQL_step init_state (Bundle.tokenize sql)).

(** ** The analyzer *)

Inductive level_t := info | warn | error.

Record finding := mkFinding {
  level : level_t;
  message : str
}.

Definition level_eqb (a b : level_t) : bool :=
  match a, b with
  | info, info | warn, warn | error, error => true
  | _, _ => false
  end.

(** *** Regular expressions of the analyzer

    All of them carry the flag [i] and none the flag [u]: a pattern letter
    matches its two ASCII cases and nothing else (a code unit outside ASCII is
    never folded to an ASCII one). *)

(** The rest of [s] after the pattern text [pat] (given in upper case),
    matched without regard to case. *)
Fixpoint match_ci (pat s : str) : option str :=
  match pat, s with
  | [], _ => Some s
  | p :: pat', c :: s' => if upper_char c =? p then match_ci pat' s' else None
  | _ :: _, [] => None
  end.

(** [re.test(s)] for a pattern that is not anchored: [m] decides a match that
    starts at the head of a suffix. *)
Fixpoint search (m : str -> bool) (s : str) : bool :=
  m s || match s with
         | [] => false
         | _ :: s' => search m s'
         end.

(** [NOT\s+IN\s*\(] at the head of [s]. *)
Definition not_in_here (s : str) : bool :=
  match match_ci (js "NOT") s with
  | Some r =>
      (0 <? run is_space r)%nat &&
      match match_ci (js "IN") (drop_while is_space r) with
      | Some r' => next_is 40 (drop_while is_space r')
      | None => false
      end
  | None => false
  end.

(** [LIKE\s+'%] at the head of [s] (the bundle's test). *)
Definition like_here (s : str) : bool :=
  match match_ci (js "LIKE") s with
  | Some r => (0 <? run is_space r)%nat
              && starts_with (js "'%") (drop_while is_space r)
  | None => false
  end.

(** [\bnow\(\)]: [prev_word] tells whether the character before the head of
    [s] is a word character. *)
Fixpoint search_now (prev_word : bool) (s : str) : bool :=
  (negb prev_word
   && match match_ci (js "NOW()") s with Some _ => true | None => false end)
  || match s with
     | [] => false
     | c :: s' => search_now (is_word c) s'
     end.

(** [WHERE[\s\S]*?COALESCE] at the head of [s]. *)
Definition where_coalesce_here (s : str) : bool :=
  match match_ci (js "WHERE") s with
  | Some r =>
      search (fun x => match match_ci (js "COALESCE") x with
                       | Some _ => true
                       | None => false
                       end) r
  | None => false
  end.

(** [OFFSET\s+(\d+)] at the head of [s]: the digits captured. *)
Definition offset_here (s : str) : option str :=
  match match_ci (js "OFFSET") s with
  | Some r =>
      let r' := drop_while is_space r in
      if (0 <? run is_space r)%nat && (0 <? run is_digit r')%nat
      then Some (firstn (run is_digit r') r')
      else None
  | None => None
  end.

(** [sql.match(/OFFSET\s+(\d+)/i)]: the capture of the leftmost match. *)
Fixpoint offset_match (s : str) : option str :=
  match offset_here s with
  | Some d => Some d
  | None => match s with
            | [] => None
            | _ :: s' => offset_match s'
            end
  end.

(** [parseInt] of a string of digits.  JavaScript rounds it to a double, which
    does not change how it compares with 1000. *)
Definition parseInt (d : str) : N :=
  fold_left (fun acc c => 10 * acc + (c - 48)) d 0.

(** [(sql.match(/::/g) || []).length]: the matches do not overlap. *)
Fixpoint castCount (s : str) : nat :=
  match s with
  | [] => O
  | c :: r =>
      match r with
      | c2 :: r2 => if (c =? 58) && (c2 =? 58) then S (castCount r2)
                    else castCount r
      | [] => O
      end
  end.

(** A number printed in a template literal. *)
Fixpoint uint_str (u : Decimal.uint) : str :=
  match u with
  | Decimal.Nil => []
  | Decimal.D0 u' => 48 :: uint_str u'
  | Decimal.D1 u' => 49 :: uint_str u'
  | Decimal.D2 u' => 50 :: uint_str u'
  | Decimal.D3 u' => 51 :: uint_str u'
  | Decimal.D4 u' => 52 :: uint_str u'
  | Decimal.D5 u' => 53 :: uint_str u'
  | Decimal.D6 u' => 54 :: uint_str u'
  | Decimal.D7 u' => 55 :: uint_str u'
  | Decimal.D8 u' => 56 :: uint_str u'
  | Decimal.D9 u' => 57 :: uint_str u'
  end.

Definition decimal (n : nat) : str := uint_str (Nat.to_uint n).

(** *** The findings *)

Definition select_star_finding : finding := mkFinding warn
  (js "SELECT * can cause performance issues and breaks when columns change. Specify columns explicitly.").
Definition update_finding : finding := mkFinding error
  (js "UPDATE without WHERE clause will modify ALL rows in the table.").
Definition delete_finding : finding := mkFinding error
  (js "DELETE without WHERE clause will remove ALL rows from the table.").
Definition like_finding : finding := mkFinding warn
  (js "LIKE with leading wildcard ('%...') cannot use a B-tree index. Consider pg_trgm or full-text search.").
Definition not_in_finding : finding := mkFinding warn
  (js "NOT IN with subquery can return unexpected results if subquery returns NULL. Use NOT EXISTS instead.").
Definition order_by_finding : finding := mkFinding info
  (js "ORDER BY without LIMIT sorts the entire result set. Add LIMIT if you only need a subset.").

Definition cast_tail : str :=
  js " explicit casts detected. Excessive casting may indicate schema/type mismatches.".
Definition cast_finding (n : nat) : finding :=
  mkFinding info (decimal n ++ cast_tail).

(** The dash of the node module's messages is U+2014. *)
Definition offset_finding (d : str) : finding := mkFinding warn
  (js "Large OFFSET (" ++ d ++ js ") is slow " ++ [8212]
   ++ js " Postgres must scan and discard rows. Use keyset pagination instead.").
Definition join_finding (n : nat) : finding := mkFinding info
  (decimal n ++ js " JOINs detected. Consider if all are necessary " ++ [8212]
   ++ js " each join multiplies the planner's work.").
Definition now_finding : finding := mkFinding info
  (js "now() returns the same value for the entire transaction. Use clock_timestamp() if you need wall-clock time.").
Definition coalesce_finding : finding := mkFinding info
  (js "COALESCE in WHERE clause may prevent index usage. Consider restructuring with IS NULL / IS NOT NULL.").

Module Bundle_msg.
Definition offset_finding (d : str) : finding := mkFinding warn
  (js "Large OFFSET (" ++ d ++ js ") is slow. Use keyset pagination instead.").
Definition join_finding (n : nat) : finding := mkFinding info
  (decimal n ++ js " JOINs detected. Consider if all are necessary.").
Definition now_finding : finding := mkFinding info
  (js "now() returns the same value for the entire transaction. Use clock_timestamp() for wall-clock time.").
Definition coalesce_finding : finding := mkFinding info
  (js "COALESCE in WHERE clause may prevent index usage.").
End Bundle_msg.

(** *** The rules over the tokens *)

(** The loop over [i < tokens.length - 1] of the [SELECT *] rule, on the
    tokens from [i]. *)
Fixpoint select_star (toks : list token) : list finding :=
  match toks with
  | [] => []
  | t :: rest =>
      match rest with
      | [] => []
      | _ :: _ =>
          (if is_kw "SELECT" t then
             let after :=
               match rest with
               | d :: rest' => if is_kw "DISTINCT" d then rest' else rest
               | [] => rest
               end in
             match after with
             | x :: _ => if is_sym "*" x then [select_star_finding] else []
             | [] => []
             end
           else [])
          ++ select_star rest
      end
  end.

(** The inner loop over [j]: is there a [WHERE] before the next [;]? *)
Fixpoint hasWhere (toks : list token) : bool :=
  match toks with
  | [] => false
  | t :: rest =>
      if is_sym ";" t then false
      else if is_kw "WHERE" t then true
      else hasWhere rest
  end.

(** The loop over [i] of the node module's [UPDATE] and [DELETE] rules. *)
Fixpoint without_where (kw : string) (f : finding) (toks : list token)
  : list finding :=
  match toks with
  | [] => []
  | t :: rest =>
      (if is_kw kw t && negb (hasWhere rest) then [f] else [])
      ++ without_where kw f rest
  end.

(** The bundle's single loop for both. *)
Fixpoint without_where_bundle (toks : list token) : list finding :=
  match toks with
  | [] => []
  | t :: rest =>
      (if is_kw "UPDATE" t && negb (hasWhere rest) then [update_finding] else [])
      ++ (if is_kw "DELETE" t && negb (hasWhere rest) then [delete_finding] else [])
      ++ without_where_bundle rest
  end.

Definition joinCount (toks : list token) : nat :=
  length (filter (is_kw "JOIN") toks).

Definition when (b : bool) (f : finding) : list finding :=
  if b then [f] else [].

Section Analyze.

(** [String.prototype.toUpperCase] on the whole input, which may hold any
    code unit; it only feeds the [LIKE] rule. *)
Variable upper : str -> str.

(** [analyze] of the node module. *)
Definition analyze_with (sql : str) : list finding :=
  let tokens := tokenize sql in
  select_star tokens
  ++ without_where "UPDATE" update_finding tokens
  ++ without_where "DELETE" delete_finding tokens
  ++ when (includes (js "LIKE '%") (upper sql)
           || includes (js "LIKE '%") (upper sql)) like_finding
  ++ when (search not_in_here sql) not_in_finding
  ++ when (existsb (is_kw "ORDER") tokens
           && negb (existsb (is_kw "LIMIT") tokens)
           && negb (existsb (is_kw "FETCH") tokens)) order_by_finding
  ++ when (3 <? castCount sql)%nat (cast_finding (castCount sql))
  ++ match offset_match sql with
     | Some d => when (1000 <? parseInt d) (offset_finding d)
     | None => []
     end
  ++ when (5 <=? joinCount tokens)%nat (join_finding (joinCount tokens))
  ++ when (search_now false sql) now_finding
  ++ when (search where_coalesce_here sql) coalesce_finding.

End Analyze.

(** [analyze] on input of the ASCII range. *)
Definition analyze : str -> list finding := analyze_with toUpperCase.

(** [analyzeSQL] of the browser bundle. *)
Definition analyzeSQL (sql : str) : list finding :=
  let tokens := Bundle.tokenize sql in
  select_star tokens
  ++ without_where_bundle tokens
  ++ when (search like_here sql) like_finding
  ++ when (search not_in_here sql) not_in_finding
  ++ when (existsb (is_kw "ORDER") tokens
           && negb (existsb (fun t => is_type Tkeyword t
                              && (str_eqb (value t) (js "LIMIT")
                                  || str_eqb (value t) (js "FETCH"))) tokens))
       order_by_finding
  ++ match offset_match sql with
     | Some d => when (1000 <? parseInt d) (Bundle_msg.offset_finding d)
     | None => []
     end
  ++ when (5 <=? joinCount tokens)%nat (Bundle_msg.join_finding (joinCount tokens))
  ++ when (search_now false sql) Bundle_msg.now_finding
  ++ when (search where_coalesce_here sql) Bundle_msg.coalesce_finding.

(** * The generator and the parser

    [src/generator.js] and the CSV half of the parser module
    ([src/unnamed/part_002], after the formatter); the browser bundle holds
    the same functions. *)

(** A JavaScript value as this code reads it: [null], [undefined], a string,
    or any other value, given by the text [String(val)] returns for it. *)
Inductive jsval :=
| JNull
| JUndefined
| JStr (s : str)
| JOther (text : str).

(** [String(val)] *)
Definition String_of (v : jsval) : str :=
  match v with
  | JNull => js "null"
  | JUndefined => js "undefined"
  | JStr s => s
  | JOther text => text
  end.

(** [s.replace(/c/g, by)] for a one-character pattern. *)
Definition replace_char (c : char) (by_ : str) (s : str) : str :=
  flat_map (fun x => if x =? c then by_ else [x]) s.

(** [parts.join(sep)] *)
Fixpoint join (sep : str) (parts : list str) : str :=
  match parts with
  | [] => []
  | [p] => p
  | p :: rest => p ++ sep ++ join sep rest
  end.

(** [val === null || val === undefined || val === ''] *)
Definition is_nullish (v : jsval) : bool :=
  match v with
  | JNull | JUndefined => true
  | JStr s => match s with [] => true | _ => false end
  | JOther _ => false
  end.

Definition escapeValue (val : jsval) : str :=
  if is_nullish val then js "NULL"
  else js "'" ++ replace_char 39 (js "''") (String_of val) ++ js "'".

(** The value of one field of a [COPY] row in [generateCopy]. *)
Definition copy_field (v : jsval) : str :=
  match v with
  | JNull | JUndefined => []
  | _ =>
      let s := String_of v in
      if includes (js ",") s || includes [34] s || includes [10] s
      then [34] ++ replace_char 34 [34; 34] s ++ [34]
      else s
  end.

(** [vals.join(',') + '\n']: one row of [generateCopy]. *)
Definition copy_row (vals : list jsval) : str :=
  join (js ",") (map copy_field vals) ++ [10].

(** [for (let i = 0; i < rows.length; i += batchSize)] with
    [rows.slice(i, i + batchSize)]: the batches of [generateInserts], from
    index [i], in at most [fuel] iterations. *)
Fixpoint batches {A : Type} (batchSize fuel i : nat) (rows : list A)
  : list (list A) :=
  if (i <? length rows)%nat then
    match fuel with
    | O => []
    | S fuel' =>
        firstn batchSize (skipn i rows)
        :: batches batchSize fuel' (i + batchSize) rows
    end
  else [].

(** [options.schema || 'public'] *)
Definition schema_of (schema : option str) : str :=
  match schema with
  | Some ((_ :: _) as s) => s
  | _ => js "public"
  end.

Definition RESERVED : list str := map js
  [ "select"; "from"; "where"; "table"; "column"; "index"; "order"; "group";
    "limit"; "offset"; "user"; "default"; "check"; "primary"; "key";
    "references"; "constraint"; "type"; "all"; "and"; "or"; "not"; "null";
    "true"; "false"; "as"; "in"; "on"; "is"; "by"; "to"; "do"; "if";
    "end" ]%string.

(** [[a-z0-9_]] *)
Definition is_name_char (c : char) : bool :=
  between 97 122 c || between 48 57 c || (c =? 95).

(** [s.replace(/_+/g, '_')]: [after] tells whether the character before is
    an underscore. *)
Fixpoint collapse_from (after : bool) (s : str) : str :=
  match s with
  | [] => []
  | c :: r =>
      if c =? 95
      then if after then collapse_from true r else 95 :: collapse_from true r
      else c :: collapse_from false r
  end.

Definition collapse_underscores (s : str) : str := collapse_from false s.

(** [s.replace(/^_|_$/g, '')]: an underscore at the start and one at the end
    go. *)
Definition strip_underscores (s : str) : str :=
  let s1 := match s with
            | c :: r => if c =? 95 then r else s
            | [] => []
            end in
  match rev s1 with
  | c :: r => if c =? 95 then rev r else s1
  | [] => []
  end.

Section Generator.

(** [String.prototype.toLowerCase], which may meet any code unit. *)
Variable lower : str -> str.

Definition sanitizeName (name : str) : str :=
  let clean :=
    strip_underscores
      (collapse_underscores
         (map (fun c => if is_name_char c then c else 95) (lower name))) in
  let clean :=
    match clean with
    | [] => js "col_" ++ clean
    | c :: _ => if is_digit c then js "col_" ++ clean else clean
    end in
  if in_set clean RESERVED then clean ++ js "_col" else clean.

(** [generateInserts]: [row h] is what [row[h]] reads and [colName h] is
    [colMeta[h].colName]. *)
Definition generateInserts (tableName : str) (headers : list str)
    (rows : list (str -> jsval)) (colName : str -> str) (schema : option str)
  : str :=
  let tbl := sanitizeName tableName in
  let colNames := map colName headers in
  let stmt (batch : list (str -> jsval)) : str :=
    js "INSERT INTO " ++ schema_of schema ++ js "." ++ tbl ++ js " ("
    ++ join (js ", ") colNames ++ js ") VALUES" ++ [10]
    ++ join (js "," ++ [10])
         (map (fun row =>
                 js "  (" ++ join (js ", ") (map (fun h => escapeValue (row h)) headers)
                 ++ js ")") batch)
    ++ js ";" ++ [10] in
  join [10] (map stmt (batches 100 (length rows) 0 rows)).

End Generator.

(** [toLowerCase] on text of the ASCII range. *)
Definition lower_char (c : char) : char :=
  if between 65 90 c then c + 32 else c.
Definition toLowerCase (s : str) : str := map lower_char s.

(** ** The CSV parser *)

(** The loop of [parseLine], from index [i] on, with the fields pushed so
    far, the field being read and whether [i] is inside quotes. *)
Fixpoint parseLine_loop (delimiter : str) (fields : list str) (current : str)
    (inQuotes : bool) (line : str) : list str :=
  match line with
  | [] => fields ++ [trim current]
  | ch_ :: rest =>
      if inQuotes then
        if ch_ =? 34 then
          match rest with
          | c2 :: rest' =>
              if c2 =? 34
              then parseLine_loop delimiter fields (current ++ [34]) true rest'
              else parseLine_loop delimiter fields current false rest
          | [] => parseLine_loop delimiter fields current false rest
          end
        else parseLine_loop delimiter fields (current ++ [ch_]) true rest
      else if ch_ =? 34 then parseLine_loop delimiter fields current true rest
      else if str_eqb [ch_] delimiter
           then parseLine_loop delimiter (fields ++ [trim current]) [] false rest
      else parseLine_loop delimiter fields (current ++ [ch_]) false rest
  end.

Definition parseLine (line delimiter : str) : list str :=
  parseLine_loop delimiter [] [] false line.

(** [text.split(/\r?\n/)], with the line being read. *)
Fixpoint split_lines (current : str) (s : str) : list str :=
  match s with
  | [] => [current]
  | c :: r =>
      if c =? 10 then current :: split_lines [] r
      else
        match r with
        | c2 :: r' =>
            if (c =? 13) && (c2 =? 10) then current :: split_lines [] r'
            else split_lines (current ++ [c]) r
        | [] => split_lines (current ++ [c]) r
        end
  end.

(** [(firstLine.match(new RegExp(d, 'g')) || []).length] for a candidate [d]
    of one character. *)
Definition count_char (d : char) (s : str) : nat :=
  length (filter (N.eqb d) s).

(** The auto-detection of the delimiter: the first candidate with the
    greatest count, a comma when no candidate occurs. *)
Definition detect_delimiter (firstLine : str) : char :=
  fst (fold_left
         (fun (best : char * nat) d =>
            if (snd best <? count_char d firstLine)%nat
            then (d, count_char d firstLine) else best)
         [44; 9; 59; 124] (44, O)).

(** *** Row objects

    A row is an object made by [{}], with [Object.prototype] as its prototype
    and string values: the list of its own properties, in the order in which
    they were created.  (The order in which a property is listed plays no part
    below.) *)
Definition obj := list (str * str).

(** Create the property [key], or overwrite it where it is. *)
Fixpoint obj_put (key v : str) (o : obj) : obj :=
  match o with
  | [] => [(key, v)]
  | (k, x) :: o' =>
      if str_eqb k key then (k, v) :: o' else (k, x) :: obj_put key v o'
  end.

(** [row[key] = v] for a string [v].  The key [__proto__] names the accessor
    of [Object.prototype], whose setter ignores a value that is not an object:
    the assignment creates no property. *)
Definition obj_assign (key v : str) (o : obj) : obj :=
  if str_eqb key (js "__proto__") then o else obj_put key v o.

(** The value of the own property [key], as [Object.hasOwn(row, key)] and then
    [row[key]] give it; [None] without such a property (where [row[key]] reads
    the prototype). *)
Fixpoint own (o : obj) (key : str) : option str :=
  match o with
  | [] => None
  | (k, x) :: o' => if str_eqb k key then Some x else own o' key
  end.

(** [row[headers[j]] = j < values.length ? values[j] : ''] for every [j]. *)
Fixpoint row_loop (headers values : list str) (row : obj) : obj :=
  match headers with
  | [] => row
  | h :: hs =>
      match values with
      | v :: vs => row_loop hs vs (obj_assign h v row)
      | [] => row_loop hs [] (obj_assign h [] row)
      end
  end.

Definition row_of (headers values : list str) : obj :=
  row_loop headers values [].

Inductive result (A : Type) :=
| Ok (a : A)
| Throw (message_ : str).
Arguments Ok {A} a.
Arguments Throw {A} message_.

(** [parseCSV]: the headers and the row objects.  [delimiter] is [None] for a
    missing or empty argument. *)
Definition parseCSV (text : str) (delimiter : option str)
  : result (list str * list obj) :=
  let lines := split_lines [] (trim text) in
  match lines with
  | firstLine :: _ :: _ =>
      let delimiter :=
        match delimiter with
        | Some ((_ :: _) as d) => d
        | _ => [detect_delimiter firstLine]
        end in
      let headers := parseLine firstLine delimiter in
      Ok (headers,
          map (fun l => row_of headers (parseLine l delimiter))
            (filter (fun l => negb (str_eqb (trim l) [])) (tl lines)))
  | _ => Throw (js "CSV must have at least a header row and one data row")
  end.

(** [detectFormat] *)
Definition detectFormat (text : str) : bool (* true: json *) :=
  starts_with (js "{") (trim text) || starts_with (js "[") (trim text).


(** * The type detector

    The detector module ([src/unnamed/part_002], its last part): the types a
    value and a column are given. *)

Inductive pgtype :=
| pg_boolean | pg_smallint | pg_integer | pg_bigint | pg_numeric
| pg_date | pg_timestamp | pg_timestamptz | pg_uuid | pg_jsonb | pg_text.

Definition pgtype_eqb (a b : pgtype) : bool :=
  match a, b with
  | pg_boolean, pg_boolean | pg_smallint, pg_smallint | pg_integer, pg_integer
  | pg_bigint, pg_bigint | pg_numeric, pg_numeric | pg_date, pg_date
  | pg_timestamp, pg_timestamp | pg_timestamptz, pg_timestamptz
  | pg_uuid, pg_uuid | pg_jsonb, pg_jsonb | pg_text, pg_text => true
  | _, _ => false
  end.

(** [[...new Set(l)]]: the elements of [l] without repetition, each at its
    first place. *)
Fixpoint uniq {A : Type} (eqb : A -> A -> bool) (l : list A) : list A :=
  match l with
  | [] => []
  | x :: r => x :: filter (fun y => negb (eqb x y)) (uniq eqb r)
  end.

(** [set.has(t)] and [array.includes(t)] on types. *)
Definition has_type (t : pgtype) (l : list pgtype) : bool :=
  existsb (pgtype_eqb t) l.

(** [types.filter(t => t !== null)] *)
Fixpoint non_null (types : list (option pgtype)) : list pgtype :=
  match types with
  | [] => []
  | Some t :: r => t :: non_null r
  | None :: r => non_null r
  end.

(** [resolveType] from [unique] on. *)
Definition resolve_unique (unique : list pgtype) : pgtype :=
  match unique with
  | [] => pg_text
  | [t] => t
  | _ =>
      let intTypes := [pg_smallint; pg_integer; pg_bigint] in
      if forallb (fun t => has_type t intTypes) unique then
        if has_type pg_bigint unique then pg_bigint
        else if has_type pg_integer unique then pg_integer
        else pg_smallint
      else
        let numericTypes := [pg_smallint; pg_integer; pg_bigint; pg_numeric] in
        if forallb (fun t => has_type t numericTypes) unique then pg_numeric
        else
          let timeTypes := [pg_date; pg_timestamp; pg_timestamptz] in
          if forallb (fun t => has_type t timeTypes) unique then
            if has_type pg_timestamptz unique then pg_timestamptz
            else if has_type pg_timestamp unique then pg_timestamp
            else pg_date
          else
            let boolIntTypes := [pg_boolean; pg_smallint; pg_integer; pg_bigint] in
            if forallb (fun t => has_type t boolIntTypes) unique then pg_smallint
            else pg_text
  end.

Definition resolveType (types : list (option pgtype)) : pgtype :=
  resolve_unique (uniq pgtype_eqb (non_null types)).

(** *** The regular expressions of the detector

    Each is anchored at both ends.  [match_classes] reads a sequence of
    one-character classes and returns the rest of the text. *)

Fixpoint match_classes (classes : list (char -> bool)) (s : str) : option str :=
  match classes with
  | [] => Some s
  | p :: classes' =>
      match s with
      | c :: s' => if p c then match_classes classes' s' else None
      | [] => None
      end
  end.

(** [[0-9a-f]] with the flag [i] *)
Definition is_hex (c : char) : bool :=
  is_digit c || between 97 102 c || between 65 70 c.

Definition is_char (x : char) (c : char) : bool := c =? x.

Definition at_end (r : option str) : bool :=
  match r with
  | Some [] => true
  | _ => false
  end.

(** [/^[0-9a-f]{8}-[0-9a-f]{4}-[0-9a-f]{4}-[0-9a-f]{4}-[0-9a-f]{12}$/i] *)
Definition UUID_RE (v : str) : bool :=
  at_end (match_classes
            (repeat is_hex 8 ++ [is_char 45] ++ repeat is_hex 4 ++ [is_char 45]
             ++ repeat is_hex 4 ++ [is_char 45] ++ repeat is_hex 4
             ++ [is_char 45] ++ repeat is_hex 12) v).

(** [/^\d{4}-\d{2}-\d{2}$/] *)
Definition DATE_RE (v : str) : bool :=
  at_end (match_classes
            (repeat is_digit 4 ++ [is_char 45] ++ repeat is_digit 2
             ++ [is_char 45] ++ repeat is_digit 2) v).

(** The text after an optional leading [-]. *)
Definition after_minus (v : str) : str :=
  match v with
  | c :: r => if c =? 45 then r else v
  | [] => []
  end.

(** [/^-?\d+$/] *)
Definition INTEGER_RE (v : str) : bool :=
  let r := after_minus v in
  (0 <? length r)%nat && forallb is_digit r.

(** [/^-?\d+\.\d+$/] *)
Definition NUMERIC_RE (v : str) : bool :=
  let r := after_minus v in
  let n := run is_digit r in
  (0 <? n)%nat &&
  match skipn n r with
  | c :: f => (c =? 46) && (0 <? length f)%nat && forallb is_digit f
  | [] => false
  end.

(** [^\d{4}-\d{2}-\d{2}[T ]\d{2}:\d{2}(:\d{2})?(\.\d+)?]: the rest of the text
    after the common start of the two timestamp expressions. *)
Definition timestamp_start (v : str) : option str :=
  match match_classes
          (repeat is_digit 4 ++ [is_char 45] ++ repeat is_digit 2
           ++ [is_char 45] ++ repeat is_digit 2
           ++ [fun c => (c =? 84) || (c =? 32)] ++ repeat is_digit 2
           ++ [is_char 58] ++ repeat is_digit 2) v with
  | Some r =>
      let r1 := match match_classes [is_char 58; is_digit; is_digit] r with
                | Some r' => r'
                | None => r
                end in
      let r2 := match r1 with
                | c :: f =>
                    if (c =? 46) && (0 <? run is_digit f)%nat
                    then skipn (run is_digit f) f else r1
                | [] => r1
                end in
      Some r2
  | None => None
  end.

(** [/^...$/] without a zone *)
Definition TIMESTAMP_RE (v : str) : bool := at_end (timestamp_start v).

(** [/^...(Z|[+-]\d{2}:?\d{2})$/] *)
Definition TIMESTAMPTZ_RE (v : str) : bool :=
  match timestamp_start v with
  | Some r =>
      str_eqb r (js "Z")
      || match match_classes
                 [fun c => (c =? 43) || (c =? 45); is_digit; is_digit] r with
         | Some r' =>
             let r'' := match r' with
                        | c :: x => if c =? 58 then x else r'
                        | [] => r'
                        end in
             at_end (match_classes [is_digit; is_digit] r'')
         | None => false
         end
  | None => false
  end.

Definition BOOLEAN_VALS : list str :=
  map js ["true"; "false"; "t"; "f"; "yes"; "no"]%string.

(** The number a string of digits denotes. *)
Definition digits_value (d : str) : Z :=
  fold_left (fun acc c => (10 * acc + Z.of_N (c - 48))%Z) d 0%Z.

(** [BigInt(v)] for a text that matches [INTEGER_RE]. *)
Definition BigInt (v : str) : Z :=
  match v with
  | c :: r => if c =? 45 then (- digits_value r)%Z else digits_value v
  | [] => 0%Z
  end.

Section Detector.

(** The parts of the host: [toLowerCase], whether [new Date(v)] is a valid
    date, and whether [JSON.parse(v)] returns. *)
Variable lower : str -> str.
Variable date_valid : str -> bool.
Variable json_valid : str -> bool.

Definition detectType (value : jsval) : option pgtype :=
  if is_nullish value then None
  else
    let v := trim (String_of value) in
    match v with
    | [] => None
    | _ :: _ =>
        if UUID_RE v then Some pg_uuid
        else if INTEGER_RE v then
          let n := BigInt v in
          if ((-32768 <=? n) && (n <=? 32767))%Z then Some pg_smallint
          else if ((-2147483648 <=? n) && (n <=? 2147483647))%Z
               then Some pg_integer
          else if ((-9223372036854775808 <=? n)
                   && (n <=? 9223372036854775807))%Z
               then Some pg_bigint
          else Some pg_numeric
        else if NUMERIC_RE v then Some pg_numeric
        else if in_set (lower v) BOOLEAN_VALS then Some pg_boolean
        else if TIMESTAMPTZ_RE v then Some pg_timestamptz
        else if TIMESTAMP_RE v then Some pg_timestamp
        else if DATE_RE v && date_valid v then Some pg_date
        else if ((starts_with (js "{") v && endsWith (js "}") v)
                 || (starts_with (js "[") v && endsWith (js "]") v))
                && json_valid v
             then Some pg_jsonb
        else Some pg_text
    end.

Record column := mkColumn {
  pgType : pgtype;
  nullable : bool;
  isUnique : bool;
  sampleSize : nat;
  nullCount : nat
}.

(** [v !== null && v !== undefined && String(v).trim() !== ''] *)
Definition not_blank (v : jsval) : bool :=
  match v with
  | JNull | JUndefined => false
  | _ => negb (str_eqb (trim (String_of v)) [])
  end.

Definition analyzeColumn (values : list jsval) : column :=
  let types := map detectType values in
  let nullCount :=
    length (filter (fun t => match t with None => true | Some _ => false end)
              types) in
  let nonNull := filter not_blank values in
  mkColumn
    (resolveType types)
    (0 <? nullCount)%nat
    ((length (uniq str_eqb (map String_of nonNull)) =? length nonNull)%nat
     && (1 <? length nonNull)%nat)
    (length values)
    nullCount.

End Detector.


(** * Notions used in the statements *)


(** The formatter's counters are not negative. *)
Definition nonneg (st : fstate) : Prop :=
  (0 <= indent st)%Z /\ (0 <= parenDepth st)%Z.

(** A token without the original spelling of a keyword, which the formatter
    never prints. *)
Definition canon (t : token) : token :=
  if is_type Tkeyword t then tok Tkeyword (value t) else t.

Definition canon_state (st : fstate) : fstate :=
  mkState (out st) (indent st) (lineStart st)
    (option_map canon (prevToken st)) (parenDepth st).

(** A finding of level [error]. *)
Definition is_error (f : finding) : bool := level_eqb (level f) error.

(** Some [WHERE] keyword token comes before every [;] token of [toks]. *)
Definition where_before_semicolon (toks : list token) : Prop :=
  exists pre w post,
    toks = pre ++ w :: post /\ is_kw "WHERE" w = true
    /\ forall x, In x pre -> is_sym ";" x = false.

(** The token at position [i] is the keyword [kw] and the inner loop finds no
    [WHERE] after it. *)
Definition offending (kw : string) (toks : list token) (i : nat) : bool :=
  match nth_error toks i with
  | Some t => is_kw kw t && negb (hasWhere (skipn (S i) toks))
  | None => false
  end.

Definition offenders (kw : string) (toks : list token) : list nat :=
  filter (offending kw toks) (seq 0 (length toks)).

(** The last two characters of a message, last first. *)
Definition tail2 (f : finding) : str := firstn 2 (rev (message f)).

(** Some [)] token comes right after a [LIMIT], [OFFSET], [ASC] or [DESC]
    keyword token. *)
Fixpoint close_after_limit (toks : list token) : bool :=
  match toks with
  | [] => false
  | t :: rest =>
      match rest with
      | n :: _ => (is_limit_kw t && is_sym ")" n) || close_after_limit rest
      | [] => false
      end
  end.

(** The text without its white space. *)
Definition strip (s : str) : str := filter (fun c => negb (is_space c)) s.

(** The text of the input a token was read from: the original spelling of a
    keyword, the value of any other token. *)
Definition source_text (t : token) : str :=
  match original t with
  | Some w => w
  | None => value t
  end.

(** The shape of a token of the lexer: its value holds a character that is
    not white space; a keyword token carries its original spelling, its value
    is that spelling in upper case and one of [KEYWORDS]; no other token
    carries an original spelling; and an identifier that is not quoted is not
    a keyword in any case. *)
Definition lexed (t : token) : Prop :=
  strip (value t) <> []
  /\ match original t with
     | Some w => type t = Tkeyword /\ value t = toUpperCase w
                 /\ In (value t) KEYWORDS
     | None => type t <> Tkeyword
     end
  /\ (type t = Tidentifier -> next_is 34 (value t) = false ->
      in_set (toUpperCase (value t)) KEYWORDS = false).


(** A scanner that returns a token whose text is the characters it moves
    over. *)
Definition slices (r : scan) (s : str) : Prop :=
  exists t, fst r = Some t /\ source_text t = firstn (snd r) s.

(** A text that [trim] leaves as it is. *)
Definition trimmed (s : str) : Prop := trim s = s.

(** A name that can stand as a Postgres identifier without quotes: it is not
    empty, holds only [[a-z0-9_]], does not start with a digit and is not one
    of the reserved words [sanitizeName] lists. *)
Definition valid_name (s : str) : Prop :=
  match s with
  | [] => False
  | c :: _ => is_digit c = false
  end
  /\ forallb is_name_char s = true
  /\ in_set s RESERVED = false.


(** The text [generateCopy] writes for a value before it quotes it. *)
Definition copy_text (v : jsval) : str :=
  match v with
  | JNull | JUndefined => []
  | _ => String_of v
  end.


(** The types of the detector, in the order of [TYPE_PRIORITY]. *)
Definition all_types : list pgtype :=
  [pg_boolean; pg_smallint; pg_integer; pg_bigint; pg_numeric;
   pg_date; pg_timestamp; pg_timestamptz; pg_uuid; pg_jsonb; pg_text].

(** [seen t types]: some value of the column was given the type [t]. *)
Definition seen (t : pgtype) (types : list (option pgtype)) : bool :=
  has_type t (non_null types).

(** [widens a b]: a column of type [b] stores every value of type [a]: the
    integer types in the order of their ranges, then [numeric]; a date as a
    timestamp, a timestamp as one with a zone; and everything as [text]. *)
Definition widens (a b : pgtype) : bool :=
  match a, b with
  | _, pg_text => true
  | pg_smallint, (pg_smallint | pg_integer | pg_bigint | pg_numeric) => true
  | pg_integer, (pg_integer | pg_bigint | pg_numeric) => true
  | pg_bigint, (pg_bigint | pg_numeric) => true
  | pg_date, (pg_date | pg_timestamp | pg_timestamptz) => true
  | pg_timestamp, (pg_timestamp | pg_timestamptz) => true
  | _, _ => pgtype_eqb a b
  end.

Definition is_int_type (t : pgtype) : bool :=
  has_type t [pg_smallint; pg_integer; pg_bigint].

(** [fits n t]: the integer [n] is in the range of the type [t] of
    PostgreSQL ([numeric] and [text] have no bound). *)
Definition fits (n : Z) (t : pgtype) : bool :=
  match t with
  | pg_smallint => ((-32768 <=? n) && (n <=? 32767))%Z
  | pg_integer => ((-2147483648 <=? n) && (n <=? 2147483647))%Z
  | pg_bigint =>
      ((-9223372036854775808 <=? n) && (n <=? 9223372036854775807))%Z
  | pg_numeric | pg_text => true
  | _ => false
  end.

(** The text of a value, as [detectType] reads it. *)
Definition value_text (v : jsval) : str := trim (String_of v).


(** [OFFSET\s+(\d+)], with the flag [i], matches at the head of [s] with the
    capture [d]: [s] is the word in any case, then white space, then the
    digits [d], as many as there are. *)
Definition offset_at (s d : str) : Prop :=
  exists kw ws rest,
    s = kw ++ ws ++ d ++ rest
    /\ toUpperCase kw = js "OFFSET"
    /\ ws <> [] /\ forallb is_space ws = true
    /\ d <> [] /\ forallb is_digit d = true
    /\ next_sat is_digit rest = false.

(** The number of occurrences of [pat] in [s]: the positions of [s] at which
    [pat] starts.  Two occurrences may overlap. *)
Fixpoint occurrences (pat s : str) : nat :=
  (if starts_with pat s then 1 else 0)
  + match s with
    | [] => 0
    | _ :: s' => occurrences pat s'
    end.

(** The pairs of colons of [s] that do not overlap: a maximal run of [k]
    colons holds [k / 2] of them.  In [pairs_from k s], [k] colons come right
    before [s]. *)
Fixpoint pairs_from (k : nat) (s : str) : nat :=
  match s with
  | [] => k / 2
  | c :: s' => if c =? 58 then pairs_from (S k) s' else k / 2 + pairs_from 0 s'
  end.

Definition colon_pairs (s : str) : nat := pairs_from 0 s.


(** The ends of the four messages that the bundle words differently, with
    the bundle's wording. *)
Definition REWORDED : list (str * str) :=
  [ (js ") is slow " ++ [8212]
       ++ js " Postgres must scan and discard rows. Use keyset pagination instead.",
     js ") is slow. Use keyset pagination instead.");
    (js " JOINs detected. Consider if all are necessary " ++ [8212]
       ++ js " each join multiplies the planner's work.",
     js " JOINs detected. Consider if all are necessary.");
    (js " Use clock_timestamp() if you need wall-clock time.",
     js " Use clock_timestamp() for wall-clock time.");
    (js " may prevent index usage. Consider restructuring with IS NULL / IS NOT NULL.",
     js " may prevent index usage.") ].

(** A message with the first of these ends it has, if any, replaced. *)
Fixpoint reword_message (pairs : list (str * str)) (m : str) : str :=
  match pairs with
  | [] => m
  | (old, new) :: pairs' =>
      if endsWith old m then firstn (length m - length old) m ++ new
      else reword_message pairs' m
  end.

(** A finding of the node module as the bundle words it. *)
Definition reword (f : finding) : finding :=
  mkFinding (level f) (reword_message REWORDED (message f)).

(** The finding of the rule on casts, for any count. *)
Definition is_cast (f : finding) : bool := endsWith cast_tail (message f).

(** Findings of the node module as the bundle reports them: none on casts,
    and its own wording. *)
Definition bundle_view (fs : list finding) : list finding :=
  map reword (filter (fun f => negb (is_cast f)) fs).


(** *** Inputs the formatter prints as they lex *)

Definition token_eqb (a b : token) : bool :=
  tok_type_eqb (type a) (type b) && str_eqb (value a) (value b)
  && match original a, original b with
     | None, None => true
     | Some x, Some y => str_eqb x y
     | _, _ => false
     end.

(** The last character of a text is not white space. *)
Definition ends_solid (s : str) : bool :=
  match rev s with
  | c :: _ => negb (is_space c)
  | [] => false
  end.

(** [self_lexes t]: the value of [t], which is what the formatter prints for
    it, does not end in white space and, on a line of its own, is lexed as
    [t] (a keyword in any spelling).  A string, a quoted identifier or a block
    comment that the end of the input cut short does not: it takes the end of
    the line in. *)
Definition self_lexes (t : token) : bool :=
  ends_solid (value t)
  && match lex_at operators (value t ++ [10]) with
     | (Some t', _) => token_eqb (canon t') (canon t)
     | (None, _) => false
     end.

(** [symbol_follow s c]: the character [c] right after the symbol [s] does
    not make another token of [s]: a comment, a number, a dollar-quoted
    string or a two-character operator. *)
Definition symbol_follow (s c : char) : bool :=
  negb ((s =? 45) && ((c =? 45) || (c =? 62))
        || (s =? 47) && (c =? 42)
        || (s =? 46) && is_digit c
        || (s =? 36) && (is_alpha c || (c =? 36))
        || (s =? 33) && (c =? 61)
        || (s =? 60) && ((c =? 62) || (c =? 61))
        || (s =? 62) && (c =? 61)
        || (s =? 58) && (c =? 58)
        || (s =? 124) && (c =? 124)
        || (s =? 61) && (c =? 62)).

(** [follow_ok t c]: the character [c] right after the text of [t] leaves the
    lexing of [t] as it is.  A word or a number must not go on, the quote that
    closes a string must not be doubled, a line comment must end with its
    line. *)
Definition follow_ok (t : token) (c : char) : bool :=
  match type t with
  | Tkeyword => negb (is_word c)
  | Tidentifier => next_is 34 (value t) || negb (is_word c)
  | Tnumber => negb (is_numchar c)
  | Tstring => negb (next_is 39 (value t)) || negb (c =? 39)
  | Tcomment => negb (starts_with (js "--") (value t)) || (c =? 10)
  | Toperator => true
  | Tsymbol => symbol_follow (hd 0 (value t)) c
  end.

(** [::], [->] and [->>], printed without a space before them. *)
Definition is_cast_op (t : token) : bool :=
  is_type Toperator t
  && (str_eqb (value t) (js "::") || str_eqb (value t) (js "->")
      || str_eqb (value t) (js "->>")).

(** [glued a b]: the formatter may print [b] right after [a], with no white
    space between them: [(] after a word, anything after [(], the tokens
    [)], [,], [;], [::], [->] and [.] after anything, and anything after
    [.]. *)
Definition glued (a b : token) : bool :=
  is_sym "(" b && (is_type Tidentifier a || is_type Tkeyword a)
  || negb (is_type Tcomment a) && endsWith (js "(") (value a)
  || is_sym ")" b || is_sym "," b || is_sym ";" b
  || is_cast_op b
  || is_sym "." b
  || is_sym "." a.

Definition pair_ok (a b : token) : bool :=
  negb (glued a b) || follow_ok a (hd 0 (value b)).

(** [linked prev toks]: every token of [toks] lexes to itself, and no token
    is glued to the one before it ([prev] for the first) unless its first
    character may follow that one. *)
Fixpoint linked (prev : option token) (toks : list token) : bool :=
  match toks with
  | [] => true
  | t :: rest =>
      self_lexes t
      && match prev with
         | Some p => pair_ok p t
         | None => true
         end
      && linked (Some t) rest
  end.

Definition printable (toks : list token) : bool := linked None toks.

(** How far the iteration moves: past the text, and for a line comment past
    the end of its line as well. *)
Definition moved (n : nat) (T : str) (c : char) (rest : str) : Prop :=
  skipn n (T ++ c :: rest) = c :: rest
  \/ (c = 10 /\ skipn n (T ++ c :: rest) = rest).

(** [lex_ok lst done body]: the text [body], before any character that may
    follow the last token [lst], lexes to the tokens [done]. *)
Definition lex_ok (lst : option token) (done : list token) (body : str) : Prop :=
  forall c rest,
    match lst with
    | Some l => follow_ok l c = true
    | None => True
    end ->
    map canon (tokenize (body ++ c :: rest))
    = map canon done ++ map canon (tokenize (c :: rest)).

(** [printed_as st lst done body ws]: the state of the formatter after it has
    printed the tokens [done], the last of which is [lst].  Its text is
    [body], which lexes to [done] and ends with the last token, and then the
    white space [ws]. *)
Definition printed_as (st : fstate) (lst : option token) (done : list token)
    (body ws : str) : Prop :=
  out st = body ++ ws
  /\ forallb is_space ws = true
  /\ lex_ok lst done body
  /\ match lst with
     | None =>
         body = [] /\ ws = [] /\ lineStart st = true /\ prevToken st = None
         /\ done = []
     | Some l =>
         (exists b0, body = b0 ++ value l)
         /\ ends_solid (value l) = true
         /\ (exists p, prevToken st = Some p /\ type p = type l
                       /\ is_sym "." p = is_sym "." l)
         /\ (is_type Tcomment l = true -> hd_error ws = Some 10)
         /\ (lineStart st = true -> ws <> [])
     end.

(** * Properties *)

(** ** Strings *)

Lemma str_eqb_eq (a b : str) : str_eqb a b = true <-> a = b.
Proof.
  revert b; induction a as [|x a IH]; intros [|y b]; simpl; split;
    try congruence; try reflexivity.
  - rewrite andb_true_iff, N.eqb_eq, IH. intros [-> ->]; reflexivity.
  - intros H; injection H as -> ->. rewrite N.eqb_refl. apply IH; reflexivity.
Qed.

Lemma str_eqb_refl (a : str) : str_eqb a a = true.
Proof. apply str_eqb_eq; reflexivity. Qed.

Lemma in_set_In (x : str) (l : list str) : in_set x l = true <-> In x l.
Proof.
  unfold in_set. rewrite existsb_exists. split.
  - intros (y & Hy & E). apply str_eqb_eq in E. subst; assumption.
  - intros H. exists x. split; [assumption | apply str_eqb_refl].
Qed.

Lemma starts_with_app (a b : str) : starts_with a (a ++ b) = true.
Proof.
  induction a as [|c a IH]; cbn; [reflexivity|]. rewrite N.eqb_refl. exact IH.
Qed.

Lemma indexOf_none_cons (pat : str) (c : char) (s : str) :
  indexOf pat (c :: s) = None ->
  starts_with pat (c :: s) = false /\ indexOf pat s = None.
Proof.
  cbn [indexOf]. destruct (starts_with pat (c :: s)); [discriminate|].
  destruct (indexOf pat s); [discriminate|]. split; reflexivity.
Qed.

Lemma includes_head (pat s : str) :
  includes pat s = false -> starts_with pat s = false.
Proof.
  unfold includes. destruct s as [|c s].
  - cbn [indexOf]. destruct (starts_with pat []); [discriminate | reflexivity].
  - destruct (indexOf pat (c :: s)) eqn:E; [discriminate|]. intros _.
    apply (indexOf_none_cons pat c s E).
Qed.

Lemma includes_skipn (pat : str) (n : nat) :
  forall s, includes pat s = false -> includes pat (skipn n s) = false.
Proof.
  induction n as [|n IH]; intros s H; [exact H|].
  destruct s as [|c s]; [exact H|]. cbn [skipn]. apply IH.
  unfold includes in *. destruct (indexOf pat (c :: s)) eqn:E; [discriminate|].
  apply indexOf_none_cons in E as [_ ->]. reflexivity.
Qed.

Lemma run_pos (p : char -> bool) (c : char) (s : str) :
  p c = true -> (0 < run p (c :: s))%nat.
Proof. intros H; simpl; rewrite H; lia. Qed.

Lemma drop_while_head (p : char -> bool) (s : str) :
  match drop_while p s with
  | c :: _ => p c = false
  | [] => True
  end.
Proof.
  induction s as [|c s IH]; simpl; [exact I|].
  destruct (p c) eqn:E; [exact IH | exact E].
Qed.

Lemma drop_while_suffix (p : char -> bool) (s : str) :
  exists pre, s = pre ++ drop_while p s.
Proof.
  induction s as [|c s [pre IH]]; simpl.
  - exists []; reflexivity.
  - destruct (p c).
    + exists (c :: pre). simpl. rewrite <- IH. reflexivity.
    + exists []. reflexivity.
Qed.

(** ** The lexer terminates and never fails *)

Section LexerFacts.

Variable ops : str -> scan.
Hypothesis ops_advances : forall s, (0 < snd (ops s))%nat.

Lemma lex_plain_advances (c : char) (rest : str) :
  (0 < snd (lex_plain ops c rest (c :: rest)))%nat.
Proof.
  unfold lex_plain.
  destruct (is_digit c || (c =? 46) && next_sat is_digit rest) eqn:En.
  - unfold number; cbn [snd]. apply run_pos.
    unfold is_numchar.
    apply orb_true_iff in En as [En | En].
    + rewrite En; reflexivity.
    + apply andb_true_iff in En as [En _]. rewrite En.
      rewrite orb_true_r; reflexivity.
  - destruct (is_alpha c) eqn:Ea.
    + unfold word_token.
      assert (Hw : is_word c = true).
      { unfold is_alpha in Ea. unfold is_word.
        repeat (apply orb_true_iff in Ea as [Ea | Ea]); rewrite Ea;
          rewrite ?orb_true_r; reflexivity. }
      pose proof (run_pos is_word c rest Hw) as Hr.
      destruct (in_set _ KEYWORDS); cbn [snd]; exact Hr.
    + destruct (c =? 34).
      * unfold quoted_identifier; cbn [snd]. lia.
      * apply ops_advances.
Qed.

(** Each iteration strictly advances the scan position. *)
Lemma lex_at_advances (c : char) (rest : str) :
  (0 < snd (lex_at ops (c :: rest)))%nat.
Proof.
  unfold lex_at.
  destruct (is_space c); [cbn; lia|].
  destruct ((c =? 45) && next_is 45 rest); [unfold line_comment; cbn [snd]; lia|].
  destruct ((c =? 47) && next_is 42 rest); [unfold block_comment; cbn [snd]; lia|].
  destruct (c =? 39); [unfold quoted_string; cbn [snd]; lia|].
  destruct (c =? 36); [|apply lex_plain_advances].
  destruct (dollar_quoted (c :: rest)) as [r|] eqn:Ed; [|apply lex_plain_advances].
  unfold dollar_quoted in Ed.
  destruct (next_is 36 _); [|discriminate].
  destruct (indexOf _ _); [|discriminate].
  injection Ed as <-. cbn [snd length]. lia.
Qed.

(** With at least [length s] iterations the loop reaches the end of the
    input and returns the tokens. *)
Lemma lex_loop_enough (fuel : nat) :
  forall s, (length s <= fuel)%nat -> exists ts, lex_loop ops fuel s = Some ts.
Proof.
  induction fuel as [|fuel IH]; intros [|c rest] Hlen; simpl in Hlen.
  - exists []; reflexivity.
  - lia.
  - exists []; reflexivity.
  - cbn [lex_loop].
    pose proof (lex_at_advances c rest) as Hadv.
    destruct (lex_at ops (c :: rest)) as [t n]. cbn [snd] in Hadv.
    destruct (IH (skipn n (c :: rest))) as [ts Hts].
    { rewrite length_skipn. cbn [length]. lia. }
    rewrite Hts. eexists; reflexivity.
Qed.

Lemma lex_loop_more (fuel : nat) :
  forall s ts fuel',
    lex_loop ops fuel s = Some ts -> (fuel <= fuel')%nat ->
    lex_loop ops fuel' s = Some ts.
Proof.
  induction fuel as [|fuel IH]; intros [|c rest] ts fuel' H Hle.
  - destruct fuel'; exact H.
  - discriminate.
  - destruct fuel'; exact H.
  - destruct fuel' as [|fuel']; [lia|].
    cbn [lex_loop] in *.
    destruct (lex_at ops (c :: rest)) as [t n].
    destruct (lex_loop ops fuel (skipn n (c :: rest))) as [ts'|] eqn:E;
      [|discriminate].
    rewrite (IH _ _ fuel' E) by lia. exact H.
Qed.

Lemma tokenize_with_loop (s : str) :
  lex_loop ops (length s) s = Some (tokenize_with ops s).
Proof.
  unfold tokenize_with.
  destruct (lex_loop_enough (length s) s (le_n _)) as [ts ->]. reflexivity.
Qed.

(** The loop, unfolded once. *)
Lemma tokenize_with_cons (c : char) (rest : str) :
  tokenize_with ops (c :: rest) =
  match fst (lex_at ops (c :: rest)) with
  | Some t => t :: tokenize_with ops (skipn (snd (lex_at ops (c :: rest))) (c :: rest))
  | None => tokenize_with ops (skipn (snd (lex_at ops (c :: rest))) (c :: rest))
  end.
Proof.
  pose proof (tokenize_with_loop (c :: rest)) as H.
  cbn [length lex_loop] in H.
  pose proof (lex_at_advances c rest) as Hadv.
  destruct (lex_at ops (c :: rest)) as [t n]. cbn [fst snd] in *.
  pose proof (tokenize_with_loop (skipn n (c :: rest))) as H'.
  apply lex_loop_more with (fuel' := length rest) in H'.
  2:{ rewrite length_skipn. cbn [length]. lia. }
  rewrite H' in H. injection H as <-. reflexivity.
Qed.

End LexerFacts.

Lemma operators_advances (s : str) : (0 < snd (operators s))%nat.
Proof.
  unfold operators.
  destruct (in_set _ _); [cbn; lia|].
  destruct (str_eqb _ _); cbn; lia.
Qed.

Lemma operators_bundle_advances (s : str) : (0 < snd (operators_bundle s))%nat.
Proof.
  unfold operators_bundle.
  destruct (str_eqb _ _); [cbn; lia|].
  destruct (in_set _ _); cbn; lia.
Qed.




(** The same holds for the lexer of the browser bundle. *)
Lemma bundle_tokenize_total (s : str) (fuel : nat) :
  (length s <= fuel)%nat ->
  lex_loop operators_bundle fuel s = Some (Bundle.tokenize s).
Proof.
  intros H. apply lex_loop_more with (fuel := length s); [|exact H].
  apply tokenize_with_loop, operators_bundle_advances.
Qed.

(** ** The operator [->>] *)

(** C1.  The node module's lexer does not match operators longest first: at a
    scan position that starts [->>] it emits the two-character operator [->]
    and advances by two, so that [a->>b] lexes to [a], [->], [>], [b].  The
    test for [->>] comes after the test for the two-character operators and is
    never reached. *)
Theorem tokenize_arrow3_split :
  (forall rest,
     lex_at operators (js "->>" ++ rest) = (Some (tok Toperator (js "->")), 2%nat))
  /\ tokenize (js "a->>b")
     = [ tok Tidentifier (js "a"); tok Toperator (js "->");
         tok Tsymbol (js ">"); tok Tidentifier (js "b") ].
Proof. split; [intros rest|]; reflexivity. Qed.

(** X2.  The bundle's lexer tests [->>] first and emits it as one token. *)
Lemma bundle_tokenize_arrow3 :
  (forall rest,
     lex_at operators_bundle (js "->>" ++ rest)
     = (Some (tok Toperator (js "->>")), 3%nat))
  /\ Bundle.tokenize (js "a->>b")
     = [ tok Tidentifier (js "a"); tok Toperator (js "->>");
         tok Tidentifier (js "b") ].
Proof. split; [intros rest|]; reflexivity. Qed.

(** No operator token of the node module's lexer is longer than two
    characters. *)
Lemma operators_two_char (s : str) (t : token) (n : nat) :
  operators s = (Some t, n) -> type t = Toperator -> In (value t) TWO_CHAR.
Proof.
  unfold operators.
  destruct (in_set (firstn 2 s) TWO_CHAR) eqn:E2.
  - intros H _. injection H as <- _. apply in_set_In. exact E2.
  - destruct (str_eqb (firstn 3 s) (js "->>")) eqn:E3.
    + exfalso. apply str_eqb_eq in E3.
      destruct s as [|a [|b [|c s]]]; try discriminate.
      injection E3 as -> -> ->. discriminate.
    + intros H Ht. injection H as <- _. discriminate.
Qed.

Lemma dollar_quoted_type (s : str) (r : scan) :
  dollar_quoted s = Some r -> exists t, fst r = Some t /\ type t = Tstring.
Proof.
  unfold dollar_quoted. destruct (next_is 36 _); [|discriminate].
  destruct (indexOf _ _); [|discriminate].
  intros H. injection H as <-. eexists. split; reflexivity.
Qed.

Lemma lex_plain_operator (c : char) (rest : str) (t : token) (n : nat) :
  lex_plain operators c rest (c :: rest) = (Some t, n) ->
  type t = Toperator -> In (value t) TWO_CHAR.
Proof.
  unfold lex_plain, number, word_token, quoted_identifier.
  intros H Ht. revert H.
  repeat match goal with
         | |- context [if ?b then _ else _] => destruct b
         end;
    try (intros H; injection H as <- _; discriminate).
  intros H; exact (operators_two_char _ _ _ H Ht).
Qed.

Lemma lex_at_operator (s : str) (t : token) (n : nat) :
  lex_at operators s = (Some t, n) -> type t = Toperator -> In (value t) TWO_CHAR.
Proof.
  unfold lex_at, line_comment, block_comment, quoted_string.
  destruct s as [|c rest]; [discriminate|].
  intros H Ht. revert H.
  destruct (is_space c); [discriminate|].
  destruct (_ && _); [intros H; injection H as <- _; discriminate|].
  destruct (_ && _); [intros H; injection H as <- _; discriminate|].
  destruct (c =? 39); [intros H; injection H as <- _; discriminate|].
  destruct (c =? 36); [|intros H; exact (lex_plain_operator _ _ _ _ H Ht)].
  destruct (dollar_quoted (c :: rest)) as [r|] eqn:Ed;
    [|intros H; exact (lex_plain_operator _ _ _ _ H Ht)].
  intros ->. apply dollar_quoted_type in Ed as (t' & E & Ht').
  cbn [fst] in E. injection E as <-. congruence.
Qed.

(** X1.  Whatever the input, no operator token of the node module's lexer is
    [->>]: every operator token is one of the eight two-character operators. *)
Lemma tokenize_operators (s : str) (t : token) :
  In t (tokenize s) -> type t = Toperator -> In (value t) TWO_CHAR.
Proof.
  assert (H : forall n s, (length s <= n)%nat ->
              In t (tokenize s) -> type t = Toperator -> In (value t) TWO_CHAR).
  { clear s. induction n as [|n IH]; intros [|c rest] Hlen; cbn [length] in Hlen;
      try (intros []; fail); try lia.
    unfold tokenize. rewrite (tokenize_with_cons _ operators_advances).
    pose proof (lex_at_advances _ operators_advances c rest) as Hadv.
    pose proof (lex_at_operator (c :: rest)) as Hop.
    destruct (lex_at operators (c :: rest)) as [[t'|] k]; cbn [fst snd] in *.
    - intros [<- | Hin] Ht; [exact (Hop _ _ eq_refl Ht)|].
      apply (IH (skipn k (c :: rest))); [|exact Hin | exact Ht].
      rewrite length_skipn. cbn [length]. lia.
    - apply IH. rewrite length_skipn. cbn [length]. lia. }
  apply (H (length s)). lia.
Qed.

Lemma tokenize_operators_witness :
  In (js "->") TWO_CHAR.
Proof.
  exact (tokenize_operators (js "a->>b") (tok Toperator (js "->"))
           (or_intror (or_introl eq_refl)) eq_refl).
Defined.

(** ** The end of the formatted text *)

Lemma trim_last (s b : str) (c : char) :
  trim s = b ++ [c] -> is_space c = false.
Proof.
  unfold trim, trimEnd. intros H.
  pose proof (drop_while_head is_space (rev s)) as Hh.
  destruct (drop_while is_space (rev s)) as [|x u].
  - destruct b; discriminate.
  - destruct (drop_while_suffix is_space (rev (x :: u))) as [pre Hp].
    rewrite H in Hp. cbn [rev] in Hp. rewrite app_assoc in Hp.
    apply app_inj_tail in Hp as [_ ->]. exact Hh.
Qed.

(** C7.  For every input the formatted text is a body followed by one
    newline, and the body does not end in white space (so not in a newline
    either): it is empty or ends in a character that is not white space. *)
Theorem format_trailing_newline (sql : str) :
  exists body,
    format sql = body ++ [10]
    /\ (body = [] \/ exists b c, body = b ++ [c] /\ is_space c = false).
Proof.
  unfold format, finish.
  exists (trim (out (fmt_loop format_step init_state (tokenize sql)))).
  split; [reflexivity|].
  destruct (trim _) as [|x l] eqn:E using rev_ind; [left; reflexivity|].
  right. exists l, x. split; [reflexivity|].
  eapply trim_last; exact E.
Qed.

(** ** The formatter's counters *)

Lemma space_fields (st : fstate) :
  indent (space st) = indent st /\ parenDepth (space st) = parenDepth st
  /\ prevToken (space st) = prevToken st.
Proof. unfold space. destruct (_ && _); repeat split; reflexivity. Qed.

Lemma close_depth_fields (st : fstate) :
  indent (close_depth st) = indent st
  /\ out (close_depth st) = out st
  /\ prevToken (close_depth st) = prevToken st
  /\ parenDepth (close_depth st)
     = (if (parenDepth st >? 0)%Z then parenDepth st - 1 else parenDepth st)%Z.
Proof.
  unfold close_depth. destruct (parenDepth st >? 0)%Z; repeat split; reflexivity.
Qed.

Lemma close_depth_nonneg (st : fstate) : nonneg st -> nonneg (close_depth st).
Proof.
  unfold nonneg. destruct (close_depth_fields st) as (-> & _ & _ & ->).
  destruct (Z.gtb_spec (parenDepth st) 0); lia.
Qed.

Ltac break_step :=
  repeat match goal with
         | |- context [if ?b then _ else _] => destruct b
         | |- context [match ?x with Some _ => _ | None => _ end] => destruct x
         end.

Lemma on_open_nonneg t next st : nonneg st -> nonneg (on_open t next st).
Proof.
  unfold nonneg, on_open. intros [Hi Hp].
  destruct (space_fields st) as (Ei & Ep & _).
  break_step; cbn; rewrite ?Ei, ?Ep; lia.
Qed.

Lemma on_close_nonneg t st : nonneg st -> nonneg (on_close t st).
Proof.
  intros H. apply close_depth_nonneg in H. revert H.
  unfold nonneg, on_close. generalize (close_depth st) as st1. intros st1 [Hi Hp].
  break_step; cbn; lia.
Qed.

Lemma on_close_bundle_nonneg t st : nonneg st -> nonneg (on_close_bundle t st).
Proof. intros H. apply close_depth_nonneg in H. exact H. Qed.

Lemma on_compound_nonneg p st : nonneg st -> nonneg (on_compound p st).
Proof.
  unfold nonneg, on_compound. intros [Hi Hp].
  destruct (space_fields st) as (Ei & Ep & _).
  break_step; cbn; rewrite ?Ei, ?Ep; lia.
Qed.

Lemma on_keyword_nonneg t st : nonneg st -> nonneg (on_keyword t st).
Proof.
  unfold nonneg, on_keyword. intros [Hi Hp].
  destruct (space_fields st) as (Ei & Ep & _).
  break_step; cbn; rewrite ?Ei, ?Ep; lia.
Qed.

Lemma on_keyword_bundle_nonneg t st : nonneg st -> nonneg (on_keyword_bundle t st).
Proof.
  unfold nonneg, on_keyword_bundle. intros [Hi Hp].
  destruct (space_fields st) as (Ei & Ep & _).
  break_step; cbn; rewrite ?Ei, ?Ep; lia.
Qed.

Lemma on_default_nonneg t st : nonneg st -> nonneg (on_default t st).
Proof.
  unfold nonneg, on_default. intros [Hi Hp].
  destruct (space_fields st) as (Ei & Ep & _).
  break_step; cbn; rewrite ?Ei, ?Ep; lia.
Qed.

Section StepInvariant.

Variable close keyword : token -> fstate -> fstate.
Hypothesis close_nonneg : forall t st, nonneg st -> nonneg (close t st).
Hypothesis keyword_nonneg : forall t st, nonneg st -> nonneg (keyword t st).

Lemma step_with_nonneg st t next :
  nonneg st -> nonneg (fst (step_with close keyword st t next)).
Proof.
  intros H. unfold step_with.
  destruct (is_type Tcomment t); [exact H|].
  destruct (is_sym "(" t); [apply on_open_nonneg, H|].
  destruct (is_sym ")" t); [apply close_nonneg, H|].
  destruct (is_sym "," t).
  { destruct H as [Hi Hp]. unfold nonneg, on_comma. cbn [fst].
    break_step; cbn; lia. }
  destruct (is_sym ";" t).
  { destruct H as [Hi Hp]. unfold nonneg, on_semicolon. cbn. lia. }
  destruct (compound_of t next); [apply on_compound_nonneg, H|].
  destruct (is_type Tkeyword t);
    [apply keyword_nonneg, H | apply on_default_nonneg, H].
Qed.

End StepInvariant.

Lemma last_cons_default {A : Type} (l : list A) (a d : A) :
  last (a :: l) d = last l a.
Proof.
  revert a d. induction l as [|x l IH]; intros a d; [reflexivity|].
  change (last (a :: x :: l) d) with (last (x :: l) d).
  rewrite (IH x d), (IH x a). reflexivity.
Qed.

Section LoopInvariant.

Variable step : fstate -> token -> option token -> fstate * bool.
Variable P : fstate -> Prop.
Hypothesis step_keeps : forall st t next, P st -> P (fst (step st t next)).

(** The loop sometimes moves by two tokens, hence the induction on a bound
    of the number of tokens left. *)
Lemma fmt_trace_keeps (n : nat) :
  forall toks st, (length toks <= n)%nat -> P st ->
                  Forall P (fmt_trace step st toks).
Proof.
  induction n as [|n IH]; intros [|t rest] st Hlen HP; cbn [length] in Hlen;
    try (constructor; fail); try lia.
  cbn [fmt_trace].
  pose proof (step_keeps st t (hd_error rest) HP) as Hs.
  destruct (step st t (hd_error rest)) as [st' skip]. cbn [fst] in Hs.
  constructor; [exact Hs|].
  destruct skip.
  - destruct rest as [|t' rest']; [constructor|].
    apply IH; [cbn [length] in Hlen; lia | exact Hs].
  - apply IH; [lia | exact Hs].
Qed.

Lemma fmt_loop_last :
  forall toks st, fmt_loop step st toks = last (fmt_trace step st toks) st.
Proof.
  assert (H : forall n toks st, (length toks <= n)%nat ->
              fmt_loop step st toks = last (fmt_trace step st toks) st).
  { induction n as [|n IH]; intros [|t rest] st Hlen; cbn [length] in Hlen;
      try reflexivity; try lia.
    cbn [fmt_loop fmt_trace].
    destruct (step st t (hd_error rest)) as [st' skip].
    rewrite last_cons_default.
    destruct skip.
    - destruct rest as [|t' rest']; [reflexivity|].
      apply IH. cbn [length] in Hlen; lia.
    - apply IH. lia. }
  intros toks st. apply (H (length toks)). lia.
Qed.

End LoopInvariant.

(** C8.  In every call of [format], at the start of the loop and at the end
    of every iteration, the indent level and the paren depth are not
    negative; the loop's final state, from which the text is taken, is the
    last of these states. *)
Theorem format_state_nonnegative (sql : str) :
  Forall nonneg (init_state :: fmt_trace format_step init_state (tokenize sql))
  /\ fmt_loop format_step init_state (tokenize sql)
     = last (fmt_trace format_step init_state (tokenize sql)) init_state.
Proof.
  assert (H0 : nonneg init_state) by (unfold nonneg; cbn; lia).
  split; [|apply fmt_loop_last].
  constructor; [exact H0|].
  apply fmt_trace_keeps with (n := length (tokenize sql)); [|lia|exact H0].
  intros st t next. apply step_with_nonneg.
  - apply on_close_nonneg.
  - apply on_keyword_nonneg.
Qed.

(** X3.  In the bundle's [formatSQL] too, the indent level and the paren
    depth are not negative at the start of the loop and after every
    iteration. *)
Lemma formatSQL_state_nonnegative (sql : str) :
  Forall nonneg
    (init_state :: fmt_trace formatSQL_step init_state (Bundle.tokenize sql)).
Proof.
  assert (H0 : nonneg init_state) by (unfold nonneg; cbn; lia).
  constructor; [exact H0|].
  apply fmt_trace_keeps with (n := length (Bundle.tokenize sql)); [|lia|exact H0].
  intros st t next. apply step_with_nonneg.
  - apply on_close_bundle_nonneg.
  - apply on_keyword_bundle_nonneg.
Qed.

(** ** The closing parenthesis *)

Lemma is_sym_inv (v : string) (t : token) :
  is_sym v t = true -> type t = Tsymbol /\ value t = js v.
Proof.
  unfold is_sym, is_type. rewrite andb_true_iff, str_eqb_eq.
  intros [H ->]. split; [|reflexivity]. destruct (type t); try discriminate.
  reflexivity.
Qed.

Lemma after_limit_close_depth (st : fstate) :
  after_limit (close_depth st) = after_limit st.
Proof.
  unfold after_limit, prev_is.
  destruct (close_depth_fields st) as (_ & _ & -> & _). reflexivity.
Qed.

(** C4, as the node module has it.  On a [)] token the formatter decrements
    the paren depth when it is positive and takes no second token.  When the
    previous token is the keyword [LIMIT], [OFFSET], [ASC] or [DESC] it also
    lowers the indent by one (not below zero) and starts a new line at that
    indent before the [)]; after any other token the indent is unchanged and
    [)] is appended to the output as it stands. *)
Theorem close_paren_step (st : fstate) (t : token) (next : option token) :
  is_sym ")" t = true ->
  let st' := fst (format_step st t next) in
  snd (format_step st t next) = false
  /\ parenDepth st'
     = (if (parenDepth st >? 0)%Z then parenDepth st - 1 else parenDepth st)%Z
  /\ (after_limit st = true ->
      indent st' = Z.max 0 (indent st - 1)
      /\ out st' = trimEnd (out st) ++ [10]
                   ++ indent_str (Z.max 0 (indent st - 1)) ++ js ")")
  /\ (after_limit st = false ->
      indent st' = indent st /\ out st' = out st ++ js ")").
Proof.
  intros H. apply is_sym_inv in H as [Hty Hv].
  assert (E : format_step st t next = (on_close t st, false)).
  { unfold format_step, step_with, is_sym, is_type. rewrite Hty, Hv. reflexivity. }
  rewrite E. cbn [fst snd]. clear E.
  unfold on_close. rewrite after_limit_close_depth.
  destruct (close_depth_fields st) as (Ei & Eo & _ & Ep).
  split; [reflexivity|]. split.
  { destruct (after_limit st); cbn; exact Ep. }
  split; intros ->; cbn; rewrite Ei, Eo; split; try reflexivity.
  rewrite <- !app_assoc. reflexivity.
Qed.

Lemma close_paren_step_witness :
  let st := fmt_loop format_step init_state
              (tokenize (js "select count(x")) in
  out (fst (format_step st (tok Tsymbol (js ")")) None))
  = out st ++ js ")".
Proof.
  exact (proj2 (proj2 (proj2 (proj2
           (close_paren_step
              (fmt_loop format_step init_state (tokenize (js "select count(x")))
              (tok Tsymbol (js ")")) None eq_refl))) eq_refl)).
Defined.

(** In the node module a [)] that follows [DESC] changes the indent from 1
    to 0 and is put on a line of its own. *)
Lemma close_paren_reindents :
  let st := fmt_loop format_step init_state
              (tokenize (js "select * from (select a from t order by a desc")) in
  let st' := fst (format_step st (tok Tsymbol (js ")")) None) in
  indent st = 1%Z /\ indent st' = 0%Z
  /\ out st' = out st ++ [10] ++ js ")"
  /\ format (js "select * from (select a from t order by a desc) s")
     = js "SELECT *" ++ [10] ++ js "FROM(" ++ [10]
       ++ js "  SELECT a FROM t ORDER BY a DESC" ++ [10] ++ js ") s" ++ [10].
Proof. vm_compute. repeat split; reflexivity. Qed.

(** ** Formatting twice *)

(** Formatting twice does not give the formatted text when that text lexes
    differently: [0 ->] is printed as [0->], which lexes as the number [0-]
    and the symbol [>]. *)
Lemma format_not_idempotent :
  let x := js "SELECT j -> 0 -> 'a' FROM t" in
  format x = js "SELECT j-> 0-> 'a'" ++ [10] ++ js "FROM t" ++ [10]
  /\ format (format x) = js "SELECT j-> 0- > 'a'" ++ [10] ++ js "FROM t" ++ [10]
  /\ str_eqb (format (format x)) (format x) = false
  /\ printable (tokenize x) = false.
Proof. vm_compute. repeat split; reflexivity. Qed.

Lemma canon_type (t : token) : type (canon t) = type t.
Proof. unfold canon, is_type. destruct t as [[] v o]; reflexivity. Qed.

Lemma canon_value (t : token) : value (canon t) = value t.
Proof. unfold canon, is_type. destruct t as [[] v o]; reflexivity. Qed.

Lemma canon_is_type ty t : is_type ty (canon t) = is_type ty t.
Proof. unfold is_type. rewrite canon_type. reflexivity. Qed.

Lemma canon_is_kw v t : is_kw v (canon t) = is_kw v t.
Proof. unfold is_kw. rewrite canon_is_type, canon_value. reflexivity. Qed.

Lemma canon_is_sym v t : is_sym v (canon t) = is_sym v t.
Proof. unfold is_sym. rewrite canon_is_type, canon_value. reflexivity. Qed.

Lemma canon_not_keyword t : is_type Tkeyword t = false -> canon t = t.
Proof. unfold canon. intros ->. reflexivity. Qed.

Lemma canon_prev_is (p : token -> bool) (st : fstate) :
  (forall t, p (canon t) = p t) ->
  prev_is p (canon_state st) = prev_is p st.
Proof.
  intros H. unfold prev_is, canon_state. cbn.
  destruct (prevToken st); [apply H | reflexivity].
Qed.

Lemma canon_compound_of t next :
  compound_of (canon t) (option_map canon next) = compound_of t next.
Proof.
  unfold compound_of. destruct next as [n|]; [|reflexivity]. cbn.
  rewrite !canon_is_type, !canon_value. reflexivity.
Qed.

Lemma canon_newline st : newline (canon_state st) = canon_state (newline st).
Proof. reflexivity. Qed.

Lemma canon_emit v st : emit v (canon_state st) = canon_state (emit v st).
Proof. reflexivity. Qed.

Lemma canon_space st : space (canon_state st) = canon_state (space st).
Proof. unfold space. cbn. destruct (_ && _); reflexivity. Qed.

Lemma canon_set_prevToken t st :
  set_prevToken (canon t) (canon_state st) = canon_state (set_prevToken t st).
Proof. reflexivity. Qed.

Lemma canon_set_lineStart b st :
  set_lineStart b (canon_state st) = canon_state (set_lineStart b st).
Proof. reflexivity. Qed.

Lemma canon_set_indent n st :
  set_indent n (canon_state st) = canon_state (set_indent n st).
Proof. reflexivity. Qed.

Lemma canon_set_parenDepth n st :
  set_parenDepth n (canon_state st) = canon_state (set_parenDepth n st).
Proof. reflexivity. Qed.

Lemma canon_set_out o st :
  set_out o (canon_state st) = canon_state (set_out o st).
Proof. reflexivity. Qed.

Lemma canon_close_depth st :
  close_depth (canon_state st) = canon_state (close_depth st).
Proof. unfold close_depth. cbn. destruct (_ >? _)%Z; reflexivity. Qed.

Lemma canon_after_limit st : after_limit (canon_state st) = after_limit st.
Proof.
  apply canon_prev_is. intros t. unfold is_limit_kw.
  rewrite canon_is_type, canon_value. reflexivity.
Qed.

Create Rewrite HintDb canon.
#[local] Hint Rewrite canon_type canon_value canon_is_type canon_is_kw
  canon_is_sym canon_compound_of canon_newline canon_emit canon_space
  canon_set_prevToken canon_set_lineStart canon_set_indent
  canon_set_parenDepth canon_set_out canon_close_depth canon_after_limit
  : canon.

Lemma canon_on_comment t st :
  on_comment (canon t) (canon_state st) = canon_state (on_comment t st).
Proof. unfold on_comment. autorewrite with canon. reflexivity. Qed.

Lemma canon_on_open t next st :
  on_open (canon t) (option_map canon next) (canon_state st)
  = canon_state (on_open t next st).
Proof.
  unfold on_open.
  rewrite canon_prev_is
    by (intros x; rewrite !canon_is_type; reflexivity).
  destruct (prev_is _ st); destruct next as [n|]; cbn [option_map];
    autorewrite with canon; try reflexivity;
    destruct (is_kw "SELECT" n); autorewrite with canon; reflexivity.
Qed.

Lemma canon_on_close t st :
  on_close (canon t) (canon_state st) = canon_state (on_close t st).
Proof.
  unfold on_close. autorewrite with canon.
  destruct (after_limit (close_depth st)); autorewrite with canon; reflexivity.
Qed.

Lemma canon_on_comma t st :
  on_comma (canon t) (canon_state st) = canon_state (on_comma t st).
Proof.
  unfold on_comma. autorewrite with canon. cbn [parenDepth canon_state].
  destruct (_ =? _)%Z; autorewrite with canon; reflexivity.
Qed.

Lemma canon_on_semicolon t st :
  on_semicolon (canon t) (canon_state st) = canon_state (on_semicolon t st).
Proof. unfold on_semicolon. autorewrite with canon. reflexivity. Qed.

Lemma canon_on_compound p st :
  on_compound p (canon_state st) = canon_state (on_compound p st).
Proof.
  unfold on_compound. cbn [parenDepth canon_state].
  destruct (_ =? _)%Z; [destruct (in_set p _)|]; autorewrite with canon;
    reflexivity.
Qed.

Lemma canon_on_keyword t st :
  on_keyword (canon t) (canon_state st) = canon_state (on_keyword t st).
Proof.
  unfold on_keyword. autorewrite with canon. cbn [parenDepth canon_state].
  rewrite canon_prev_is by (intros x; apply canon_is_kw).
  repeat match goal with
         | |- context [if ?b then _ else _] => destruct b
         end; autorewrite with canon; reflexivity.
Qed.

Lemma canon_on_default t st :
  is_type Tkeyword t = false ->
  on_default (canon t) (canon_state st) = canon_state (on_default t st).
Proof.
  intros Hk. unfold on_default. autorewrite with canon.
  rewrite canon_prev_is by (intros x; apply canon_is_sym).
  replace (text_of (canon t)) with (text_of t)
    by (rewrite (canon_not_keyword t Hk); reflexivity).
  cbn [out canon_state].
  repeat match goal with
         | |- context [if ?b then _ else _] => destruct b
         end; autorewrite with canon; reflexivity.
Qed.

Lemma canon_format_step st t next :
  format_step (canon_state st) (canon t) (option_map canon next)
  = (canon_state (fst (format_step st t next)), snd (format_step st t next)).
Proof.
  unfold format_step, step_with. autorewrite with canon.
  destruct (is_type Tcomment t); [rewrite canon_on_comment; reflexivity|].
  destruct (is_sym "(" t); [rewrite canon_on_open; reflexivity|].
  destruct (is_sym ")" t); [rewrite canon_on_close; reflexivity|].
  destruct (is_sym "," t); [rewrite canon_on_comma; reflexivity|].
  destruct (is_sym ";" t); [rewrite canon_on_semicolon; reflexivity|].
  destruct (compound_of t next); [rewrite canon_on_compound; reflexivity|].
  destruct (is_type Tkeyword t) eqn:Hk;
    [rewrite canon_on_keyword | rewrite (canon_on_default t st Hk)]; reflexivity.
Qed.

Lemma canon_fmt_loop (toks : list token) (st : fstate) :
  fmt_loop format_step (canon_state st) (map canon toks)
  = canon_state (fmt_loop format_step st toks).
Proof.
  assert (H : forall n toks st, (length toks <= n)%nat ->
              fmt_loop format_step (canon_state st) (map canon toks)
              = canon_state (fmt_loop format_step st toks)).
  { clear. induction n as [|n IH]; intros [|t rest] st Hlen;
      cbn [length] in Hlen; try reflexivity; try lia.
    cbn [fmt_loop map].
    replace (hd_error (map canon rest)) with (option_map canon (hd_error rest))
      by (destruct rest; reflexivity).
    rewrite canon_format_step.
    destruct (format_step st t (hd_error rest)) as [st' skip]. cbn [fst snd].
    destruct skip.
    - destruct rest as [|t' rest']; [reflexivity|].
      cbn [map]. apply IH. cbn [length] in Hlen. lia.
    - apply IH. lia. }
  apply (H (length toks)). lia.
Qed.

(** The formatted text depends on the tokens up to the spelling of keywords. *)
Lemma format_of_tokens (x y : str) :
  map canon (tokenize x) = map canon (tokenize y) -> format x = format y.
Proof.
  intros H. unfold format, finish. do 2 f_equal.
  change (out (canon_state (fmt_loop format_step init_state (tokenize x)))
          = out (canon_state (fmt_loop format_step init_state (tokenize y)))).
  rewrite <- !canon_fmt_loop, H. reflexivity.
Qed.

(** ** The analyzer: findings of each rule *)

Lemma select_star_In (toks : list token) (f : finding) :
  In f (select_star toks) -> f = select_star_finding.
Proof.
  induction toks as [|t rest IH]; cbn [select_star]; [intros []|].
  destruct rest as [|d rest']; [intros []|].
  rewrite in_app_iff. intros [H | H]; [|exact (IH H)].
  destruct (is_kw "SELECT" t); [|destruct H].
  destruct (if is_kw "DISTINCT" d then rest' else d :: rest') as [|x ?];
    [destruct H|].
  destruct (is_sym "*" x); [|destruct H].
  destruct H as [<- | []]. reflexivity.
Qed.

Lemma without_where_In kw g (toks : list token) (f : finding) :
  In f (without_where kw g toks) -> f = g.
Proof.
  induction toks as [|t rest IH]; cbn [without_where]; [intros []|].
  rewrite in_app_iff. intros [H | H]; [|exact (IH H)].
  destruct (_ && _); [|destruct H]. destruct H as [<- | []]. reflexivity.
Qed.

Lemma when_In (b : bool) (g f : finding) : In f (when b g) -> f = g /\ b = true.
Proof. destruct b; [intros [<- | []]; split; reflexivity | intros []]. Qed.

Lemma filter_none {A : Type} (p : A -> bool) (l : list A) :
  (forall x, In x l -> p x = false) -> filter p l = [].
Proof.
  induction l as [|x l IH]; intros H; [reflexivity|]. cbn.
  rewrite (H x (or_introl eq_refl)). apply IH. intros y Hy. apply H. right; exact Hy.
Qed.

Lemma filter_all {A : Type} (p : A -> bool) (l : list A) :
  (forall x, In x l -> p x = true) -> filter p l = l.
Proof.
  induction l as [|x l IH]; intros H; [reflexivity|]. cbn.
  rewrite (H x (or_introl eq_refl)). f_equal. apply IH. intros y Hy. apply H.
  right; exact Hy.
Qed.

Lemma filter_when (p : finding -> bool) (b : bool) (g : finding) :
  p g = false -> filter p (when b g) = [].
Proof. intros H. destruct b; cbn; [rewrite H|]; reflexivity. Qed.

(** *** [UPDATE] and [DELETE] without [WHERE] *)

(** What the inner loop decides. *)
Lemma hasWhere_spec (toks : list token) :
  hasWhere toks = true <-> where_before_semicolon toks.
Proof.
  unfold where_before_semicolon.
  induction toks as [|a toks IH]; cbn [hasWhere].
  - split; [discriminate|]. intros (pre & t & post & E & _).
    destruct pre; discriminate.
  - destruct (is_sym ";" a) eqn:Es.
    + split; [discriminate|]. intros (pre & t & post & E & Hw & Hpre).
      destruct pre as [|x pre]; injection E as <- E.
      * unfold is_sym, is_kw, is_type in *. destruct (type a); discriminate.
      * rewrite (Hpre a (or_introl eq_refl)) in Es. discriminate.
    + destruct (is_kw "WHERE" a) eqn:Ew.
      * split; [|reflexivity]. intros _. exists [], a, toks.
        repeat split; [exact Ew | intros x []].
      * rewrite IH. split.
        -- intros (pre & t & post & -> & Hw & Hpre).
           exists (a :: pre), t, post. repeat split; [exact Hw|].
           intros x [<- | Hx]; [exact Es | exact (Hpre x Hx)].
        -- intros (pre & t & post & E & Hw & Hpre).
           destruct pre as [|x pre]; injection E as <- E.
           ++ rewrite Hw in Ew. discriminate.
           ++ exists pre, t, post. repeat split; [exact E | exact Hw|].
              intros y Hy. apply Hpre. right; exact Hy.
Qed.

Lemma without_where_offenders kw g (toks : list token) :
  without_where kw g toks = repeat g (length (offenders kw toks)).
Proof.
  unfold offenders. induction toks as [|t rest IH]; [reflexivity|].
  cbn [without_where length seq]. rewrite <- seq_shift. cbn [filter].
  rewrite filter_map_swap.
  change (offending kw (t :: rest) 0)
    with (is_kw kw t && negb (hasWhere rest)).
  rewrite IH.
  destruct (is_kw kw t && negb (hasWhere rest)); cbn [length];
    rewrite length_map; reflexivity.
Qed.

(** The findings of level [error] of [analyze]. *)
Lemma analyze_errors (upper : str -> str) (sql : str) :
  filter is_error (analyze_with upper sql)
  = without_where "UPDATE" update_finding (tokenize sql)
    ++ without_where "DELETE" delete_finding (tokenize sql).
Proof.
  unfold analyze_with. rewrite !filter_app.
  rewrite (filter_none is_error (select_star _)).
  2:{ intros f Hf. apply select_star_In in Hf. subst. reflexivity. }
  rewrite !(filter_all is_error (without_where _ _ _)).
  2,3: intros f Hf; apply without_where_In in Hf; subst; reflexivity.
  rewrite !filter_when by reflexivity.
  replace (filter is_error match offset_match sql with
                           | Some d => when (1000 <? parseInt d) (offset_finding d)
                           | None => []
                           end) with (@nil finding).
  2:{ destruct (offset_match sql); [rewrite filter_when|]; reflexivity. }
  cbn [app]. rewrite app_nil_r. reflexivity.
Qed.

Lemma offenders_spec (kw : string) (toks : list token) (i : nat) :
  In i (offenders kw toks) <->
  exists t, nth_error toks i = Some t /\ is_kw kw t = true
            /\ ~ where_before_semicolon (skipn (S i) toks).
Proof.
  unfold offenders, offending. rewrite filter_In, in_seq.
  destruct (nth_error toks i) as [t|] eqn:E.
  - rewrite andb_true_iff, negb_true_iff, <- not_true_iff_false, hasWhere_spec.
    split.
    + intros [_ [Hk Hn]]. exists t. repeat split; assumption.
    + intros (t' & E' & Hk & Hn). injection E' as <-.
      split; [|split; assumption].
      assert (i < length toks)%nat by (apply nth_error_Some; congruence). lia.
  - split; [intros [_ H]; discriminate | intros (t & E' & _); discriminate].
Qed.

(** C2, as the code has it.  The analyzer knows tokens, not statements: every
    [UPDATE] keyword token, and every [DELETE] keyword token, that has no
    [WHERE] keyword token between it and the next [;] token (or the end of the
    input) yields exactly one finding of level [error], whose message starts
    with the keyword; these are all the findings of level [error], those for
    [UPDATE] first. *)
Theorem analyze_without_where (upper : str -> str) (sql : str) :
  filter is_error (analyze_with upper sql)
  = repeat update_finding (length (offenders "UPDATE" (tokenize sql)))
    ++ repeat delete_finding (length (offenders "DELETE" (tokenize sql)))
  /\ (forall kw i,
        In i (offenders kw (tokenize sql)) <->
        exists t, nth_error (tokenize sql) i = Some t /\ is_kw kw t = true
                  /\ ~ where_before_semicolon (skipn (S i) (tokenize sql)))
  /\ level update_finding = error /\ level delete_finding = error
  /\ starts_with (js "UPDATE") (message update_finding) = true
  /\ starts_with (js "DELETE") (message delete_finding) = true.
Proof.
  split; [|split; [intros kw i; apply offenders_spec | repeat split]].
  rewrite analyze_errors, !without_where_offenders. reflexivity.
Qed.

(** One [UPDATE] statement without [WHERE], up to the end of the input, that
    holds the keyword [UPDATE] twice gets two findings of level [error]. *)
Lemma analyze_update_twice :
  let x := js "UPDATE t SET a = 1 FROM (SELECT id FROM u FOR UPDATE) s" in
  existsb (is_sym ";") (tokenize x) = false
  /\ existsb (is_kw "WHERE") (tokenize x) = false
  /\ option_map (is_kw "UPDATE") (hd_error (tokenize x)) = Some true
  /\ filter is_error (analyze x) = [update_finding; update_finding].
Proof. vm_compute. repeat split; reflexivity. Qed.

(** *** Large [OFFSET] *)

Lemma match_ci_spec (pat s r : str) :
  match_ci pat s = Some r <-> exists kw, s = kw ++ r /\ toUpperCase kw = pat.
Proof.
  revert s. induction pat as [|p pat IH]; intros s; cbn [match_ci].
  - split.
    + intros H. injection H as <-. exists []. split; reflexivity.
    + intros (kw & -> & E). destruct kw; [reflexivity | discriminate].
  - destruct s as [|c s].
    + split; [discriminate|]. intros (kw & E & E').
      destruct kw; [discriminate E' | discriminate E].
    + destruct (upper_char c =? p) eqn:Ec.
      * apply N.eqb_eq in Ec. rewrite IH. split.
        -- intros (kw & -> & <-). exists (c :: kw). split; [reflexivity|].
           cbn. rewrite Ec. reflexivity.
        -- intros (kw & E & E'). destruct kw as [|x kw]; [discriminate E'|].
           injection E as <- ->. injection E' as _ E'.
           exists kw. split; [reflexivity | exact E'].
      * split; [discriminate|]. intros (kw & E & E').
        destruct kw as [|x kw]; [discriminate E'|].
        injection E as <- _. injection E' as E' _.
        apply N.eqb_neq in Ec. congruence.
Qed.

Lemma run_split (p : char -> bool) (s : str) :
  s = firstn (run p s) s ++ drop_while p s
  /\ forallb p (firstn (run p s) s) = true
  /\ skipn (run p s) s = drop_while p s.
Proof.
  induction s as [|c s (IH1 & IH2 & IH3)]; cbn [run drop_while];
    [repeat split|].
  destruct (p c) eqn:E; [|repeat split].
  cbn [firstn skipn forallb app]. rewrite E, IH2, IH3, <- IH1. repeat split.
Qed.

Lemma run_app (p : char -> bool) (a b : str) :
  forallb p a = true -> next_sat p b = false ->
  run p (a ++ b) = length a /\ drop_while p (a ++ b) = b.
Proof.
  intros Ha Hb. induction a as [|c a IH]; cbn [app length].
  - destruct b as [|x b]; [split; reflexivity|].
    cbn [next_sat] in Hb. cbn [run drop_while]. rewrite Hb.
    split; reflexivity.
  - cbn [forallb] in Ha. apply andb_true_iff in Ha as [Hc Ha].
    cbn [run drop_while]. rewrite Hc.
    destruct (IH Ha) as [-> ->]. split; reflexivity.
Qed.

Lemma digit_not_space (c : char) : is_digit c = true -> is_space c = false.
Proof.
  unfold is_digit, between. intros H. apply andb_true_iff in H as [H1 H2].
  apply N.leb_le in H1. apply N.leb_le in H2.
  unfold is_space. cbn [existsb]. unfold between.
  repeat match goal with
         | |- context [c =? ?k] =>
             replace (c =? k) with false by (symmetry; apply N.eqb_neq; lia)
         end.
  replace (8192 <=? c) with false by (symmetry; apply N.leb_gt; lia).
  reflexivity.
Qed.

(** The scan at the head of a suffix decides the pattern there. *)
Lemma offset_here_spec (s d : str) : offset_here s = Some d <-> offset_at s d.
Proof.
  unfold offset_here, offset_at. split.
  - destruct (match_ci (js "OFFSET") s) as [r|] eqn:Em; [|discriminate].
    apply match_ci_spec in Em as (kw & -> & Ekw).
    destruct (0 <? run is_space r)%nat eqn:E1; [|discriminate].
    destruct (0 <? run is_digit (drop_while is_space r))%nat eqn:E2;
      [|discriminate].
    cbn [andb]. intros H. injection H as <-.
    destruct (run_split is_space r) as (S1 & S2 & _).
    destruct (run_split is_digit (drop_while is_space r)) as (D1 & D2 & D3).
    apply Nat.ltb_lt in E1. apply Nat.ltb_lt in E2.
    exists kw, (firstn (run is_space r) r),
      (drop_while is_digit (drop_while is_space r)).
    repeat split.
    + rewrite <- D1, <- S1. reflexivity.
    + exact Ekw.
    + destruct r; [cbn in E1; lia|]. cbn in E1 |- *.
      destruct (is_space c); [discriminate | lia].
    + exact S2.
    + destruct (drop_while is_space r) as [|c x]; [cbn in E2; lia|].
      cbn in E2 |- *. destruct (is_digit c); [discriminate | lia].
    + exact D2.
    + pose proof (drop_while_head is_digit (drop_while is_space r)) as Hh.
      destruct (drop_while is_digit (drop_while is_space r)); [reflexivity|].
      exact Hh.
  - intros (kw & ws & rest & -> & Ekw & Hws & Fws & Hd & Fd & Hrest).
    assert (Em : match_ci (js "OFFSET") (kw ++ ws ++ d ++ rest)
                 = Some (ws ++ d ++ rest))
      by (apply match_ci_spec; exists kw; split; [reflexivity | exact Ekw]).
    rewrite Em.
    assert (Hnd : next_sat is_space (d ++ rest) = false).
    { destruct d as [|c d]; [congruence|]. cbn in Fd |- *.
      apply andb_true_iff in Fd as [Fc _]. apply digit_not_space, Fc. }
    destruct (run_app is_space ws (d ++ rest) Fws Hnd) as [-> ->].
    destruct (run_app is_digit d rest Fd Hrest) as [-> _].
    assert (L1 : (0 <? length ws)%nat = true)
      by (destruct ws; [congruence | reflexivity]).
    assert (L2 : (0 <? length d)%nat = true)
      by (destruct d; [congruence | reflexivity]).
    rewrite L1, L2. cbn [andb].
    rewrite firstn_app, Nat.sub_diag, firstn_all. cbn [firstn].
    rewrite app_nil_r. reflexivity.
Qed.

(** [offset_match] returns the capture of the leftmost match. *)
Lemma offset_match_first (s : str) :
  match offset_match s with
  | Some d =>
      exists k, offset_here (skipn k s) = Some d
                /\ forall j, (j < k)%nat -> offset_here (skipn j s) = None
  | None => forall j, offset_here (skipn j s) = None
  end.
Proof.
  induction s as [|c s IH].
  - cbn [offset_match]. change (offset_here []) with (@None str).
    intros j. destruct j; reflexivity.
  - cbn [offset_match]. destruct (offset_here (c :: s)) as [d|] eqn:E.
    + exists O. split; [exact E | intros j Hj; lia].
    + destruct (offset_match s) as [d|].
      * destruct IH as (k & Hk & Hlt). exists (S k). split; [exact Hk|].
        intros [|j] Hj; [exact E | apply Hlt; lia].
      * intros [|j]; [exact E | apply IH].
Qed.

Lemma offset_match_at (s d : str) (k : nat) :
  offset_at (skipn k s) d ->
  (forall j d', (j < k)%nat -> ~ offset_at (skipn j s) d') ->
  offset_match s = Some d.
Proof.
  intros Hk Hlt. apply offset_here_spec in Hk.
  pose proof (offset_match_first s) as H.
  destruct (offset_match s) as [d0|].
  - destruct H as (k0 & Hk0 & Hlt0).
    destruct (Nat.lt_trichotomy k0 k) as [L | [-> | L]].
    + exfalso. apply (Hlt k0 d0 L). apply offset_here_spec. exact Hk0.
    + congruence.
    + rewrite (Hlt0 k L) in Hk. discriminate.
  - rewrite (H k) in Hk. discriminate.
Qed.

Lemma offset_match_none (s : str) :
  (forall j d', ~ offset_at (skipn j s) d') -> offset_match s = None.
Proof.
  intros Hn. pose proof (offset_match_first s) as H.
  destruct (offset_match s) as [d0|]; [|reflexivity].
  destruct H as (k0 & Hk0 & _). exfalso.
  apply (Hn k0 d0). apply offset_here_spec. exact Hk0.
Qed.

(** The first ten characters of a message from its end. *)
Lemma offset_finding_inj (d d' : str) :
  offset_finding d = offset_finding d' -> d = d'.
Proof.
  unfold offset_finding. intros H. injection H as H.
  apply app_inv_tail in H. exact H.
Qed.

Lemma bundle_offset_finding_inj (d d' : str) :
  Bundle_msg.offset_finding d = Bundle_msg.offset_finding d' -> d = d'.
Proof.
  unfold Bundle_msg.offset_finding. intros H. injection H as H.
  apply app_inv_tail in H. exact H.
Qed.

Lemma decimal_not_L (n : nat) (t : str) :
  next_is 32 t = true -> starts_with (js "L") (decimal n ++ t) = false.
Proof.
  intros H. unfold decimal. destruct (Nat.to_uint n); cbn; try reflexivity.
  destruct t as [|c t]; [discriminate|]. cbn in H |- *.
  apply N.eqb_eq in H. subst c. reflexivity.
Qed.

(** No finding of another rule of [analyze] starts like the one on a large
    [OFFSET]. *)
Lemma analyze_offset_slot (upper : str -> str) (sql d : str) :
  In (offset_finding d) (analyze_with upper sql) <->
  offset_match sql = Some d /\ 1000 < parseInt d.
Proof.
  assert (HL : forall f, starts_with (js "L") (message f) = false ->
                         f <> offset_finding d)
    by (intros f Hf ->; discriminate).
  unfold analyze_with. rewrite !in_app_iff. split.
  - intros Hin. repeat destruct Hin as [Hin | Hin].
    + apply select_star_In in Hin. discriminate.
    + apply without_where_In in Hin. discriminate.
    + apply without_where_In in Hin. discriminate.
    + apply when_In in Hin as [Hin _]. discriminate.
    + apply when_In in Hin as [Hin _]. discriminate.
    + apply when_In in Hin as [Hin _]. discriminate.
    + apply when_In in Hin as [Hin _]. symmetry in Hin. exfalso.
      revert Hin. apply HL. apply decimal_not_L. reflexivity.
    + destruct (offset_match sql) as [d0|]; [|destruct Hin].
      apply when_In in Hin as [Hin Hd]. apply offset_finding_inj in Hin.
      subst d0. split; [reflexivity | apply N.ltb_lt, Hd].
    + apply when_In in Hin as [Hin _]. symmetry in Hin. exfalso.
      revert Hin. apply HL. apply decimal_not_L. reflexivity.
    + apply when_In in Hin as [Hin _]. discriminate.
    + apply when_In in Hin as [Hin _]. discriminate.
  - intros [Hm Hd]. do 7 right. left. rewrite Hm.
    apply N.ltb_lt in Hd. rewrite Hd. left. reflexivity.
Qed.

Lemma analyzeSQL_offset_slot (sql d : str) :
  In (Bundle_msg.offset_finding d) (analyzeSQL sql) <->
  offset_match sql = Some d /\ 1000 < parseInt d.
Proof.
  assert (HL : forall f, starts_with (js "L") (message f) = false ->
                         f <> Bundle_msg.offset_finding d)
    by (intros f Hf ->; discriminate).
  unfold analyzeSQL. rewrite !in_app_iff. split.
  - intros Hin. repeat destruct Hin as [Hin | Hin].
    + apply select_star_In in Hin. discriminate.
    + exfalso. revert Hin. generalize (Bundle.tokenize sql). intros toks.
      induction toks as [|t rest IH]; cbn [without_where_bundle];
        [intros []|].
      rewrite !in_app_iff. intros [H | [H | H]]; [| |exact (IH H)].
      * destruct (_ && _); [|destruct H]. destruct H as [H | []]. discriminate.
      * destruct (_ && _); [|destruct H]. destruct H as [H | []]. discriminate.
    + apply when_In in Hin as [Hin _]. discriminate.
    + apply when_In in Hin as [Hin _]. discriminate.
    + apply when_In in Hin as [Hin _]. discriminate.
    + destruct (offset_match sql) as [d0|]; [|destruct Hin].
      apply when_In in Hin as [Hin Hd]. apply bundle_offset_finding_inj in Hin.
      subst d0. split; [reflexivity | apply N.ltb_lt, Hd].
    + apply when_In in Hin as [Hin _]. symmetry in Hin. exfalso.
      revert Hin. apply HL. apply decimal_not_L. reflexivity.
    + apply when_In in Hin as [Hin _]. discriminate.
    + apply when_In in Hin as [Hin _]. discriminate.
  - intros [Hm Hd]. do 5 right. left. rewrite Hm.
    apply N.ltb_lt in Hd. rewrite Hd. left. reflexivity.
Qed.

(** C6, as the code has it.  Only the leftmost match of [OFFSET\s+(\d+)] in
    the raw text is looked at.  When the pattern matches at position [k] with
    the digits [d] and at no position before [k]: if [d] denotes a number
    greater than 1000, the result contains the finding of level [warn] whose
    message embeds [d], and no such finding for other digits; if not, the
    result contains no such finding at all, whatever [OFFSET] comes later.
    Without any match there is no such finding either. *)
Theorem analyze_large_offset (upper : str -> str) (sql : str) :
  (forall k d,
     offset_at (skipn k sql) d ->
     (forall j d', (j < k)%nat -> ~ offset_at (skipn j sql) d') ->
     (1000 < parseInt d ->
        In (offset_finding d) (analyze_with upper sql)
        /\ (forall d', In (offset_finding d') (analyze_with upper sql) -> d' = d)
        /\ level (offset_finding d) = warn
        /\ exists pre post, message (offset_finding d) = pre ++ d ++ post)
     /\ (parseInt d <= 1000 ->
         forall d', ~ In (offset_finding d') (analyze_with upper sql)))
  /\ ((forall j d', ~ offset_at (skipn j sql) d') ->
      forall d', ~ In (offset_finding d') (analyze_with upper sql)).
Proof.
  split.
  - intros k d Hk Hlt. pose proof (offset_match_at sql d k Hk Hlt) as Hm.
    split.
    + intros Hd. split; [|split; [|split]].
      * apply analyze_offset_slot. split; assumption.
      * intros d' Hin. apply analyze_offset_slot in Hin as [Hm' _]. congruence.
      * reflexivity.
      * do 2 eexists. cbn [message offset_finding]. reflexivity.
    + intros Hd d' Hin. apply analyze_offset_slot in Hin as [Hm' Hd'].
      assert (d' = d) by congruence. subst d'. lia.
  - intros Hn d' Hin. apply analyze_offset_slot in Hin as [Hm' _].
    rewrite (offset_match_none sql Hn) in Hm'. discriminate.
Qed.

(** [analyzeSql("SELECT * FROM t OFFSET 5000")] has the finding with [5000]. *)
Lemma analyze_large_offset_witness :
  In (offset_finding (js "5000")) (analyze (js "SELECT * FROM t OFFSET 5000"))
  /\ level (offset_finding (js "5000")) = warn
  /\ exists pre post,
       message (offset_finding (js "5000")) = pre ++ js "5000" ++ post.
Proof.
  assert (Hat : offset_at (skipn 16 (js "SELECT * FROM t OFFSET 5000"))
                  (js "5000"))
    by (apply offset_here_spec; reflexivity).
  assert (Hlt : forall j d', (j < 16)%nat ->
                  ~ offset_at (skipn j (js "SELECT * FROM t OFFSET 5000")) d').
  { intros j d' Hj H. apply offset_here_spec in H.
    do 16 (destruct j as [|j]; [discriminate H|]). lia. }
  destruct (proj1 (proj1 (analyze_large_offset toUpperCase
                            (js "SELECT * FROM t OFFSET 5000"))
                     16%nat (js "5000") Hat Hlt) eq_refl)
    as (H1 & _ & H3 & H4).
  split; [exact H1 | split; [exact H3 | exact H4]].
Defined.

(** An [OFFSET 5000] after an earlier, small [OFFSET] is not reported. *)
Lemma analyze_second_offset_unseen :
  let x := js "SELECT a FROM t OFFSET 5; SELECT a FROM t OFFSET 5000" in
  includes (js "OFFSET 5000") x = true /\ analyze x = [].
Proof. vm_compute. split; reflexivity. Qed.

(** X4.  The browser bundle's rule on a large [OFFSET] reads the leftmost
    match of [OFFSET\s+(\d+)] in the same way, with its own message: the
    finding for the digits [d] is in the result exactly when the leftmost
    match captures [d] and [d] denotes a number greater than 1000. *)
Theorem analyzeSQL_large_offset (sql : str) :
  (forall k d,
     offset_at (skipn k sql) d ->
     (forall j d', (j < k)%nat -> ~ offset_at (skipn j sql) d') ->
     forall d', In (Bundle_msg.offset_finding d') (analyzeSQL sql)
                <-> d' = d /\ 1000 < parseInt d)
  /\ ((forall j d', ~ offset_at (skipn j sql) d') ->
      forall d', ~ In (Bundle_msg.offset_finding d') (analyzeSQL sql)).
Proof.
  split.
  - intros k d Hk Hlt d'. pose proof (offset_match_at sql d k Hk Hlt) as Hm.
    rewrite analyzeSQL_offset_slot, Hm. split.
    + intros [E Hd]. injection E as <-. split; [reflexivity | exact Hd].
    + intros [-> Hd]. split; [reflexivity | exact Hd].
  - intros Hn d' Hin. apply analyzeSQL_offset_slot in Hin as [Hm' _].
    rewrite (offset_match_none sql Hn) in Hm'. discriminate.
Qed.

(** *** The count of casts *)

Lemma cast_finding_tail2 (n : nat) : tail2 (cast_finding n) = js ".s".
Proof.
  unfold tail2, cast_finding. cbn [message]. rewrite rev_app_distr. reflexivity.
Qed.

Lemma join_finding_tail2 (n : nat) : tail2 (join_finding n) = js ".k".
Proof.
  unfold tail2, join_finding. cbn [message]. rewrite !rev_app_distr. reflexivity.
Qed.

Lemma uint_str_inj (u v : Decimal.uint) : uint_str u = uint_str v -> u = v.
Proof.
  revert v. induction u as [|u IH|u IH|u IH|u IH|u IH|u IH|u IH|u IH|u IH|u IH];
    intros [|v|v|v|v|v|v|v|v|v|v] H; try discriminate H; try reflexivity;
    injection H as H; f_equal; apply IH, H.
Qed.

Lemma cast_finding_inj (n m : nat) : cast_finding n = cast_finding m -> n = m.
Proof.
  unfold cast_finding, decimal. intros H. injection H as H.
  apply app_inv_tail, uint_str_inj in H.
  rewrite <- (DecimalNat.Unsigned.of_to n), <- (DecimalNat.Unsigned.of_to m), H.
  reflexivity.
Qed.

(** The finding on casts is in the result exactly with the count of the
    code, when that is more than three. *)
Lemma analyze_cast_slot (upper : str -> str) (sql : str) (n : nat) :
  In (cast_finding n) (analyze_with upper sql) <->
  n = castCount sql /\ (3 < castCount sql)%nat.
Proof.
  unfold analyze_with. rewrite !in_app_iff. split.
  - intros Hin.
    assert (Ht := cast_finding_tail2 n).
    repeat destruct Hin as [Hin | Hin].
    + apply select_star_In in Hin. rewrite Hin in Ht. discriminate.
    + apply without_where_In in Hin. rewrite Hin in Ht. discriminate.
    + apply without_where_In in Hin. rewrite Hin in Ht. discriminate.
    + apply when_In in Hin as [Hin _]. rewrite Hin in Ht. discriminate.
    + apply when_In in Hin as [Hin _]. rewrite Hin in Ht. discriminate.
    + apply when_In in Hin as [Hin _]. rewrite Hin in Ht. discriminate.
    + apply when_In in Hin as [Hin Hc]. apply cast_finding_inj in Hin.
      split; [exact Hin | apply Nat.ltb_lt, Hc].
    + destruct (offset_match sql); [|destruct Hin].
      apply when_In in Hin as [Hin _]. rewrite Hin in Ht. discriminate.
    + apply when_In in Hin as [Hin _]. rewrite Hin, join_finding_tail2 in Ht.
      discriminate.
    + apply when_In in Hin as [Hin _]. rewrite Hin in Ht. discriminate.
    + apply when_In in Hin as [Hin _]. rewrite Hin in Ht. discriminate.
  - intros [-> Hc]. do 6 right. left.
    apply Nat.ltb_lt in Hc. rewrite Hc. left. reflexivity.
Qed.

Lemma castCount_skip (c : char) (s : str) :
  (c =? 58) = false -> castCount (c :: s) = castCount s.
Proof.
  intros H. cbn [castCount]. destruct s as [|c2 r2]; [reflexivity|].
  rewrite H. reflexivity.
Qed.

Lemma castCount_colon_other (c : char) (s : str) :
  (c =? 58) = false -> castCount (58 :: c :: s) = castCount s.
Proof.
  intros H. rewrite <- (castCount_skip c s H).
  change (castCount (58 :: c :: s))
    with (if (58 =? 58) && (c =? 58) then S (castCount s)
          else castCount (c :: s)).
  rewrite H. reflexivity.
Qed.

(** The global match of [::] takes the pairs of colons from the left of each
    run. *)
Lemma castCount_pairs (s : str) :
  forall k,
    pairs_from k s
    = Nat.add (Nat.div k 2) (castCount (if Nat.odd k then 58 :: s else s)).
Proof.
  induction s as [|c s IH]; intros k.
  - cbn [pairs_from]. destruct (Nat.odd k); cbn [castCount]; lia.
  - cbn [pairs_from]. destruct (c =? 58) eqn:Ec.
    + apply N.eqb_eq in Ec. subst c. rewrite IH, Nat.odd_succ, <- Nat.negb_odd.
      destruct (Nat.odd k) eqn:Eo; cbn [negb].
      * apply Nat.odd_spec in Eo. destruct Eo as [m ->].
        change (castCount (58 :: 58 :: s)) with (S (castCount s)).
        assert (S (2 * m + 1) / 2 = m + 1)%nat
          by (symmetry; apply Nat.div_unique with 0%nat; lia).
        assert ((2 * m + 1) / 2 = m)%nat
          by (symmetry; apply Nat.div_unique with 1%nat; lia).
        lia.
      * assert (Ee : Nat.even k = true)
          by (rewrite <- Nat.negb_odd, Eo; reflexivity).
        apply Nat.even_spec in Ee. destruct Ee as [m ->].
        assert (S (2 * m) / 2 = m)%nat
          by (symmetry; apply Nat.div_unique with 1%nat; lia).
        assert ((2 * m) / 2 = m)%nat
          by (symmetry; apply Nat.div_unique with 0%nat; lia).
        rewrite H, H0. reflexivity.
    + rewrite (IH O). change (Nat.odd 0) with false. cbv iota.
      change (0 / 2)%nat with O. cbn [Nat.add].
      destruct (Nat.odd k).
      * rewrite (castCount_colon_other c s Ec). reflexivity.
      * rewrite (castCount_skip c s Ec). reflexivity.
Qed.

Lemma castCount_colon_pairs (s : str) : castCount s = colon_pairs s.
Proof. unfold colon_pairs. rewrite castCount_pairs. reflexivity. Qed.

Lemma castCount_occurrences (s : str) :
  (castCount s <= occurrences (js "::") s)%nat
  /\ (includes (js ":::") s = false -> castCount s = occurrences (js "::") s).
Proof.
  change (js "::") with [58%N; 58%N]. change (js ":::") with [58%N; 58%N; 58%N].
  assert (H : forall n s, (length s <= n)%nat ->
              (castCount s <= occurrences [58%N; 58%N] s)%nat
              /\ (includes [58%N; 58%N; 58%N] s = false ->
                  castCount s = occurrences [58%N; 58%N] s)).
  { clear s. induction n as [|n IH]; intros s Hlen.
    - destruct s; [|cbn [length] in Hlen; lia].
      split; [apply Nat.le_0_l | intros _; reflexivity].
    - destruct s as [|c [|c2 r2]].
      + split; [apply Nat.le_0_l | intros _; reflexivity].
      + cbn [castCount occurrences starts_with]. rewrite andb_false_r.
        split; [apply Nat.le_0_l | intros _; reflexivity].
      + cbn [length] in Hlen.
        destruct (IH (c2 :: r2) ltac:(cbn [length]; lia)) as [L1 E1].
        destruct (IH r2 ltac:(lia)) as [L2 E2].
        change (occurrences [58%N; 58%N] (c :: c2 :: r2))
          with (Nat.add (if (58 =? c) && ((58 =? c2) && true)
                         then 1%nat else 0%nat)
                  (occurrences [58; 58] (c2 :: r2))).
        change (castCount (c :: c2 :: r2))
          with (if (c =? 58) && (c2 =? 58) then S (castCount r2)
                else castCount (c2 :: r2)).
        rewrite andb_true_r, (N.eqb_sym 58 c), (N.eqb_sym 58 c2).
        destruct ((c =? 58) && (c2 =? 58)) eqn:Ecc.
        * apply andb_true_iff in Ecc as [Ec Ec2].
          apply N.eqb_eq in Ec. apply N.eqb_eq in Ec2. subst c c2.
          split.
          -- assert (occurrences [58%N; 58%N] r2
                     <= occurrences [58%N; 58%N] (58%N :: r2))%nat
               by (cbn [occurrences]; apply Nat.le_add_l).
             cbn [Nat.add]. apply le_n_S.
             eapply Nat.le_trans; [exact L2 | exact H].
          -- intros Hi.
             pose proof (includes_head _ _ Hi) as Hh.
             pose proof (includes_skipn _ 2 _ Hi) as Hi2. cbn [skipn] in Hi2.
             rewrite (E2 Hi2).
             assert (E : occurrences [58%N; 58%N] (58%N :: r2)
                         = occurrences [58%N; 58%N] r2).
             { cbn [occurrences starts_with]. destruct r2 as [|c3 r3].
               - reflexivity.
               - cbn [starts_with] in Hh |- *.
                 change (58 =? 58) with true in *. cbn [andb] in Hh |- *.
                 rewrite andb_true_r in Hh. rewrite andb_true_r, Hh.
                 reflexivity. }
             cbn [Nat.add]. f_equal. symmetry. exact E.
        * split; [exact L1|]. intros Hi.
          apply E1. apply (includes_skipn _ 1 _ Hi). }
  apply (H (length s)). lia.
Qed.

(** C10, as the code has it.  The casts are counted as the global match of
    [::] counts them, from the left and without overlap: a run of [k] colons
    counts for [k / 2].  The result contains the finding of level [info] on
    casts, with that count at the start of its message, exactly when the count
    is more than three.  The count is at most the number of occurrences of
    [::], so with three occurrences or fewer the finding is absent; and it is
    that number when the text holds no three colons in a row, so then more
    than three occurrences give the finding with their number. *)
Theorem analyze_cast_count (upper : str -> str) (sql : str) :
  (forall n, In (cast_finding n) (analyze_with upper sql)
             <-> n = colon_pairs sql /\ (3 < colon_pairs sql)%nat)
  /\ level (cast_finding (colon_pairs sql)) = info
  /\ starts_with (decimal (colon_pairs sql))
       (message (cast_finding (colon_pairs sql))) = true
  /\ (colon_pairs sql <= occurrences (js "::") sql)%nat
  /\ ((occurrences (js "::") sql <= 3)%nat ->
      forall n, ~ In (cast_finding n) (analyze_with upper sql))
  /\ (includes (js ":::") sql = false ->
      (3 < occurrences (js "::") sql)%nat ->
      In (cast_finding (occurrences (js "::") sql)) (analyze_with upper sql)).
Proof.
  destruct (castCount_occurrences sql) as [Hle Heq].
  rewrite <- castCount_colon_pairs.
  split; [|split; [|split; [|split; [|split]]]].
  - intros n. apply analyze_cast_slot.
  - reflexivity.
  - apply starts_with_app.
  - exact Hle.
  - intros H n Hin. apply analyze_cast_slot in Hin as [_ Hc]. lia.
  - intros Hi H. apply analyze_cast_slot. rewrite (Heq Hi). split; [reflexivity | exact H].
Qed.

Lemma analyze_cast_count_witness :
  In (cast_finding 4) (analyze (js "SELECT a::int, b::int, c::text, d::date")).
Proof.
  apply (proj2 (proj1 (analyze_cast_count toUpperCase
                         (js "SELECT a::int, b::int, c::text, d::date")) 4%nat)).
  vm_compute. split; [reflexivity | lia].
Defined.

(** Seven colons in a row hold six occurrences of [::] and three pairs that
    do not overlap: no finding. *)
Lemma analyze_cast_overlap :
  let x := js "SELECT a:::::::b" in
  occurrences (js "::") x = 6%nat /\ analyze x = [].
Proof. vm_compute. split; reflexivity. Qed.

(** ** The node module and the browser bundle *)

(** *** The lexers *)

Lemma three_is_prefix (s : str) :
  str_eqb (firstn 3 s) (js "->>") = starts_with (js "->>") s.
Proof.
  destruct s as [|a [|b [|c s]]]; cbn; rewrite ?andb_false_r, ?andb_true_r;
    try reflexivity.
  rewrite (N.eqb_sym a), (N.eqb_sym b), (N.eqb_sym c). reflexivity.
Qed.

(** The two operator cases differ at [->>] only. *)
Lemma operators_agree (s : str) :
  starts_with (js "->>") s = false -> operators_bundle s = operators s.
Proof.
  intros H. unfold operators, operators_bundle. rewrite three_is_prefix, H.
  reflexivity.
Qed.

Lemma lex_at_agree (s : str) :
  starts_with (js "->>") s = false ->
  lex_at operators_bundle s = lex_at operators s.
Proof.
  intros H. unfold lex_at, lex_plain. rewrite (operators_agree s H). reflexivity.
Qed.

Lemma lex_loop_agree (fuel : nat) :
  forall s, includes (js "->>") s = false ->
            lex_loop operators_bundle fuel s = lex_loop operators fuel s.
Proof.
  induction fuel as [|fuel IH]; intros [|c rest] H; try reflexivity.
  cbn [lex_loop]. rewrite (lex_at_agree _ (includes_head _ _ H)).
  destruct (lex_at operators (c :: rest)) as [t n].
  rewrite (IH _ (includes_skipn _ n _ H)). reflexivity.
Qed.

Lemma tokenize_agree (s : str) :
  includes (js "->>") s = false -> Bundle.tokenize s = tokenize s.
Proof.
  intros H. unfold Bundle.tokenize, tokenize, tokenize_with.
  rewrite (lex_loop_agree _ _ H). reflexivity.
Qed.

(** *** The formatters *)

Lemma close_after_limit_tail (t : token) (rest : list token) :
  close_after_limit (t :: rest) = false -> close_after_limit rest = false.
Proof.
  cbn [close_after_limit]. destruct rest as [|n rest']; [reflexivity|].
  intros H. apply orb_false_iff in H as [_ H]. exact H.
Qed.

Lemma on_keyword_agree (t : token) (st : fstate) :
  on_keyword_bundle t st = on_keyword t st.
Proof.
  unfold on_keyword, on_keyword_bundle.
  destruct (_ && (parenDepth st =? 0)%Z); [|reflexivity].
  destruct (in_set (value t) (map js ["AND"; "OR"]%string)); [reflexivity|].
  destruct (_ && _); reflexivity.
Qed.

Lemma on_close_agree (t : token) (st : fstate) :
  after_limit st = false -> on_close_bundle t st = on_close t st.
Proof.
  intros H. unfold on_close, on_close_bundle.
  rewrite after_limit_close_depth, H. reflexivity.
Qed.

Lemma step_agree (st : fstate) (t : token) (next : option token) :
  after_limit st && is_sym ")" t = false ->
  formatSQL_step st t next = format_step st t next.
Proof.
  intros H. unfold formatSQL_step, format_step, step_with.
  rewrite on_keyword_agree.
  destruct (is_type Tcomment t); [reflexivity|].
  destruct (is_sym "(" t); [reflexivity|].
  destruct (is_sym ")" t); [|reflexivity].
  rewrite andb_true_r in H. rewrite (on_close_agree t st H). reflexivity.
Qed.

Lemma compound_not_limit (t : token) (next : option token) (p : str) :
  compound_of t next = Some p -> is_limit_kw (tok Tkeyword p) = false.
Proof.
  unfold compound_of. destruct next as [n|]; [|discriminate].
  destruct (_ && _); [|discriminate].
  destruct (in_set _ CLAUSE_KEYWORDS); [|discriminate].
  intros H. injection H as <-.
  unfold is_limit_kw. cbn [is_type type tok tok_type_eqb value andb].
  apply not_true_iff_false. rewrite in_set_In. intros Hin.
  cbn [map In] in Hin.
  repeat destruct Hin as [Hin | Hin]; try (destruct Hin; fail);
    apply (f_equal (existsb (N.eqb 32))) in Hin;
    rewrite existsb_app in Hin; cbn in Hin;
    rewrite orb_true_r in Hin; discriminate.
Qed.

(** What an iteration leaves in [prevToken]. *)
Lemma step_prevToken (st : fstate) (t : token) (next : option token) :
  prevToken (fst (format_step st t next))
  = Some (if snd (format_step st t next)
          then match compound_of t next with
               | Some p => tok Tkeyword p
               | None => t
               end
          else t).
Proof.
  unfold format_step, step_with.
  destruct (is_type Tcomment t); [reflexivity|].
  destruct (is_sym "(" t); [reflexivity|].
  destruct (is_sym ")" t); [reflexivity|].
  destruct (is_sym "," t); [reflexivity|].
  destruct (is_sym ";" t); [reflexivity|].
  destruct (compound_of t next); [reflexivity|].
  destruct (is_type Tkeyword t); reflexivity.
Qed.

Lemma step_skip (st : fstate) (t : token) (next : option token) :
  snd (format_step st t next) = true -> exists p, compound_of t next = Some p.
Proof.
  unfold format_step, step_with.
  destruct (is_type Tcomment t); [discriminate|].
  destruct (is_sym "(" t); [discriminate|].
  destruct (is_sym ")" t); [discriminate|].
  destruct (is_sym "," t); [discriminate|].
  destruct (is_sym ";" t); [discriminate|].
  destruct (compound_of t next) as [p|]; [intros _; exists p; reflexivity|].
  destruct (is_type Tkeyword t); discriminate.
Qed.

Lemma fmt_loop_agree (n : nat) :
  forall toks st,
    (length toks <= n)%nat ->
    close_after_limit toks = false ->
    match toks with
    | t :: _ => after_limit st && is_sym ")" t = false
    | [] => True
    end ->
    fmt_loop formatSQL_step st toks = fmt_loop format_step st toks.
Proof.
  induction n as [|n IH]; intros [|t rest] st Hlen Hcl Hprev;
    cbn [length] in Hlen; try reflexivity; try lia.
  cbn [fmt_loop]. rewrite (step_agree st t _ Hprev).
  pose proof (step_prevToken st t (hd_error rest)) as Hp.
  pose proof (step_skip st t (hd_error rest)) as Hs.
  destruct (format_step st t (hd_error rest)) as [st' skip].
  cbn [fst snd] in Hp, Hs.
  pose proof (close_after_limit_tail _ _ Hcl) as Hcl'.
  destruct skip.
  - destruct rest as [|t' rest']; [reflexivity|].
    apply IH; [cbn [length] in Hlen; lia | exact (close_after_limit_tail _ _ Hcl') |].
    destruct rest' as [|t'' rest'']; [exact I|].
    destruct (Hs eq_refl) as [p Ec]. rewrite Ec in Hp.
    unfold after_limit, prev_is. rewrite Hp.
    rewrite (compound_not_limit _ _ _ Ec). reflexivity.
  - apply IH; [lia | exact Hcl' |].
    destruct rest as [|t' rest']; [exact I|].
    unfold after_limit, prev_is. rewrite Hp.
    cbn [close_after_limit] in Hcl. apply orb_false_iff in Hcl as [Hcl _].
    exact Hcl.
Qed.

Lemma format_agree (sql : str) :
  includes (js "->>") sql = false ->
  close_after_limit (tokenize sql) = false ->
  formatSQL sql = format sql.
Proof.
  intros Ha Hc. unfold formatSQL, format. rewrite (tokenize_agree sql Ha).
  f_equal. apply fmt_loop_agree with (n := length (tokenize sql)); [lia | exact Hc |].
  destruct (tokenize sql); [exact I | reflexivity].
Qed.

(** *** The analyzers *)

Lemma endsWith_app (a t : str) : endsWith t (a ++ t) = true.
Proof. unfold endsWith. rewrite rev_app_distr. apply starts_with_app. Qed.

Lemma firstn_drop_end (a t : str) :
  firstn (length (a ++ t) - length t) (a ++ t) = a.
Proof.
  rewrite length_app, Nat.add_sub, firstn_app, Nat.sub_diag, firstn_all.
  apply app_nil_r.
Qed.

Lemma reword_offset (d : str) :
  reword (offset_finding d) = Bundle_msg.offset_finding d.
Proof.
  unfold reword, offset_finding, Bundle_msg.offset_finding. cbn [level message].
  f_equal. cbn [REWORDED reword_message].
  set (t := js ") is slow " ++ [8212]
            ++ js " Postgres must scan and discard rows. Use keyset pagination instead.").
  change (js "Large OFFSET (" ++ d ++ js ") is slow " ++ [8212]
          ++ js " Postgres must scan and discard rows. Use keyset pagination instead.")
    with (js "Large OFFSET (" ++ d ++ t).
  rewrite (app_assoc (js "Large OFFSET (") d t).
  rewrite endsWith_app, firstn_drop_end, <- app_assoc. reflexivity.
Qed.

Lemma reword_join (n : nat) :
  reword (join_finding n) = Bundle_msg.join_finding n.
Proof.
  unfold reword, join_finding, Bundle_msg.join_finding. cbn [level message].
  f_equal. cbn [REWORDED reword_message].
  set (t := js " JOINs detected. Consider if all are necessary " ++ [8212]
            ++ js " each join multiplies the planner's work.").
  replace (endsWith _ (decimal n ++ t)) with false
    by (unfold endsWith; rewrite (rev_app_distr (decimal n) t); reflexivity).
  rewrite endsWith_app, firstn_drop_end. reflexivity.
Qed.

Lemma is_cast_offset (d : str) : is_cast (offset_finding d) = false.
Proof.
  unfold is_cast, offset_finding, endsWith. cbn [message].
  rewrite (app_assoc (js "Large OFFSET (") d).
  rewrite (rev_app_distr (js "Large OFFSET (" ++ d)). reflexivity.
Qed.

Lemma is_cast_join (n : nat) : is_cast (join_finding n) = false.
Proof.
  unfold is_cast, join_finding, endsWith. cbn [message].
  rewrite (rev_app_distr (decimal n)). reflexivity.
Qed.

Lemma is_cast_cast (n : nat) : is_cast (cast_finding n) = true.
Proof. unfold is_cast, cast_finding. cbn [message]. apply endsWith_app. Qed.

Lemma bundle_view_app (a b : list finding) :
  bundle_view (a ++ b) = bundle_view a ++ bundle_view b.
Proof. unfold bundle_view. rewrite filter_app, map_app. reflexivity. Qed.

Lemma bundle_view_when (b : bool) (f g : finding) :
  is_cast f = false -> reword f = g -> bundle_view (when b f) = when b g.
Proof.
  intros Hc Hr. destruct b; [|reflexivity].
  unfold bundle_view. cbn [when filter]. rewrite Hc. cbn [negb map].
  rewrite Hr. reflexivity.
Qed.

Lemma bundle_view_cast (b : bool) (n : nat) :
  bundle_view (when b (cast_finding n)) = [].
Proof.
  destruct b; [|reflexivity].
  unfold bundle_view. cbn [when filter]. rewrite is_cast_cast. reflexivity.
Qed.

(** The bundle's single loop gives the findings of the two loops of the node
    module, in the order of the tokens. *)
Lemma without_where_bundle_perm (toks : list token) :
  Permutation
    (without_where "UPDATE" update_finding toks
     ++ without_where "DELETE" delete_finding toks)
    (without_where_bundle toks).
Proof.
  induction toks as [|t rest IH]; [constructor|].
  cbn [without_where without_where_bundle].
  destruct (is_kw "UPDATE" t && negb (hasWhere rest));
    destruct (is_kw "DELETE" t && negb (hasWhere rest)); cbn [app].
  - constructor. apply Permutation_sym.
    apply Permutation_cons_app. apply Permutation_sym. exact IH.
  - constructor. exact IH.
  - apply Permutation_sym.
    apply Permutation_cons_app. apply Permutation_sym. exact IH.
  - exact IH.
Qed.

Lemma without_where_bundle_one (toks : list token) :
  without_where "UPDATE" update_finding toks = []
  \/ without_where "DELETE" delete_finding toks = [] ->
  without_where_bundle toks
  = without_where "UPDATE" update_finding toks
    ++ without_where "DELETE" delete_finding toks.
Proof.
  induction toks as [|t rest IH]; [reflexivity|].
  cbn [without_where without_where_bundle].
  destruct (is_kw "UPDATE" t && negb (hasWhere rest));
    destruct (is_kw "DELETE" t && negb (hasWhere rest)); cbn [app];
    intros [H | H]; try discriminate H.
  - rewrite (IH (or_intror H)). reflexivity.
  - rewrite (IH (or_introl H)). rewrite H. reflexivity.
  - rewrite (IH (or_introl H)). reflexivity.
  - rewrite (IH (or_intror H)). reflexivity.
Qed.

Lemma without_where_nil kw f g (toks : list token) :
  ~ In f (without_where kw f toks ++ g) -> without_where kw f toks = [].
Proof.
  intros H. destruct (without_where kw f toks) as [|x l] eqn:E; [reflexivity|].
  exfalso. apply H.
  assert (Hx : In x (without_where kw f toks)) by (rewrite E; left; reflexivity).
  apply without_where_In in Hx. subst x. left. reflexivity.
Qed.

Lemma has_limit_or_fetch (toks : list token) :
  existsb (fun t => is_type Tkeyword t
                    && (str_eqb (value t) (js "LIMIT")
                        || str_eqb (value t) (js "FETCH"))) toks
  = existsb (is_kw "LIMIT") toks || existsb (is_kw "FETCH") toks.
Proof.
  induction toks as [|t rest IH]; [reflexivity|]. cbn [existsb].
  rewrite IH.
  generalize (existsb (is_kw "LIMIT") rest) (existsb (is_kw "FETCH") rest).
  intros l f. unfold is_kw.
  destruct (is_type Tkeyword t), (str_eqb (value t) (js "LIMIT")),
    (str_eqb (value t) (js "FETCH")), l, f; reflexivity.
Qed.

(** The [LIKE] test of the node module, on text of the ASCII range, is the
    bundle's test with one space for its white space. *)
Lemma upper_char_fixed (c k : char) :
  upper_char c = k -> between 65 90 k = false -> c = k.
Proof.
  unfold upper_char. destruct (between 97 122 c) eqn:E; [|tauto].
  intros <- H. exfalso. unfold between in *.
  apply andb_true_iff in E as [E1 E2].
  apply N.leb_le in E1. apply N.leb_le in E2.
  apply andb_false_iff in H as [H | H]; apply N.leb_gt in H; lia.
Qed.

Lemma like_single_here (s : str) :
  starts_with (js "LIKE '%") (toUpperCase s) = true -> like_here s = true.
Proof.
  destruct s as [|c1 [|c2 [|c3 [|c4 [|c5 [|c6 [|c7 s]]]]]]];
    try (cbn; rewrite ?andb_false_r; discriminate).
  cbn [toUpperCase map starts_with js list_ascii_of_string].
  change (N_of_ascii "L") with 76. change (N_of_ascii "I") with 73.
  change (N_of_ascii "K") with 75. change (N_of_ascii "E") with 69.
  change (N_of_ascii " ") with 32. change (N_of_ascii "'") with 39.
  change (N_of_ascii "%") with 37.
  rewrite !andb_true_iff, !N.eqb_eq.
  intros (E1 & E2 & E3 & E4 & E5 & E6 & E7 & _).
  symmetry in E5, E6, E7.
  apply upper_char_fixed in E5; [|reflexivity].
  apply upper_char_fixed in E6; [|reflexivity].
  apply upper_char_fixed in E7; [|reflexivity]. subst c5 c6 c7.
  unfold like_here.
  change (js "LIKE") with [76; 73; 75; 69]. cbn [match_ci].
  rewrite <- E1, <- E2, <- E3, <- E4, !N.eqb_refl. reflexivity.
Qed.

Lemma search_skipn (m : str -> bool) (k : nat) :
  forall s, m (skipn k s) = true -> search m s = true.
Proof.
  induction k as [|k IH]; intros s H.
  - destruct s; cbn [search skipn] in *; rewrite H; reflexivity.
  - destruct s as [|c s].
    + cbn [skipn] in H. cbn [search]. rewrite H. reflexivity.
    + cbn [search]. rewrite (IH s H). apply orb_true_r.
Qed.

Lemma includes_skipn_head (pat s : str) :
  includes pat s = true -> exists k, starts_with pat (skipn k s) = true.
Proof.
  unfold includes. induction s as [|c s IH]; cbn [indexOf].
  - destruct (starts_with pat []) eqn:E; [|discriminate].
    intros _. exists O. exact E.
  - destruct (starts_with pat (c :: s)) eqn:E.
    + intros _. exists O. exact E.
    + destruct (indexOf pat s); [|discriminate]. intros _.
      destruct (IH eq_refl) as [k Hk]. exists (S k). exact Hk.
Qed.

Lemma toUpperCase_skipn (k : nat) (s : str) :
  skipn k (toUpperCase s) = toUpperCase (skipn k s).
Proof. unfold toUpperCase. apply skipn_map. Qed.

Lemma like_node_bundle (sql : str) :
  includes (js "LIKE '%") (toUpperCase sql) = true ->
  search like_here sql = true.
Proof.
  intros H. apply includes_skipn_head in H as [k Hk].
  rewrite toUpperCase_skipn in Hk.
  apply (search_skipn like_here k). apply like_single_here. exact Hk.
Qed.

(** C5, as the code has it.  The bundle differs from the node module in the
    order of the operator tests, in the case of [)], in the rule on casts
    (which it lacks), in its [LIKE] test, in the order of the [UPDATE] and
    [DELETE] findings and in four messages.  On an input without [->>] the two
    lexers return the same tokens; if moreover no [)] token comes right after
    a [LIMIT], [OFFSET], [ASC] or [DESC] keyword token, the two formatters
    return the same text.  The two lists of findings are made of the same
    parts in the same order: the findings [S] on [SELECT *], the same in both;
    the findings on [UPDATE] and [DELETE], those of the bundle a permutation
    of those of the node module, and the same list when one of the two kinds
    is absent; the finding on [LIKE], each by its own test, where on text of
    the ASCII range the bundle reports it whenever the node module does; and
    the other findings [Rn] of the node module, which the bundle reports
    without the one on casts and in its own words. *)
Theorem bundle_agrees (upper : str -> str) (sql : str) :
  includes (js "->>") sql = false ->
  Bundle.tokenize sql = tokenize sql
  /\ (close_after_limit (tokenize sql) = false -> formatSQL sql = format sql)
  /\ (exists S En Eb Rn,
        analyze_with upper sql
        = S ++ En
            ++ when (includes (js "LIKE '%") (upper sql)) like_finding ++ Rn
        /\ analyzeSQL sql
           = S ++ Eb ++ when (search like_here sql) like_finding
               ++ bundle_view Rn
        /\ Forall (fun f => f = select_star_finding) S
        /\ Forall (fun f => f = update_finding \/ f = delete_finding) En
        /\ Permutation En Eb
        /\ (~ In update_finding En \/ ~ In delete_finding En -> Eb = En)
        /\ Forall (fun f => is_error f = false /\ f <> select_star_finding
                            /\ f <> like_finding) Rn)
  /\ (upper sql = toUpperCase sql ->
      includes (js "LIKE '%") (upper sql) = true ->
      search like_here sql = true).
Proof.
  intros H. split; [|split; [|split]].
  - apply tokenize_agree, H.
  - apply format_agree, H.
  - exists (select_star (tokenize sql)),
      (without_where "UPDATE" update_finding (tokenize sql)
       ++ without_where "DELETE" delete_finding (tokenize sql)),
      (without_where_bundle (tokenize sql)),
      (when (search not_in_here sql) not_in_finding
       ++ when (existsb (is_kw "ORDER") (tokenize sql)
                && negb (existsb (is_kw "LIMIT") (tokenize sql))
                && negb (existsb (is_kw "FETCH") (tokenize sql)))
            order_by_finding
       ++ when (3 <? castCount sql)%nat (cast_finding (castCount sql))
       ++ match offset_match sql with
          | Some d => when (1000 <? parseInt d) (offset_finding d)
          | None => []
          end
       ++ when (5 <=? joinCount (tokenize sql))%nat
            (join_finding (joinCount (tokenize sql)))
       ++ when (search_now false sql) now_finding
       ++ when (search where_coalesce_here sql) coalesce_finding).
    split; [|split; [|split; [|split; [|split; [|split]]]]].
    + unfold analyze_with. rewrite orb_diag, <- !app_assoc. reflexivity.
    + unfold analyzeSQL. rewrite (tokenize_agree sql H).
      rewrite !bundle_view_app, bundle_view_cast.
      rewrite (bundle_view_when _ not_in_finding not_in_finding eq_refl eq_refl).
      rewrite (bundle_view_when _ order_by_finding order_by_finding
                 eq_refl eq_refl).
      rewrite (bundle_view_when _ now_finding Bundle_msg.now_finding
                 eq_refl eq_refl).
      rewrite (bundle_view_when _ coalesce_finding Bundle_msg.coalesce_finding
                 eq_refl eq_refl).
      rewrite (bundle_view_when _ _ _ (is_cast_join _) (reword_join _)).
      replace (bundle_view match offset_match sql with
                           | Some d => when (1000 <? parseInt d) (offset_finding d)
                           | None => []
                           end)
        with (match offset_match sql with
              | Some d => when (1000 <? parseInt d) (Bundle_msg.offset_finding d)
              | None => []
              end)
        by (destruct (offset_match sql) as [d|]; [|reflexivity];
            symmetry; apply bundle_view_when;
            [apply is_cast_offset | apply reword_offset]).
      rewrite has_limit_or_fetch, negb_orb, andb_assoc. cbn [app].
      reflexivity.
    + apply Forall_forall. intros f Hf. apply (select_star_In _ _ Hf).
    + apply Forall_forall. intros f Hf. apply in_app_iff in Hf as [Hf | Hf];
        apply without_where_In in Hf; auto.
    + apply without_where_bundle_perm.
    + intros Hone. apply without_where_bundle_one.
      destruct Hone as [Hn | Hn].
      * left. apply (without_where_nil _ _ _ _ Hn).
      * right.
        apply (without_where_nil "DELETE" delete_finding
                 (without_where "UPDATE" update_finding (tokenize sql))).
        intros Hin. apply Hn. apply in_app_iff.
        apply in_app_iff in Hin. tauto.
    + apply Forall_forall. intros f Hf. rewrite !in_app_iff in Hf.
      repeat destruct Hf as [Hf | Hf].
      * apply when_In in Hf as [-> _]. repeat split; discriminate.
      * apply when_In in Hf as [-> _]. repeat split; discriminate.
      * apply when_In in Hf as [-> _]. repeat split;
          intros E; apply (f_equal tail2) in E;
            rewrite cast_finding_tail2 in E; discriminate.
      * destruct (offset_match sql); [|destruct Hf].
        apply when_In in Hf as [-> _]. repeat split; discriminate.
      * apply when_In in Hf as [-> _]. repeat split;
          intros E; apply (f_equal tail2) in E;
            rewrite join_finding_tail2 in E; discriminate.
      * apply when_In in Hf as [-> _]. repeat split; discriminate.
      * apply when_In in Hf as [-> _]. repeat split; discriminate.
  - intros -> Hl. apply like_node_bundle, Hl.
Qed.

Lemma bundle_agrees_witness :
  let x := js "select id,name from users where name like '%a' order by id" in
  Bundle.tokenize x = tokenize x /\ formatSQL x = format x.
Proof.
  pose proof (bundle_agrees toUpperCase
    (js "select id,name from users where name like '%a' order by id") eq_refl)
    as (H1 & H2 & _).
  split; [exact H1 | exact (H2 eq_refl)].
Defined.

(** The two formatters differ on [->>] and on [)] after [DESC]; the two
    analyzers differ on a large [OFFSET] (the message), on a [DELETE] before
    an [UPDATE] (the order), on four casts (a finding the bundle lacks) and on
    [LIKE] followed by two spaces (a finding the node module lacks). *)
Lemma bundle_differs :
  format (js "SELECT data->>'k' FROM t")
    = js "SELECT data-> > 'k'" ++ [10] ++ js "FROM t" ++ [10]
  /\ formatSQL (js "SELECT data->>'k' FROM t")
    = js "SELECT data->> 'k'" ++ [10] ++ js "FROM t" ++ [10]
  /\ str_eqb (format (js "select * from (select a from t order by a desc) s"))
       (formatSQL (js "select * from (select a from t order by a desc) s"))
     = false
  /\ analyze (js "SELECT * FROM t OFFSET 5000")
     = [select_star_finding; offset_finding (js "5000")]
  /\ analyzeSQL (js "SELECT * FROM t OFFSET 5000")
     = [select_star_finding; Bundle_msg.offset_finding (js "5000")]
  /\ str_eqb (message (offset_finding (js "5000")))
       (message (Bundle_msg.offset_finding (js "5000"))) = false
  /\ analyze (js "DELETE FROM a; UPDATE b SET x = 1")
     = [update_finding; delete_finding]
  /\ analyzeSQL (js "DELETE FROM a; UPDATE b SET x = 1")
     = [delete_finding; update_finding]
  /\ analyze (js "SELECT a::int, b::int, c::text, d::date") = [cast_finding 4]
  /\ analyzeSQL (js "SELECT a::int, b::int, c::text, d::date") = []
  /\ analyze (js "SELECT a FROM t WHERE a LIKE  '%x'") = []
  /\ analyzeSQL (js "SELECT a FROM t WHERE a LIKE  '%x'") = [like_finding].
Proof. vm_compute. repeat split; reflexivity. Qed.

(** * The lexer and the formatter on content; the generator, the parser and the detector *)

(** ** White space *)

Lemma strip_app (a b : str) : strip (a ++ b) = strip a ++ strip b.
Proof. apply filter_app. Qed.

Lemma strip_drop_while (s : str) : strip (drop_while is_space s) = strip s.
Proof.
  induction s as [|c s IH]; [reflexivity|]. cbn [drop_while].
  destruct (is_space c) eqn:E; [|reflexivity].
  rewrite IH. unfold strip. cbn [filter]. rewrite E. reflexivity.
Qed.

Lemma strip_trimEnd (s : str) : strip (trimEnd s) = strip s.
Proof.
  unfold trimEnd, strip. rewrite filter_rev.
  fold (strip (drop_while is_space (rev s))). rewrite strip_drop_while.
  unfold strip. rewrite filter_rev, rev_involutive. reflexivity.
Qed.

Lemma strip_trim (s : str) : strip (trim s) = strip s.
Proof. unfold trim. rewrite strip_drop_while. apply strip_trimEnd. Qed.

Lemma strip_space (c : char) : is_space c = true -> strip [c] = [].
Proof. intros H. unfold strip. cbn. rewrite H. reflexivity. Qed.

Lemma strip_head (c : char) (s : str) :
  is_space c = false -> strip (c :: s) = c :: strip s.
Proof. intros H. unfold strip. cbn. rewrite H. reflexivity. Qed.

Lemma is_space_upper (c : char) : is_space (upper_char c) = is_space c.
Proof.
  unfold upper_char, between.
  destruct (N.leb_spec 97 c); [|reflexivity].
  destruct (N.leb_spec c 122); [|reflexivity]. cbn [andb].
  unfold is_space, between. cbn [existsb].
  repeat match goal with
         | |- context [?a =? ?b] => destruct (N.eqb_spec a b); [lia|]
         end.
  repeat match goal with
         | |- context [?a <=? ?b] => destruct (N.leb_spec a b); try lia
         end; reflexivity.
Qed.

Lemma strip_upper (s : str) : strip (toUpperCase s) = toUpperCase (strip s).
Proof.
  induction s as [|c s IH]; [reflexivity|].
  unfold strip, toUpperCase in *. cbn [map filter].
  rewrite is_space_upper. destruct (is_space c); cbn [negb map]; rewrite IH;
    reflexivity.
Qed.

Lemma upper_char_idem (c : char) : upper_char (upper_char c) = upper_char c.
Proof.
  unfold upper_char. destruct (between 97 122 c) eqn:E; [|rewrite E; reflexivity].
  replace (between 97 122 (c - 32)) with false; [reflexivity|].
  unfold between in *. apply andb_true_iff in E as [E1 E2].
  apply N.leb_le in E1, E2. symmetry. apply andb_false_iff. left.
  apply N.leb_gt. lia.
Qed.

Lemma toUpperCase_idem (s : str) : toUpperCase (toUpperCase s) = toUpperCase s.
Proof.
  unfold toUpperCase. rewrite map_map. apply map_ext. apply upper_char_idem.
Qed.

Lemma toUpperCase_app (a b : str) :
  toUpperCase (a ++ b) = toUpperCase a ++ toUpperCase b.
Proof. apply map_app. Qed.

(** ** What the lexer reads *)

Lemma indexOf_char_firstn (c : char) (s : str) :
  forall k, indexOf [c] s = Some k -> firstn (k + 1) s = firstn k s ++ [c].
Proof.
  induction s as [|x s IH]; intros k; cbn [indexOf starts_with]; [discriminate|].
  rewrite andb_true_r. destruct (N.eqb_spec c x) as [->|_].
  - intros H. injection H as <-. reflexivity.
  - destruct (indexOf [c] s) as [k'|]; [|discriminate].
    intros H. injection H as <-. cbn [Nat.add firstn app]. f_equal.
    apply IH. reflexivity.
Qed.

Lemma line_comment_covers (s : str) :
  strip (firstn (snd (line_comment s)) s)
  = strip (match fst (line_comment s) with
           | Some t => source_text t
           | None => []
           end).
Proof.
  unfold line_comment. cbn [fst snd source_text original value tok].
  rewrite strip_trim.
  destruct (indexOf [10] s) as [k|] eqn:E.
  - rewrite (indexOf_char_firstn _ _ _ E), strip_app, (strip_space 10 eq_refl).
    apply app_nil_r.
  - rewrite firstn_all, firstn_all2 by lia. reflexivity.
Qed.

Lemma slices_covers (r : scan) (s : str) :
  slices r s ->
  strip (firstn (snd r) s)
  = strip (match fst r with Some t => source_text t | None => [] end).
Proof. intros (t & -> & ->). reflexivity. Qed.

Lemma word_token_slices (s : str) : slices (word_token s) s.
Proof.
  unfold slices, word_token. destruct (in_set _ KEYWORDS); eexists; split;
    reflexivity.
Qed.

Lemma dollar_quoted_slices (s : str) (r : scan) :
  dollar_quoted s = Some r -> slices r s.
Proof.
  unfold dollar_quoted. destruct (next_is 36 _); [|discriminate].
  destruct (indexOf _ _); [|discriminate].
  intros H. injection H as <-. eexists. split; reflexivity.
Qed.

Lemma dollar_quoted_tok (s : str) (r : scan) :
  dollar_quoted s = Some r -> exists v n, r = (Some (tok Tstring v), n).
Proof.
  unfold dollar_quoted. destruct (next_is 36 _); [|discriminate].
  destruct (indexOf _ _); [|discriminate].
  intros H. injection H as <-. eexists. eexists. reflexivity.
Qed.

Section LexerReads.

Variable ops : str -> scan.
Hypothesis ops_advances : forall s, (0 < snd (ops s))%nat.
Hypothesis ops_slices : forall s, slices (ops s) s.
Hypothesis ops_original :
  forall s t, fst (ops s) = Some t ->
              original t = None /\ (type t = Toperator \/ type t = Tsymbol).

Lemma lex_plain_slices (c : char) (rest : str) :
  slices (lex_plain ops c rest (c :: rest)) (c :: rest).
Proof.
  unfold lex_plain.
  destruct (_ || _); [eexists; split; reflexivity|].
  destruct (is_alpha c); [apply word_token_slices|].
  destruct (c =? 34); [eexists; split; reflexivity|].
  apply ops_slices.
Qed.

(** The characters an iteration moves over are, white space apart, the text
    of the token it pushes. *)
Lemma lex_at_covers (c : char) (rest : str) :
  strip (firstn (snd (lex_at ops (c :: rest))) (c :: rest))
  = strip (match fst (lex_at ops (c :: rest)) with
           | Some t => source_text t
           | None => []
           end).
Proof.
  unfold lex_at.
  destruct (is_space c) eqn:Es; [exact (strip_space c Es)|].
  destruct (_ && _); [apply line_comment_covers|].
  destruct (_ && _); [reflexivity|].
  destruct (c =? 39); [reflexivity|].
  destruct (c =? 36); [|apply slices_covers, lex_plain_slices].
  destruct (dollar_quoted (c :: rest)) as [r|] eqn:Ed;
    [|apply slices_covers, lex_plain_slices].
  apply slices_covers, (dollar_quoted_slices _ _ Ed).
Qed.

Lemma tokenize_with_covers (s : str) :
  strip s = strip (concat (map source_text (tokenize_with ops s))).
Proof.
  assert (H : forall n s, (length s <= n)%nat ->
              strip s = strip (concat (map source_text (tokenize_with ops s)))).
  { clear s. induction n as [|n IH]; intros [|c rest] Hlen; cbn [length] in Hlen;
      try reflexivity; try lia.
    rewrite (tokenize_with_cons _ ops_advances).
    pose proof (lex_at_advances _ ops_advances c rest) as Hadv.
    pose proof (lex_at_covers c rest) as Hc.
    rewrite <- (firstn_skipn (snd (lex_at ops (c :: rest))) (c :: rest)) at 1.
    rewrite strip_app, Hc.
    rewrite (IH (skipn (snd (lex_at ops (c :: rest))) (c :: rest)))
      by (rewrite length_skipn; cbn [length]; lia).
    destruct (fst (lex_at ops (c :: rest))); cbn [map concat];
      rewrite ?strip_app; reflexivity. }
  apply (H (length s)). lia.
Qed.

(** The shape of the token an iteration pushes. *)
Lemma lex_plain_lexed (c : char) (rest : str) (t : token) :
  fst (lex_plain ops c rest (c :: rest)) = Some t ->
  match original t with
  | Some w => type t = Tkeyword /\ value t = toUpperCase w /\ In (value t) KEYWORDS
  | None => type t <> Tkeyword
  end
  /\ (type t = Tidentifier -> next_is 34 (value t) = false ->
      in_set (toUpperCase (value t)) KEYWORDS = false).
Proof.
  unfold lex_plain.
  destruct (_ || _).
  { intros H. injection H as <-. split; [discriminate|]. discriminate. }
  destruct (is_alpha c).
  { unfold word_token. destruct (in_set _ KEYWORDS) eqn:Ek; intros H;
      injection H as <-; cbn [original type value tok].
    - split; [|discriminate]. repeat split. apply in_set_In. exact Ek.
    - split; [discriminate|]. intros _ _. exact Ek. }
  destruct (c =? 34) eqn:Eq.
  { intros H. injection H as <-. split; [discriminate|].
    intros _. cbn. rewrite Eq. discriminate. }
  intros H. destruct (ops_original _ _ H) as [Ho Ht]. rewrite Ho.
  split; [destruct Ht as [-> | ->]; discriminate|].
  intros Hi. destruct Ht as [Ht | Ht]; rewrite Ht in Hi; discriminate.
Qed.

Lemma lex_at_lexed (c : char) (rest : str) (t : token) :
  fst (lex_at ops (c :: rest)) = Some t -> lexed t.
Proof.
  intros H.
  assert (Hs : is_space c = false).
  { unfold lex_at in H. destruct (is_space c); [discriminate | reflexivity]. }
  pose proof (lex_at_covers c rest) as Hc. rewrite H in Hc.
  pose proof (lex_at_advances _ ops_advances c rest) as Hadv.
  assert (Hne : strip (source_text t) <> []).
  { rewrite <- Hc. destruct (snd (lex_at ops (c :: rest))); [lia|].
    cbn [firstn]. rewrite (strip_head _ _ Hs). discriminate. }
  assert (Hrest :
    match original t with
    | Some w => type t = Tkeyword /\ value t = toUpperCase w /\ In (value t) KEYWORDS
    | None => type t <> Tkeyword
    end
    /\ (type t = Tidentifier -> next_is 34 (value t) = false ->
        in_set (toUpperCase (value t)) KEYWORDS = false)).
  { revert H. unfold lex_at. rewrite Hs.
    destruct (_ && _).
    { intros H. injection H as <-. split; discriminate. }
    destruct (_ && _).
    { intros H. injection H as <-. split; discriminate. }
    destruct (c =? 39).
    { intros H. injection H as <-. split; discriminate. }
    destruct (c =? 36); [|apply lex_plain_lexed].
    destruct (dollar_quoted (c :: rest)) as [r|] eqn:Ed; [|apply lex_plain_lexed].
    intros H. apply dollar_quoted_tok in Ed as (v & k & ->).
    injection H as <-. split; discriminate. }
  split; [|exact Hrest].
  unfold source_text in Hne. destruct Hrest as [Ho _].
  destruct (original t) as [w|]; [|exact Hne].
  destruct Ho as (_ & -> & _). rewrite strip_upper.
  intros E. apply Hne. destruct (strip w); [reflexivity | discriminate].
Qed.

Lemma tokenize_with_lexed (s : str) : Forall lexed (tokenize_with ops s).
Proof.
  assert (H : forall n s, (length s <= n)%nat -> Forall lexed (tokenize_with ops s)).
  { clear s. induction n as [|n IH]; intros [|c rest] Hlen; cbn [length] in Hlen;
      try (constructor; fail); try lia.
    rewrite (tokenize_with_cons _ ops_advances).
    pose proof (lex_at_advances _ ops_advances c rest) as Hadv.
    pose proof (lex_at_lexed c rest) as Hl.
    assert (Hr : Forall lexed
                   (tokenize_with ops
                      (skipn (snd (lex_at ops (c :: rest))) (c :: rest)))).
    { apply IH. rewrite length_skipn. cbn [length]. lia. }
    destruct (fst (lex_at ops (c :: rest))) as [t|]; [|exact Hr].
    constructor; [apply Hl; reflexivity | exact Hr]. }
  apply (H (length s)). lia.
Qed.

End LexerReads.

Lemma operators_slices (s : str) : slices (operators s) s.
Proof.
  unfold slices, operators. destruct (in_set _ _); [|destruct (str_eqb _ _)];
    eexists; split; reflexivity.
Qed.

Lemma operators_bundle_slices (s : str) : slices (operators_bundle s) s.
Proof.
  unfold slices, operators_bundle.
  destruct (str_eqb _ _); [|destruct (in_set _ _)]; eexists; split; reflexivity.
Qed.

Lemma operators_original (s : str) (t : token) :
  fst (operators s) = Some t ->
  original t = None /\ (type t = Toperator \/ type t = Tsymbol).
Proof.
  unfold operators. destruct (in_set _ _); [|destruct (str_eqb _ _)];
    intros H; injection H as <-; split; auto.
Qed.

Lemma operators_bundle_original (s : str) (t : token) :
  fst (operators_bundle s) = Some t ->
  original t = None /\ (type t = Toperator \/ type t = Tsymbol).
Proof.
  unfold operators_bundle. destruct (str_eqb _ _); [|destruct (in_set _ _)];
    intros H; injection H as <-; split; auto.
Qed.

(** ** What the formatter prints *)

Lemma lexed_text_of (t : token) :
  lexed t -> is_type Tkeyword t = false -> text_of t = value t.
Proof.
  intros (_ & Ho & _) Hk. unfold text_of.
  destruct (value t) eqn:Ev; [|reflexivity].
  destruct (original t); [|reflexivity].
  destruct Ho as [Ht _]. unfold is_type in Hk. rewrite Ht in Hk. discriminate.
Qed.

Lemma strip_out_newline (st : fstate) : strip (out (newline st)) = strip (out st).
Proof.
  unfold newline. cbn [out set_lineStart set_out].
  rewrite !strip_app, strip_trimEnd.
  replace (strip [10]) with (@nil char) by reflexivity.
  replace (strip (indent_str (indent st))) with (@nil char);
    [rewrite !app_nil_r; reflexivity|].
  unfold indent_str. induction (Z.to_nat (indent st)) as [|n IH]; [reflexivity|].
  cbn [repeat concat]. rewrite strip_app, <- IH. reflexivity.
Qed.

Lemma strip_out_space (st : fstate) : strip (out (space st)) = strip (out st).
Proof.
  unfold space. destruct (_ && _); [|reflexivity].
  cbn [emit out set_out]. rewrite strip_app. apply app_nil_r.
Qed.

Lemma strip_out_emit (v : str) (st : fstate) :
  strip (out (emit v st)) = strip (out st) ++ strip v.
Proof. cbn [emit out set_out]. apply strip_app. Qed.

Lemma out_close_depth (st : fstate) : out (close_depth st) = out st.
Proof. apply close_depth_fields. Qed.

Lemma strip_on_close (t : token) (st : fstate) :
  strip (out (on_close t st)) = strip (out st) ++ strip (js ")").
Proof.
  unfold on_close. cbn [out set_lineStart set_prevToken].
  rewrite strip_out_emit. f_equal.
  destruct (after_limit _).
  - rewrite strip_out_newline. cbn [out set_indent].
    rewrite out_close_depth. reflexivity.
  - rewrite out_close_depth. reflexivity.
Qed.

Lemma strip_on_close_bundle (t : token) (st : fstate) :
  strip (out (on_close_bundle t st)) = strip (out st) ++ strip (js ")").
Proof.
  unfold on_close_bundle. cbn [out set_lineStart set_prevToken].
  rewrite strip_out_emit, out_close_depth. reflexivity.
Qed.

Lemma strip_on_keyword (t : token) (st : fstate) :
  strip (out (on_keyword t st)) = strip (out st) ++ strip (value t).
Proof.
  unfold on_keyword. cbn [out set_lineStart set_prevToken].
  repeat match goal with
         | |- context [if ?b then _ else _] => destruct b
         end;
    rewrite strip_out_emit, ?strip_out_newline, ?strip_out_space, ?strip_app;
    reflexivity.
Qed.

Lemma strip_on_keyword_bundle (t : token) (st : fstate) :
  strip (out (on_keyword_bundle t st)) = strip (out st) ++ strip (value t).
Proof. rewrite on_keyword_agree. apply strip_on_keyword. Qed.

Lemma compound_of_inv (t : token) (next : option token) (p : str) :
  compound_of t next = Some p ->
  exists n, next = Some n /\ p = value t ++ js " " ++ value n.
Proof.
  unfold compound_of. destruct next as [n|]; [|discriminate].
  destruct (_ && _); [|discriminate]. destruct (in_set _ _); [|discriminate].
  intros H. injection H as <-. exists n. split; reflexivity.
Qed.

Section FormatPrints.

Variable close keyword : token -> fstate -> fstate.
Hypothesis strip_close :
  forall t st, strip (out (close t st)) = strip (out st) ++ strip (js ")").
Hypothesis strip_keyword :
  forall t st, strip (out (keyword t st)) = strip (out st) ++ strip (value t).

Lemma step_with_prints (st : fstate) (t : token) (next : option token) :
  lexed t ->
  strip (out (fst (step_with close keyword st t next)))
  = strip (out st) ++ strip (value t)
    ++ (if snd (step_with close keyword st t next)
        then match next with Some n => strip (value n) | None => [] end
        else []).
Proof.
  intros Hl. unfold step_with.
  destruct (is_type Tcomment t).
  { cbn [fst snd]. unfold on_comment. cbn [out set_prevToken].
    rewrite strip_out_newline, strip_out_emit, strip_out_newline, app_nil_r.
    reflexivity. }
  destruct (is_sym "(" t) eqn:Eo.
  { apply is_sym_inv in Eo as [_ ->]. cbn [fst snd]. rewrite app_nil_r.
    unfold on_open. cbn [out set_lineStart set_prevToken].
    assert (E : forall x, strip (out match next with
                                     | Some n => if is_kw "SELECT" n
                                                 then newline (set_indent (indent x + 1) x)
                                                 else x
                                     | None => x
                                     end) = strip (out x)).
    { intros x. destruct next as [n|]; [destruct (is_kw "SELECT" n)|];
        rewrite ?strip_out_newline; reflexivity. }
    rewrite E. cbn [out set_parenDepth]. rewrite strip_out_emit.
    destruct (prev_is _ st); rewrite ?strip_out_space; reflexivity. }
  destruct (is_sym ")" t) eqn:Ec.
  { apply is_sym_inv in Ec as [_ ->]. cbn [fst snd]. rewrite app_nil_r.
    apply strip_close. }
  destruct (is_sym "," t) eqn:Em.
  { apply is_sym_inv in Em as [_ ->]. cbn [fst snd]. rewrite app_nil_r.
    unfold on_comma. cbn [out set_lineStart set_prevToken].
    destruct (_ =? _)%Z; rewrite !strip_out_emit, ?strip_out_newline,
      ?strip_out_emit; rewrite <- ?app_assoc; reflexivity. }
  destruct (is_sym ";" t) eqn:Esc.
  { apply is_sym_inv in Esc as [_ ->]. cbn [fst snd]. rewrite app_nil_r.
    unfold on_semicolon. cbn [out set_lineStart set_prevToken set_indent].
    rewrite strip_out_emit. reflexivity. }
  destruct (compound_of t next) as [p|] eqn:Ep.
  { apply compound_of_inv in Ep as (n & -> & ->). cbn [fst snd].
    unfold on_compound. cbn [out set_lineStart set_prevToken].
    rewrite strip_out_emit, !strip_app.
    replace (strip (js " ")) with (@nil char) by reflexivity. cbn [app].
    f_equal.
    destruct (_ =? _)%Z; [destruct (in_set _ _)|];
      rewrite ?strip_out_newline, ?strip_out_space; reflexivity. }
  destruct (is_type Tkeyword t) eqn:Ek; cbn [fst snd]; rewrite app_nil_r.
  { apply strip_keyword. }
  unfold on_default. cbn [out set_lineStart set_prevToken].
  rewrite (lexed_text_of t Hl Ek).
  repeat match goal with
         | |- context [if ?b then _ else _] => destruct b eqn:?
         end;
    rewrite strip_out_emit, ?strip_out_space; cbn [out set_out];
    rewrite ?strip_trimEnd; try reflexivity.
  match goal with
  | H : is_sym "." t = true |- _ => apply is_sym_inv in H as [_ ->]
  end. reflexivity.
Qed.

Lemma step_with_skip (st : fstate) (t : token) (next : option token) :
  snd (step_with close keyword st t next) = true -> next <> None.
Proof.
  unfold step_with.
  destruct (is_type Tcomment t); [discriminate|].
  destruct (is_sym "(" t); [discriminate|].
  destruct (is_sym ")" t); [discriminate|].
  destruct (is_sym "," t); [discriminate|].
  destruct (is_sym ";" t); [discriminate|].
  destruct (compound_of t next) eqn:E;
    [|destruct (is_type Tkeyword t); discriminate].
  intros _. apply compound_of_inv in E as (n & -> & _). discriminate.
Qed.

Lemma fmt_loop_prints (toks : list token) :
  forall st, Forall lexed toks ->
  strip (out (fmt_loop (step_with close keyword) st toks))
  = strip (out st) ++ strip (concat (map value toks)).
Proof.
  assert (H : forall n toks st, (length toks <= n)%nat -> Forall lexed toks ->
              strip (out (fmt_loop (step_with close keyword) st toks))
              = strip (out st) ++ strip (concat (map value toks))).
  { clear toks. induction n as [|n IH]; intros [|t rest] st Hlen Hl;
      cbn [length] in Hlen; try (cbn; rewrite app_nil_r; reflexivity); try lia.
    cbn [fmt_loop map concat].
    pose proof (step_with_prints st t (hd_error rest) (Forall_inv Hl)) as Hp.
    pose proof (step_with_skip st t (hd_error rest)) as Hs.
    apply Forall_inv_tail in Hl.
    destruct (step_with close keyword st t (hd_error rest)) as [st' skip].
    cbn [fst snd] in Hp, Hs. rewrite strip_app.
    destruct skip.
    - destruct rest as [|t' rest']; [exfalso; apply (Hs eq_refl); reflexivity|].
      rewrite IH; [|cbn [length] in Hlen; lia | exact (Forall_inv_tail Hl)].
      rewrite Hp. cbn [hd_error map concat]. rewrite strip_app, <- !app_assoc.
      reflexivity.
    - rewrite IH; [|lia | exact Hl]. rewrite Hp, app_nil_r, <- !app_assoc.
      reflexivity. }
  intros st. apply (H (length toks)). lia.
Qed.

End FormatPrints.

Lemma values_upper (toks : list token) :
  Forall lexed toks ->
  toUpperCase (strip (concat (map value toks)))
  = toUpperCase (strip (concat (map source_text toks))).
Proof.
  induction 1 as [|t toks Ht _ IH]; [reflexivity|].
  cbn [map concat]. rewrite !strip_app, !toUpperCase_app, IH. f_equal.
  destruct Ht as (_ & Ho & _). unfold source_text.
  destruct (original t) as [w|]; [|reflexivity].
  destruct Ho as (_ & -> & _). rewrite strip_upper, toUpperCase_idem. reflexivity.
Qed.

(** X5.  The lexer drops nothing but white space: for every input, the texts
    of the tokens in order (a keyword in its original spelling), white space
    removed, are the input with its white space removed.  This holds for both
    lexers. *)
Theorem tokenize_reads_all (s : str) :
  strip s = strip (concat (map source_text (tokenize s)))
  /\ strip s = strip (concat (map source_text (Bundle.tokenize s))).
Proof.
  split.
  - apply tokenize_with_covers; [apply operators_advances | apply operators_slices].
  - apply tokenize_with_covers;
      [apply operators_bundle_advances | apply operators_bundle_slices].
Qed.

(** X6.  Every token of either lexer has the shape [lexed]: a value with a
    character that is not white space; a keyword token carries its original
    spelling and has that spelling in upper case, a word of [KEYWORDS], as
    its value; no other token carries an original spelling; an identifier
    that is not quoted is not a keyword. *)
Theorem tokenize_lexed (s : str) :
  Forall lexed (tokenize s) /\ Forall lexed (Bundle.tokenize s).
Proof.
  split.
  - apply tokenize_with_lexed;
      [apply operators_advances | apply operators_slices | apply operators_original].
  - apply tokenize_with_lexed;
      [apply operators_bundle_advances | apply operators_bundle_slices
      | apply operators_bundle_original].
Qed.

Lemma finish_strip (st : fstate) : strip (finish st) = strip (out st).
Proof.
  unfold finish. rewrite strip_app, strip_trim. apply app_nil_r.
Qed.

(** X7.  Formatting changes white space and the case of keywords only: white
    space removed, the formatted text is the concatenation of the token
    values, and up to the case of letters it is the input.  This holds for
    [format] and for the bundle's [formatSQL]. *)
Theorem format_keeps_content (sql : str) :
  strip (format sql) = strip (concat (map value (tokenize sql)))
  /\ toUpperCase (strip (format sql)) = toUpperCase (strip sql)
  /\ strip (formatSQL sql) = strip (concat (map value (Bundle.tokenize sql)))
  /\ toUpperCase (strip (formatSQL sql)) = toUpperCase (strip sql).
Proof.
  assert (Hn : Forall lexed (tokenize sql)).
  { apply tokenize_with_lexed;
      [apply operators_advances | apply operators_slices | apply operators_original]. }
  assert (Hb : Forall lexed (Bundle.tokenize sql)).
  { apply tokenize_with_lexed;
      [apply operators_bundle_advances | apply operators_bundle_slices
      | apply operators_bundle_original]. }
  assert (E1 : strip (format sql) = strip (concat (map value (tokenize sql)))).
  { unfold format. rewrite finish_strip. unfold format_step.
    rewrite (fmt_loop_prints _ _ strip_on_close strip_on_keyword _ _ Hn).
    reflexivity. }
  assert (E2 : strip (formatSQL sql)
               = strip (concat (map value (Bundle.tokenize sql)))).
  { unfold formatSQL. rewrite finish_strip. unfold formatSQL_step.
    rewrite (fmt_loop_prints _ _ strip_on_close_bundle strip_on_keyword_bundle
               _ _ Hb).
    reflexivity. }
  repeat split; [exact E1 | | exact E2 |].
  - rewrite E1, (values_upper _ Hn). f_equal. symmetry.
    apply tokenize_with_covers; [apply operators_advances | apply operators_slices].
  - rewrite E2, (values_upper _ Hb). f_equal. symmetry.
    apply tokenize_with_covers;
      [apply operators_bundle_advances | apply operators_bundle_slices].
Qed.

(** ** Input of white space only *)

Lemma lexed_source_text (t : token) : lexed t -> strip (source_text t) <> [].
Proof.
  intros (Hv & Ho & _). unfold source_text.
  destruct (original t) as [w|]; [|exact Hv].
  destruct Ho as (_ & E & _). rewrite E, strip_upper in Hv.
  intros H. apply Hv. rewrite H. reflexivity.
Qed.

Section NoTokens.

Variable ops : str -> scan.
Hypothesis ops_advances : forall s, (0 < snd (ops s))%nat.
Hypothesis ops_slices : forall s, slices (ops s) s.
Hypothesis ops_original :
  forall s t, fst (ops s) = Some t ->
              original t = None /\ (type t = Toperator \/ type t = Tsymbol).

Lemma tokenize_with_nil_iff (s : str) :
  tokenize_with ops s = [] <-> strip s = [].
Proof.
  pose proof (tokenize_with_covers ops ops_advances ops_slices s) as Hc.
  pose proof (tokenize_with_lexed ops ops_advances ops_slices ops_original s) as Hl.
  split.
  - intros E. rewrite E in Hc. exact Hc.
  - intros E. destruct (tokenize_with ops s) as [|t toks]; [reflexivity|].
    exfalso. apply (lexed_source_text t (Forall_inv Hl)).
    rewrite E in Hc. cbn [map concat] in Hc. rewrite strip_app in Hc.
    destruct (strip (source_text t)); [reflexivity | discriminate].
Qed.

End NoTokens.

(** X8.  The lexer returns no token exactly when the input holds white space
    only (the empty input included), and exactly then the formatted text is a
    single newline. *)
Theorem blank_input (s : str) :
  (tokenize s = [] <-> strip s = [])
  /\ (format s = [10] <-> strip s = []).
Proof.
  assert (Ht : tokenize s = [] <-> strip s = []).
  { apply tokenize_with_nil_iff;
      [apply operators_advances | apply operators_slices | apply operators_original]. }
  split; [exact Ht|]. split.
  - intros E.
    assert (Hs : strip (format s) = []) by (rewrite E; reflexivity).
    unfold format in Hs. rewrite finish_strip in Hs. unfold format_step in Hs.
    rewrite (fmt_loop_prints _ _ strip_on_close strip_on_keyword) in Hs.
    2:{ apply tokenize_with_lexed;
        [apply operators_advances | apply operators_slices
        | apply operators_original]. }
    cbn [out init_state strip filter app] in Hs.
    apply Ht.
    pose proof (tokenize_with_lexed _ operators_advances operators_slices
                  operators_original s) as Hl.
    fold tokenize in Hl.
    destruct (tokenize s) as [|t toks]; [reflexivity|].
    exfalso. destruct (Forall_inv Hl) as (Hv & _). apply Hv.
    cbn [map concat] in Hs. change (filter (fun c => negb (is_space c)))
      with strip in Hs. rewrite strip_app in Hs.
    destruct (strip (value t)); [reflexivity | discriminate].
  - intros E. apply Ht in E. unfold format. rewrite E. reflexivity.
Qed.

(** ** Escaped values and the lexer *)

Lemma string_end_escaped (s : str) :
  string_end (replace_char 39 (js "''") s ++ [39])
  = length (replace_char 39 (js "''") s).
Proof.
  induction s as [|c s IH]; [reflexivity|].
  unfold replace_char in *. cbn [flat_map].
  destruct (N.eqb_spec c 39) as [->|Hc].
  - cbn [js app map list_ascii_of_string N_of_ascii N_of_digits string_end N.eqb
          Pos.eqb length]. cbn. f_equal. f_equal. exact IH.
  - cbn [app string_end length]. apply N.eqb_neq in Hc. rewrite Hc.
    f_equal. exact IH.
Qed.

Section EscapedLexes.

Variable ops : str -> scan.
Hypothesis ops_advances : forall s, (0 < snd (ops s))%nat.

Lemma tokenize_with_escaped (s : str) :
  let lit := js "'" ++ replace_char 39 (js "''") s ++ js "'" in
  tokenize_with ops lit = [tok Tstring lit].
Proof.
  cbv zeta. set (body := replace_char 39 (js "''") s).
  change (js "'" ++ body ++ js "'") with (39 :: body ++ [39]).
  rewrite (tokenize_with_cons _ ops_advances).
  match goal with
  | |- context [lex_at ops ?x] =>
      assert (E : lex_at ops x = (Some (tok Tstring x), S (S (length body))))
  end.
  { unfold lex_at. cbn [is_space existsb N.eqb Pos.eqb orb andb between N.leb
                         N.compare Pos.compare Pos.compare_cont next_is].
    change (is_space 39) with false. cbn [N.eqb Pos.eqb andb].
    unfold quoted_string. cbn [skipn]. unfold body. rewrite string_end_escaped.
    fold body. rewrite Nat.add_1_r.
    rewrite (firstn_all2 (n := S (S (length body)))); [reflexivity|].
    cbn [length]. rewrite length_app. cbn [length]. lia. }
  rewrite E. cbn [fst snd].
  rewrite skipn_all2; [reflexivity|].
  cbn [length]. rewrite length_app. cbn [length]. lia.
Qed.

End EscapedLexes.

(** X9.  A value that [escapeValue] quotes is one string literal for the
    lexer: for every value other than [null], [undefined] and the empty
    string, both lexers return exactly one token for the escaped text, a
    string token whose value is the whole text, whatever quotes the value
    holds. *)
Theorem escapeValue_lexes (v : jsval) :
  is_nullish v = false ->
  tokenize (escapeValue v) = [tok Tstring (escapeValue v)]
  /\ Bundle.tokenize (escapeValue v) = [tok Tstring (escapeValue v)].
Proof.
  intros H. unfold escapeValue. rewrite H. split.
  - apply (tokenize_with_escaped _ operators_advances).
  - apply (tokenize_with_escaped _ operators_bundle_advances).
Qed.

Lemma escapeValue_lexes_witness :
  tokenize (escapeValue (JStr (js "it's")))
  = [tok Tstring (escapeValue (JStr (js "it's")))]
  /\ Bundle.tokenize (escapeValue (JStr (js "it's")))
     = [tok Tstring (escapeValue (JStr (js "it's")))].
Proof. exact (escapeValue_lexes (JStr (js "it's")) eq_refl). Defined.

(** ** Sanitized names *)

Lemma collapse_from_name (s : str) :
  forall after, forallb is_name_char s = true ->
                forallb is_name_char (collapse_from after s) = true.
Proof.
  induction s as [|c s IH]; intros after; [reflexivity|].
  cbn [forallb collapse_from]. rewrite andb_true_iff. intros [Hc Hs].
  destruct (c =? 95); [destruct after|]; cbn [forallb];
    rewrite ?Hc, ?IH by exact Hs; reflexivity.
Qed.

Lemma forallb_rev {A : Type} (p : A -> bool) (l : list A) :
  forallb p (rev l) = forallb p l.
Proof.
  apply eq_true_iff_eq. rewrite !forallb_forall. split; intros H x Hx; apply H.
  - apply in_rev in Hx. exact Hx.
  - apply in_rev. exact Hx.
Qed.

Lemma strip_underscores_name (s : str) :
  forallb is_name_char s = true ->
  forallb is_name_char (strip_underscores s) = true.
Proof.
  intros H. unfold strip_underscores.
  assert (H1 : forallb is_name_char
                 match s with
                 | c :: r => if c =? 95 then r else s
                 | [] => []
                 end = true).
  { destruct s as [|c r]; [reflexivity|]. destruct (c =? 95); [|exact H].
    cbn [forallb] in H. apply andb_true_iff in H as [_ H]. exact H. }
  revert H1. generalize (match s with
                         | c :: r => if c =? 95 then r else s
                         | [] => []
                         end). intros s1 H1.
  destruct (rev s1) as [|c r] eqn:E; [reflexivity|].
  destruct (c =? 95); [|exact H1].
  rewrite forallb_rev. rewrite <- forallb_rev, E in H1. cbn [forallb] in H1.
  apply andb_true_iff in H1 as [_ H1]. exact H1.
Qed.

Lemma reserved_col :
  forallb (fun w => negb (in_set (w ++ js "_col") RESERVED)) RESERVED = true.
Proof. vm_compute. reflexivity. Qed.

(** X10.  Whatever the name (and whatever [toLowerCase] does outside ASCII),
    [sanitizeName] returns a name that is not empty, holds only lower-case
    letters, digits and underscores, does not start with a digit and is none
    of the reserved words of its list. *)
Theorem sanitizeName_valid (lower : str -> str) (name : str) :
  valid_name (sanitizeName lower name).
Proof.
  unfold sanitizeName.
  assert (Hm : forallb is_name_char
                 (map (fun c => if is_name_char c then c else 95) (lower name))
               = true).
  { induction (lower name) as [|c l IH]; [reflexivity|]. cbn [map forallb].
    rewrite IH, andb_true_r. destruct (is_name_char c) eqn:E; [exact E | reflexivity]. }
  apply (collapse_from_name _ false) in Hm. fold (collapse_underscores
    (map (fun c => if is_name_char c then c else 95) (lower name))) in Hm.
  apply strip_underscores_name in Hm. revert Hm.
  generalize (strip_underscores
                (collapse_underscores
                   (map (fun c => if is_name_char c then c else 95) (lower name)))).
  intros clean Hc.
  assert (H1 : match (match clean with
                      | [] => js "col_" ++ clean
                      | c :: _ => if is_digit c then js "col_" ++ clean else clean
                      end) with
               | [] => False
               | c :: _ => is_digit c = false
               end
               /\ forallb is_name_char
                    (match clean with
                     | [] => js "col_" ++ clean
                     | c :: _ => if is_digit c then js "col_" ++ clean else clean
                     end) = true).
  { destruct clean as [|c r]; [split; reflexivity|].
    destruct (is_digit c) eqn:Ed; split; try reflexivity; try exact Ed;
      try exact Hc. }
  revert H1. generalize (match clean with
                         | [] => js "col_" ++ clean
                         | c :: _ => if is_digit c then js "col_" ++ clean else clean
                         end). intros n [Hh Hn].
  unfold valid_name.
  destruct (in_set n RESERVED) eqn:Er.
  - repeat split.
    + destruct n; [destruct Hh | exact Hh].
    + rewrite forallb_app, Hn. reflexivity.
    + apply in_set_In in Er.
      pose proof (proj1 (forallb_forall _ _) reserved_col n Er) as H.
      apply negb_true_iff in H. exact H.
  - repeat split; assumption.
Qed.

(** ** Lines of CSV *)

Lemma drop_while_id (s : str) :
  match s with c :: _ => is_space c = false | [] => True end ->
  drop_while is_space s = s.
Proof. destruct s as [|c s]; [reflexivity|]. cbn. intros ->. reflexivity. Qed.

Lemma trim_trimmed (s : str) : trimmed (trim s).
Proof.
  unfold trimmed.
  assert (Hh : match trim s with c :: _ => is_space c = false | [] => True end).
  { unfold trim. apply drop_while_head. }
  assert (He : trimEnd (trim s) = trim s).
  { destruct (trim s) as [|x l] eqn:E using rev_ind; [reflexivity|].
    unfold trimEnd. rewrite rev_unit. cbn [drop_while].
    rewrite (trim_last _ _ _ E). cbn [rev]. rewrite rev_involutive. reflexivity. }
  unfold trim at 1. rewrite He. apply drop_while_id, Hh.
Qed.

Lemma parseLine_loop_fields (delimiter : str) (n : nat) :
  forall line fields current inQuotes,
    (length line <= n)%nat ->
    exists more,
      parseLine_loop delimiter fields current inQuotes line = fields ++ more
      /\ more <> [] /\ Forall trimmed more.
Proof.
  induction n as [|n IH]; intros [|c rest] fields current inQuotes Hlen;
    cbn [length] in Hlen; try lia;
    try (exists [trim current]; repeat split;
         [discriminate | constructor; [apply trim_trimmed | constructor]]).
  cbn [parseLine_loop].
  assert (Hr : (length rest <= n)%nat) by lia.
  assert (Hpush : forall cur q l, (length l <= n)%nat ->
            exists more,
              parseLine_loop delimiter (fields ++ [trim current]) cur q l
              = fields ++ more /\ more <> [] /\ Forall trimmed more).
  { intros cur q l Hl.
    destruct (IH l (fields ++ [trim current]) cur q Hl) as (more & E & _ & Ht).
    exists (trim current :: more). rewrite E, <- app_assoc. repeat split.
    - discriminate.
    - constructor; [apply trim_trimmed | exact Ht]. }
  destruct inQuotes.
  - destruct (c =? 34); [|apply IH, Hr].
    destruct rest as [|c2 rest']; [apply IH, Hr|].
    destruct (c2 =? 34); [|apply IH, Hr].
    apply IH. cbn [length] in Hr. lia.
  - destruct (c =? 34); [apply IH, Hr|].
    destruct (str_eqb [c] delimiter); [apply Hpush, Hr | apply IH, Hr].
Qed.

Lemma parseLine_loop_count (d : char) (line : str) :
  forall fields current,
    existsb (N.eqb 34) line = false ->
    length (parseLine_loop [d] fields current false line)
    = (length fields + S (count_char d line))%nat.
Proof.
  induction line as [|c rest IH]; intros fields current H.
  - cbn. rewrite length_app. cbn. lia.
  - cbn [existsb] in H. apply orb_false_iff in H as [Hc Hr].
    cbn [parseLine_loop]. rewrite N.eqb_sym in Hc. rewrite Hc.
    unfold count_char. cbn [str_eqb filter]. rewrite andb_true_r.
    rewrite (N.eqb_sym d c).
    destruct (c =? d); rewrite (IH _ _ Hr); unfold count_char;
      rewrite ?length_app; cbn [length]; lia.
Qed.

(** X11.  [parseLine] always returns at least one field, every field is
    trimmed of white space at both ends, and on a line without a double quote
    it returns one field more than the delimiter occurs. *)
Theorem parseLine_fields (line delimiter : str) :
  parseLine line delimiter <> []
  /\ Forall trimmed (parseLine line delimiter)
  /\ (forall d, delimiter = [d] -> existsb (N.eqb 34) line = false ->
        length (parseLine line delimiter) = S (count_char d line)).
Proof.
  destruct (parseLine_loop_fields delimiter (length line) line [] [] false (le_n _))
    as (more & E & Hne & Ht).
  unfold parseLine. rewrite E. repeat split; [exact Hne | exact Ht|].
  intros d -> Hq. rewrite <- E. apply (parseLine_loop_count d line [] [] Hq).
Qed.

Lemma parseLine_fields_witness :
  length (parseLine (js "a, b ,c") (js ",")) = 3%nat.
Proof.
  exact (proj2 (proj2 (parseLine_fields (js "a, b ,c") (js ",")))
           44 eq_refl eq_refl).
Defined.

(** *** Rows written by [generateCopy] *)

Lemma includes_char (c : char) (s : str) :
  includes [c] s = existsb (N.eqb c) s.
Proof.
  unfold includes. induction s as [|x s IH]; [reflexivity|].
  cbn [indexOf starts_with existsb]. rewrite andb_true_r.
  destruct (c =? x); [reflexivity|]. cbn [orb]. rewrite <- IH.
  destruct (indexOf [c] s); reflexivity.
Qed.

Lemma parseLine_loop_plain (delimiter : str) (s : str) :
  forall fields current tail,
    existsb (N.eqb 34) s = false ->
    existsb (fun c => str_eqb [c] delimiter) s = false ->
    parseLine_loop delimiter fields current false (s ++ tail)
    = parseLine_loop delimiter fields (current ++ s) false tail.
Proof.
  induction s as [|c s IH]; intros fields current tail Hq Hd.
  - rewrite app_nil_r. reflexivity.
  - cbn [existsb] in Hq, Hd.
    apply orb_false_iff in Hq as [Hc Hq]. apply orb_false_iff in Hd as [Hcd Hd].
    cbn [app parseLine_loop]. rewrite N.eqb_sym in Hc. rewrite Hc, Hcd.
    rewrite (IH _ _ _ Hq Hd), <- app_assoc. reflexivity.
Qed.

Lemma parseLine_loop_quoted (delimiter : str) (s : str) :
  forall fields current tail,
    next_is 34 tail = false ->
    parseLine_loop delimiter fields current true
      (replace_char 34 [34; 34] s ++ 34 :: tail)
    = parseLine_loop delimiter fields (current ++ s) false tail.
Proof.
  induction s as [|c s IH]; intros fields current tail Ht.
  - rewrite app_nil_r. cbn [replace_char flat_map app parseLine_loop].
    rewrite N.eqb_refl. destruct tail as [|c2 tail']; [reflexivity|].
    cbn [next_is] in Ht. rewrite Ht. reflexivity.
  - unfold replace_char in *. cbn [flat_map].
    destruct (N.eqb_spec c 34) as [->|Hc].
    + cbn [app parseLine_loop]. rewrite N.eqb_refl.
      rewrite (IH _ _ _ Ht), <- app_assoc. reflexivity.
    + apply N.eqb_neq in Hc. cbn [app parseLine_loop]. rewrite Hc.
      rewrite (IH _ _ _ Ht), <- app_assoc. reflexivity.
Qed.

Lemma parseLine_loop_copy_field (v : jsval) :
  forall fields tail,
    next_is 34 tail = false ->
    parseLine_loop (js ",") fields [] false (copy_field v ++ tail)
    = parseLine_loop (js ",") fields (copy_text v) false tail.
Proof.
  intros fields tail Ht.
  assert (H : forall s,
    parseLine_loop (js ",") fields [] false
      ((if includes (js ",") s || includes [34] s || includes [10] s
        then [34] ++ replace_char 34 [34; 34] s ++ [34] else s) ++ tail)
    = parseLine_loop (js ",") fields s false tail).
  { intros s.
    destruct (includes (js ",") s || includes [34] s || includes [10] s) eqn:E.
    - rewrite <- !app_assoc. cbn [app parseLine_loop N.eqb Pos.eqb].
      apply (parseLine_loop_quoted _ s fields [] tail Ht).
    - apply orb_false_iff in E as [E _]. apply orb_false_iff in E as [Ec Eq].
      change (js ",") with [44] in Ec. rewrite includes_char in Ec, Eq.
      apply (parseLine_loop_plain _ s fields [] tail Eq).
      transitivity (existsb (N.eqb 44) s); [|exact Ec].
      clear. induction s as [|c s IH]; [reflexivity|].
      cbn [existsb]. rewrite IH. f_equal. cbn. rewrite andb_true_r.
      apply N.eqb_sym. }
  destruct v; cbn [copy_field copy_text]; try reflexivity; apply H.
Qed.

Lemma parseLine_loop_copy_row (vals : list jsval) :
  forall fields,
    vals <> [] ->
    parseLine_loop (js ",") fields [] false (join (js ",") (map copy_field vals))
    = fields ++ map (fun v => trim (copy_text v)) vals.
Proof.
  induction vals as [|v vals IH]; intros fields Hne; [congruence|].
  destruct vals as [|v' vals'].
  - cbn [map join]. rewrite <- (app_nil_r (copy_field v)).
    rewrite (parseLine_loop_copy_field v fields [] eq_refl). reflexivity.
  - change (join (js ",") (map copy_field (v :: v' :: vals')))
      with (copy_field v ++ 44 :: join (js ",") (map copy_field (v' :: vals'))).
    rewrite (parseLine_loop_copy_field v fields
               (44 :: join (js ",") (map copy_field (v' :: vals'))) eq_refl).
    change (parseLine_loop (js ",") fields (copy_text v) false
              (44 :: join (js ",") (map copy_field (v' :: vals'))))
      with (parseLine_loop (js ",") (fields ++ [trim (copy_text v)]) [] false
              (join (js ",") (map copy_field (v' :: vals')))).
    rewrite IH by discriminate. cbn [map]. rewrite <- app_assoc. reflexivity.
Qed.

(** X12.  What [generateCopy] writes, [parseLine] reads back: a row of one or
    more values, each quoted by [generateCopy] where it holds a comma, a
    double quote or a newline, and joined by commas, parses into the texts of
    the values, one field each, trimmed. *)
Theorem copy_row_parses (vals : list jsval) :
  vals <> [] ->
  parseLine (join (js ",") (map copy_field vals)) (js ",")
  = map (fun v => trim (copy_text v)) vals.
Proof. intros H. apply (parseLine_loop_copy_row vals [] H). Qed.

Lemma copy_row_parses_witness :
  parseLine
    (join (js ",") (map copy_field [JStr (js "a,b"); JNull; JStr (js " x ")]))
    (js ",")
  = [js "a,b"; []; js "x"].
Proof.
  exact (copy_row_parses [JStr (js "a,b"); JNull; JStr (js " x ")]
           ltac:(discriminate)).
Defined.

(** ** Batches of [INSERT] *)

Lemma batches_spec {A : Type} (b : nat) (rows : list A) :
  (0 < b)%nat ->
  forall fuel i,
    (length rows - i <= fuel)%nat ->
    concat (batches b fuel i rows) = skipn i rows
    /\ Forall (fun batch => (1 <= length batch <= b)%nat) (batches b fuel i rows)
    /\ length (batches b fuel i rows) = ((length rows - i + (b - 1)) / b)%nat.
Proof.
  intros Hb. induction fuel as [|fuel IH]; intros i Hf; cbn [batches].
  - destruct (Nat.ltb_spec i (length rows)); [lia|].
    repeat split; [rewrite skipn_all2 by lia; reflexivity | constructor|].
    replace (length rows - i)%nat with O by lia.
    symmetry. apply Nat.div_small. lia.
  - destruct (Nat.ltb_spec i (length rows)) as [Hi|Hi].
    + destruct (IH (i + b)%nat) as (Hc & Hall & Hlen); [lia|].
      cbn [concat length]. repeat split.
      * rewrite Hc, Nat.add_comm, <- skipn_skipn. apply firstn_skipn.
      * constructor; [|exact Hall].
        rewrite length_firstn, length_skipn. lia.
      * rewrite Hlen.
        destruct (Nat.le_gt_cases b (length rows - i)) as [Hge|Hlt].
        -- replace (length rows - i + (b - 1))%nat
             with ((length rows - (i + b) + (b - 1)) + 1 * b)%nat by lia.
           rewrite Nat.div_add by lia. lia.
        -- replace (length rows - (i + b))%nat with O by lia.
           rewrite (Nat.div_small (0 + (b - 1)) b) by lia.
           apply (Nat.div_unique _ _ 1 (length rows - i - 1)); lia.
    + repeat split; [rewrite skipn_all2 by lia; reflexivity | constructor|].
      replace (length rows - i)%nat with O by lia.
      symmetry. apply Nat.div_small. lia.
Qed.

(** X13.  The batches of [generateInserts] partition the rows: taken in
    order they are the rows, each holds between 1 and 100 rows, and there are
    [ceil (n / 100)] of them for [n] rows; without rows the result is the
    empty text. *)
Theorem generateInserts_batches (lower : str -> str) (tableName : str)
    (headers : list str) (rows : list (str -> jsval)) (colName : str -> str)
    (schema : option str) :
  concat (batches 100 (length rows) 0 rows) = rows
  /\ Forall (fun batch => (1 <= length batch <= 100)%nat)
       (batches 100 (length rows) 0 rows)
  /\ length (batches 100 (length rows) 0 rows) = ((length rows + 99) / 100)%nat
  /\ (rows = [] ->
      generateInserts lower tableName headers rows colName schema = []).
Proof.
  destruct (batches_spec 100 rows ltac:(lia) (length rows) 0 ltac:(lia))
    as (Hc & Hall & Hlen).
  rewrite Nat.sub_0_r in Hlen. repeat split; try assumption.
  intros ->. reflexivity.
Qed.

(** ** [parseCSV] *)

Lemma split_lines_length (s : str) :
  forall current, length (split_lines current s) = S (count_char 10 s).
Proof.
  assert (H : forall n s current, (length s <= n)%nat ->
              length (split_lines current s) = S (count_char 10 s)).
  { clear s. induction n as [|n IH]; intros [|c r] current Hlen;
      cbn [length] in Hlen; try reflexivity; try lia.
    cbn [split_lines]. unfold count_char. cbn [filter].
    rewrite (N.eqb_sym 10 c).
    destruct (N.eqb_spec c 10) as [->|Hc].
    - cbn [length]. rewrite (IH r) by lia. reflexivity.
    - destruct r as [|c2 r']; [rewrite (IH []) by (cbn; lia); reflexivity|].
      destruct (N.eqb_spec c 13) as [->|Hc13]; cbn [andb].
      + destruct (N.eqb_spec c2 10) as [->|Hc2].
        * cbn [length filter N.eqb Pos.eqb]. rewrite (IH r') by (cbn in Hlen; lia).
          reflexivity.
        * rewrite (IH (c2 :: r')) by lia. reflexivity.
      + rewrite (IH (c2 :: r')) by lia. reflexivity. }
  intros current. apply (H (length s)). lia.
Qed.

Lemma own_put (key v : str) (o : obj) (h : str) :
  own (obj_put key v o) h = if str_eqb key h then Some v else own o h.
Proof.
  induction o as [|[k x] o IH]; cbn [obj_put own].
  - reflexivity.
  - destruct (str_eqb k key) eqn:E; cbn [own].
    + apply str_eqb_eq in E. subst k. destruct (str_eqb key h); reflexivity.
    + rewrite IH. destruct (str_eqb k h) eqn:E'; [|reflexivity].
      apply str_eqb_eq in E'. subst k.
      destruct (str_eqb key h) eqn:E''; [|reflexivity].
      apply str_eqb_eq in E''. subst key. rewrite str_eqb_refl in E.
      discriminate.
Qed.

Lemma own_assign (key v : str) (o : obj) (h : str) :
  own (obj_assign key v o) h
  = if str_eqb key (js "__proto__") then own o h
    else if str_eqb key h then Some v else own o h.
Proof.
  unfold obj_assign. destruct (str_eqb key (js "__proto__")); [reflexivity|].
  apply own_put.
Qed.

(** The own properties after the loop over the headers: a property is new
    exactly for a header other than [__proto__], and its value is the field of
    the last column with that header, the empty string when the line has no
    such field. *)
Lemma row_loop_own (headers : list str) :
  forall (values : list str) (row : obj) (h : str),
    (own (row_loop headers values row) h <> None <->
     own row h <> None \/ (In h headers /\ h <> js "__proto__"))
    /\ forall v,
         own (row_loop headers values row) h = Some v ->
         (exists pre post,
             headers = pre ++ h :: post /\ ~ In h post
             /\ v = nth (length pre) values [])
         \/ (own row h = Some v /\ (In h headers -> h = js "__proto__")).
Proof.
  induction headers as [|k hs IH]; intros values row h.
  - cbn [row_loop In]. split; [tauto|]. intros v Hv. right.
    split; [exact Hv | tauto].
  - assert (E : row_loop (k :: hs) values row
                = row_loop hs (tl values) (obj_assign k (hd [] values) row))
      by (destruct values; reflexivity).
    rewrite E. destruct (IH (tl values) (obj_assign k (hd [] values) row) h)
      as [IH1 IH2].
    rewrite own_assign in IH1, IH2.
    assert (Hnth : forall n, nth n (tl values) [] = nth (S n) values [])
      by (intros n; destruct values; [destruct n|]; reflexivity).
    assert (Hhd : hd [] values = nth 0 values [])
      by (destruct values; reflexivity).
    split.
    + rewrite IH1. cbn [In].
      destruct (str_eqb k (js "__proto__")) eqn:Ep.
      * apply str_eqb_eq in Ep. subst k. split.
        -- intros [H | [H1 H2]]; [left; exact H | right; tauto].
        -- intros [H | [[H1 | H1] H2]];
             [left; exact H | congruence | right; tauto].
      * destruct (str_eqb k h) eqn:Eh.
        -- apply str_eqb_eq in Eh. subst k. split.
           ++ intros _. right. split; [left; reflexivity|].
              intros ->. rewrite str_eqb_refl in Ep. discriminate.
           ++ intros _. left. discriminate.
        -- assert (k <> h)
             by (intros ->; rewrite str_eqb_refl in Eh; discriminate).
           tauto.
    + intros v Hv.
      destruct (IH2 v Hv) as [(pre & post & -> & Hpost & ->) | [Ho Hn]].
      * left. exists (k :: pre), post. repeat split; [exact Hpost|].
        cbn [length]. apply Hnth.
      * destruct (str_eqb k (js "__proto__")) eqn:Ep.
        -- apply str_eqb_eq in Ep. subst k. right. split; [exact Ho|].
           cbn [In]. intros [F | F]; [symmetry; exact F | exact (Hn F)].
        -- destruct (str_eqb k h) eqn:Eh.
           ++ apply str_eqb_eq in Eh. subst k. injection Ho as <-.
              left. exists [], hs. repeat split; [|exact Hhd].
              intros F. apply Hn in F. subst h.
              rewrite str_eqb_refl in Ep. discriminate.
           ++ right. split; [exact Ho|]. cbn [In].
              intros [F | F]; [|exact (Hn F)].
              subst h. rewrite str_eqb_refl in Eh. discriminate.
Qed.

Lemma Forall2_map_of {A B : Type} (P : A -> B -> Prop) (f : A -> B)
    (l : list A) :
  (forall x, In x l -> P x (f x)) -> Forall2 P l (map f l).
Proof.
  induction l as [|x l IH]; intros H; cbn [map]; constructor.
  - apply H. left. reflexivity.
  - apply IH. intros y Hy. apply H. right. exact Hy.
Qed.

(** X14.  [parseCSV] throws exactly when the trimmed text holds no newline
    (fewer than two lines); otherwise it returns at least one header, the
    fields of the first line, and one object for every later line that is not
    blank, in order.  Whatever the number of fields of its line, the object
    has as own properties exactly the headers other than [__proto__] (an
    assignment to that key creates nothing); the value of a property is the
    field of the line in the last column with that header, and the empty
    string when the line has no field there.  The delimiter is the one given,
    when one is given. *)
Theorem parseCSV_shape (text : str) (delimiter : option str) :
  match parseCSV text delimiter with
  | Throw _ => existsb (N.eqb 10) (trim text) = false
  | Ok (headers, rows) =>
      existsb (N.eqb 10) (trim text) = true
      /\ headers <> []
      /\ exists d first rest,
           split_lines [] (trim text) = first :: rest
           /\ (forall c cs, delimiter = Some (c :: cs) -> d = c :: cs)
           /\ headers = parseLine first d
           /\ Forall2
                (fun line row =>
                   (forall h, own row h <> None
                              <-> In h headers /\ h <> js "__proto__")
                   /\ forall h v,
                        own row h = Some v ->
                        exists pre post,
                          headers = pre ++ h :: post /\ ~ In h post
                          /\ v = nth (length pre) (parseLine line d) [])
                (filter (fun l => negb (str_eqb (trim l) [])) rest) rows
  end.
Proof.
  unfold parseCSV.
  pose proof (split_lines_length (trim text) []) as Hl.
  assert (Hc : forall s, count_char 10 s = O <-> existsb (N.eqb 10) s = false).
  { clear. intros s. unfold count_char. induction s as [|c s IH]; [split; reflexivity|].
    cbn [filter existsb]. destruct (10 =? c); cbn [length orb];
      [split; discriminate | exact IH]. }
  destruct (split_lines [] (trim text)) as [|firstLine [|l2 ls]].
  - discriminate.
  - apply Hc. cbn [length] in Hl. lia.
  - split; [|split].
    + destruct (existsb (N.eqb 10) (trim text)) eqn:E; [reflexivity|].
      apply Hc in E. rewrite E in Hl. discriminate.
    + match goal with
      | |- parseLine ?l ?d <> [] =>
          destruct (parseLine_loop_fields d (length l) l [] [] false (le_n _))
            as (more & E & Hne & _);
          unfold parseLine; rewrite E; exact Hne
      end.
    + match goal with
      | |- context [parseLine firstLine ?d0] => exists d0
      end.
      exists firstLine, (l2 :: ls).
      split; [reflexivity|]. split.
      { intros c cs ->. reflexivity. }
      split; [reflexivity|].
      cbn [tl]. apply Forall2_map_of. intros l _. unfold row_of.
      match goal with
      | |- context [row_loop ?hs ?vs []] =>
          pose proof (fun h => row_loop_own hs vs [] h) as Hrow
      end.
      split.
      * intros h. destruct (Hrow h) as [H1 _]. rewrite H1. cbn [own].
        split; [intros [F | F]; [congruence | exact F] | intros F; right; exact F].
      * intros h v Hv. destruct (Hrow h) as [_ H2].
        destruct (H2 v Hv) as [H | [F _]]; [exact H | discriminate F].
Qed.

(** ** The type of a column *)

Lemma pgtype_eqb_eq (a b : pgtype) : pgtype_eqb a b = true <-> a = b.
Proof. destruct a, b; simpl; split; congruence. Qed.

Lemma has_type_In (t : pgtype) (l : list pgtype) :
  has_type t l = true <-> In t l.
Proof.
  unfold has_type. rewrite existsb_exists. split.
  - intros (x & Hx & E). apply pgtype_eqb_eq in E. subst. exact Hx.
  - intros H. exists t. split; [exact H | apply pgtype_eqb_eq; reflexivity].
Qed.

Lemma uniq_In (l : list pgtype) (t : pgtype) :
  In t (uniq pgtype_eqb l) <-> In t l.
Proof.
  induction l as [|x l IH]; simpl; [tauto|].
  rewrite filter_In, IH. split.
  - intros [H | [H _]]; auto.
  - intros [H | H]; auto.
    destruct (pgtype_eqb x t) eqn:E.
    + apply pgtype_eqb_eq in E. auto.
    + right. split; [exact H | reflexivity].
Qed.

Lemma uniq_NoDup (l : list pgtype) : NoDup (uniq pgtype_eqb l).
Proof.
  induction l as [|x l IH]; simpl; constructor.
  - rewrite filter_In. intros [_ H].
    assert (E : pgtype_eqb x x = true) by (apply pgtype_eqb_eq; reflexivity).
    rewrite E in H. discriminate.
  - apply NoDup_filter. exact IH.
Qed.

Lemma forallb_perm {A : Type} (p : A -> bool) (l l' : list A) :
  Permutation l l' -> forallb p l = forallb p l'.
Proof.
  induction 1; simpl; try congruence.
  destruct (p x), (p y); reflexivity.
Qed.

Lemma existsb_perm {A : Type} (p : A -> bool) (l l' : list A) :
  Permutation l l' -> existsb p l = existsb p l'.
Proof.
  induction 1; simpl; try congruence.
  destruct (p x), (p y); reflexivity.
Qed.

Lemma resolve_unique_perm (u u' : list pgtype) :
  Permutation u u' -> resolve_unique u = resolve_unique u'.
Proof.
  intros P.
  destruct u as [|a [|b u]].
  - apply Permutation_nil in P. subst. reflexivity.
  - apply Permutation_length_1_inv in P. subst. reflexivity.
  - destruct u' as [|a' [|b' u']];
      try (apply Permutation_length in P; simpl in P; discriminate).
    unfold resolve_unique, has_type.
    rewrite !(forallb_perm _ _ _ P), !(existsb_perm _ _ _ P). reflexivity.
Qed.

Lemma all_types_complete (t : pgtype) : In t all_types.
Proof. destruct t; simpl; tauto. Qed.

Lemma all_types_NoDup : NoDup all_types.
Proof.
  unfold all_types.
  repeat (constructor; [simpl; intuition discriminate|]). constructor.
Qed.

(** [resolveType] is a function of the set of the types it is given. *)
Lemma resolveType_canonical (types : list (option pgtype)) :
  resolveType types
  = resolve_unique (filter (fun t => seen t types) all_types).
Proof.
  unfold resolveType. apply resolve_unique_perm.
  apply NoDup_Permutation.
  - apply uniq_NoDup.
  - apply NoDup_filter, all_types_NoDup.
  - intros t. rewrite uniq_In, filter_In. unfold seen.
    rewrite has_type_In. split; [|tauto].
    intros H. split; [apply all_types_complete | exact H].
Qed.

Ltac split_members m :=
  repeat match goal with
         | |- context [m ?x] => destruct (m x)
         end.

Lemma resolve_members_widens (m : pgtype -> bool) (t : pgtype) :
  m pg_boolean = false -> m t = true ->
  widens t (resolve_unique (filter m all_types)) = true.
Proof.
  intros Hb Ht. unfold all_types. cbn [filter].
  destruct t; rewrite ?Hb, ?Ht; try congruence;
    split_members m; reflexivity.
Qed.

Lemma resolve_members_seen (m : pgtype -> bool) (t : pgtype) :
  m t = true ->
  (forall x, m x = true ->
             has_type x [pg_smallint; pg_integer; pg_bigint; pg_numeric]
             = true) ->
  m (resolve_unique (filter m all_types)) = true.
Proof.
  intros Ht H.
  assert (H1 : m pg_boolean = false)
    by (destruct (m pg_boolean) eqn:E; [discriminate (H _ E) | reflexivity]).
  assert (H2 : m pg_date = false)
    by (destruct (m pg_date) eqn:E; [discriminate (H _ E) | reflexivity]).
  assert (H3 : m pg_timestamp = false)
    by (destruct (m pg_timestamp) eqn:E; [discriminate (H _ E) | reflexivity]).
  assert (H4 : m pg_timestamptz = false)
    by (destruct (m pg_timestamptz) eqn:E;
        [discriminate (H _ E) | reflexivity]).
  assert (H5 : m pg_uuid = false)
    by (destruct (m pg_uuid) eqn:E; [discriminate (H _ E) | reflexivity]).
  assert (H6 : m pg_jsonb = false)
    by (destruct (m pg_jsonb) eqn:E; [discriminate (H _ E) | reflexivity]).
  assert (H7 : m pg_text = false)
    by (destruct (m pg_text) eqn:E; [discriminate (H _ E) | reflexivity]).
  clear H. unfold all_types. cbn [filter].
  rewrite H1, H2, H3, H4, H5, H6, H7.
  destruct (m pg_smallint) eqn:E1, (m pg_integer) eqn:E2,
    (m pg_bigint) eqn:E3, (m pg_numeric) eqn:E4; simpl; try assumption.
  destruct t; congruence.
Qed.

Lemma resolve_members_mix (m : pgtype -> bool) :
  m pg_boolean = true ->
  (forall x, m x = true ->
             has_type x [pg_boolean; pg_smallint; pg_integer; pg_bigint]
             = true) ->
  m pg_smallint || m pg_integer || m pg_bigint = true ->
  resolve_unique (filter m all_types) = pg_smallint.
Proof.
  intros Hb H Hi.
  assert (H1 : m pg_numeric = false)
    by (destruct (m pg_numeric) eqn:E; [discriminate (H _ E) | reflexivity]).
  assert (H2 : m pg_date = false)
    by (destruct (m pg_date) eqn:E; [discriminate (H _ E) | reflexivity]).
  assert (H3 : m pg_timestamp = false)
    by (destruct (m pg_timestamp) eqn:E; [discriminate (H _ E) | reflexivity]).
  assert (H4 : m pg_timestamptz = false)
    by (destruct (m pg_timestamptz) eqn:E;
        [discriminate (H _ E) | reflexivity]).
  assert (H5 : m pg_uuid = false)
    by (destruct (m pg_uuid) eqn:E; [discriminate (H _ E) | reflexivity]).
  assert (H6 : m pg_jsonb = false)
    by (destruct (m pg_jsonb) eqn:E; [discriminate (H _ E) | reflexivity]).
  assert (H7 : m pg_text = false)
    by (destruct (m pg_text) eqn:E; [discriminate (H _ E) | reflexivity]).
  clear H. unfold all_types. cbn [filter].
  rewrite Hb, H1, H2, H3, H4, H5, H6, H7.
  destruct (m pg_smallint), (m pg_integer), (m pg_bigint);
    try discriminate; reflexivity.
Qed.

(** X15.  [resolveType] looks only at which types occur in the column: two
    lists of types with the same non-null members give the same type,
    whatever the order, the repetitions and the nulls. *)
Theorem resolveType_set (l1 l2 : list (option pgtype)) :
  (forall t, seen t l1 = seen t l2) ->
  resolveType l1 = resolveType l2.
Proof.
  intros H. rewrite !resolveType_canonical.
  f_equal. apply filter_ext. exact H.
Qed.

Lemma resolveType_set_witness :
  resolveType [Some pg_integer; None; Some pg_smallint; Some pg_integer]
  = resolveType [Some pg_smallint; Some pg_integer].
Proof.
  apply resolveType_set. intros t. destruct t; reflexivity.
Defined.

(** X16.  Without a boolean among the values, the type [resolveType] gives a
    column stores every value of the column: it widens each type that
    occurs. *)
Theorem resolveType_widens (types : list (option pgtype)) (t : pgtype) :
  seen pg_boolean types = false ->
  seen t types = true ->
  widens t (resolveType types) = true.
Proof.
  intros Hb Ht. rewrite resolveType_canonical.
  apply (resolve_members_widens (fun x => seen x types)); assumption.
Qed.

Lemma resolveType_widens_witness :
  widens pg_integer
    (resolveType [Some pg_integer; None; Some pg_numeric; Some pg_smallint])
  = true.
Proof.
  apply resolveType_widens; reflexivity.
Defined.

(** X17.  A column where a boolean occurs beside integers, and nothing else,
    is given [smallint], also when an [integer] or a [bigint] occurs: here
    the type of the column is narrower than the type of some of its
    values. *)
Theorem resolveType_boolean_mix (types : list (option pgtype)) :
  seen pg_boolean types = true ->
  (forall t, seen t types = true -> t = pg_boolean \/ is_int_type t = true) ->
  (exists t, seen t types = true /\ is_int_type t = true) ->
  resolveType types = pg_smallint.
Proof.
  intros Hb H (t & Ht & Hi). rewrite resolveType_canonical.
  apply (resolve_members_mix (fun x => seen x types)).
  - exact Hb.
  - intros x Hx. destruct (H x Hx) as [E | E].
    + subst. reflexivity.
    + destruct x; try discriminate; reflexivity.
  - destruct t; try discriminate Hi; rewrite Ht, ?orb_true_r; reflexivity.
Qed.

Lemma resolveType_boolean_mix_witness :
  resolveType [Some pg_bigint; Some pg_boolean; None] = pg_smallint.
Proof.
  apply resolveType_boolean_mix.
  - reflexivity.
  - intros t. destruct t; simpl; intros H; try discriminate; auto.
  - exists pg_bigint. split; reflexivity.
Defined.

(** ** The type of a value *)

Lemma match_classes_nth (classes : list (char -> bool)) :
  forall (s r : str) (i : nat) (p : char -> bool),
    match_classes classes s = Some r ->
    nth_error classes i = Some p ->
    exists c, nth_error s i = Some c /\ p c = true.
Proof.
  induction classes as [|q classes IH]; intros s r i p H Hi.
  - destruct i; discriminate.
  - simpl in H. destruct s as [|c s]; [discriminate|].
    destruct (q c) eqn:Eq; [|discriminate].
    destruct i as [|i]; simpl in Hi |- *.
    + injection Hi as <-. exists c. split; [reflexivity | exact Eq].
    + eapply IH; eassumption.
Qed.

Lemma INTEGER_RE_digits (v : str) (i : nat) (c : char) :
  INTEGER_RE v = true -> nth_error v (S i) = Some c -> is_digit c = true.
Proof.
  unfold INTEGER_RE. intros H Hi.
  apply andb_true_iff in H. destruct H as [_ H].
  destruct v as [|c0 r]; [discriminate|]. simpl in Hi.
  assert (Hr : forallb is_digit r = true).
  { unfold after_minus in H. destruct (c0 =? 45); [exact H|].
    simpl in H. apply andb_true_iff in H. tauto. }
  rewrite forallb_forall in Hr. apply Hr.
  eapply nth_error_In. exact Hi.
Qed.

Lemma INTEGER_RE_not_UUID (v : str) : INTEGER_RE v = true -> UUID_RE v = false.
Proof.
  intros H. destruct (UUID_RE v) eqn:E; [|reflexivity].
  unfold UUID_RE, at_end in E.
  match type of E with
  | context [match_classes ?cs v] =>
      destruct (match_classes cs v) as [r|] eqn:M; [|discriminate];
      destruct (match_classes_nth cs v r 8 (is_char 45) M eq_refl)
        as (c & Hc & Ec)
  end.
  pose proof (INTEGER_RE_digits v 7 c H Hc) as Hd.
  unfold is_char in Ec. apply N.eqb_eq in Ec. subst c. discriminate.
Qed.

Lemma INTEGER_RE_nonempty (v : str) : INTEGER_RE v = true -> v <> [].
Proof. intros H E. subst. discriminate. Qed.

Section DetectorFacts.

Variable lower : str -> str.
Variable date_valid : str -> bool.
Variable json_valid : str -> bool.

Lemma detectType_None (v : jsval) :
  detectType lower date_valid json_valid v = None <-> not_blank v = false.
Proof.
  unfold detectType, not_blank.
  destruct v as [| |s|s]; simpl is_nullish; cbv iota.
  - tauto.
  - tauto.
  - destruct s as [|c s]; [simpl; tauto|].
    cbn [String_of]. destruct (trim (c :: s)) as [|x y] eqn:E.
    + simpl. tauto.
    + split; [|discriminate].
      repeat match goal with
             | |- context [if ?b then _ else _] => destruct b
             end; discriminate.
  - cbn [String_of]. destruct (trim s) as [|x y] eqn:E.
    + simpl. tauto.
    + split; [|discriminate].
      repeat match goal with
             | |- context [if ?b then _ else _] => destruct b
             end; discriminate.
Qed.

Lemma detectType_integer (v : jsval) :
  INTEGER_RE (value_text v) = true ->
  exists t, detectType lower date_valid json_valid v = Some t
            /\ has_type t [pg_smallint; pg_integer; pg_bigint; pg_numeric]
               = true
            /\ fits (BigInt (value_text v)) t = true.
Proof.
  unfold value_text. intros H.
  assert (Hn : is_nullish v = false).
  { destruct v as [| |s|s]; try reflexivity;
      try (vm_compute in H; discriminate).
    destruct s; [vm_compute in H; discriminate | reflexivity]. }
  unfold detectType. rewrite Hn.
  pose proof (INTEGER_RE_nonempty _ H) as Hne.
  pose proof (INTEGER_RE_not_UUID _ H) as Hu.
  destruct (trim (String_of v)) as [|x y] eqn:E; [congruence|].
  rewrite Hu, H. cbv zeta.
  set (n := BigInt (x :: y)).
  destruct ((-32768 <=? n) && (n <=? 32767))%Z eqn:E1;
    [exists pg_smallint; repeat split; exact E1|].
  destruct ((-2147483648 <=? n) && (n <=? 2147483647))%Z eqn:E2;
    [exists pg_integer; repeat split; exact E2|].
  destruct ((-9223372036854775808 <=? n)
            && (n <=? 9223372036854775807))%Z eqn:E3;
    [exists pg_bigint; repeat split; exact E3|].
  exists pg_numeric. repeat split.
Qed.

Lemma seen_map (f : jsval -> option pgtype) (t : pgtype) (values : list jsval) :
  seen t (map f values) = true <-> exists v, In v values /\ f v = Some t.
Proof.
  unfold seen. rewrite has_type_In.
  induction values as [|v values IH]; simpl.
  - split; [tauto | intros (v & [] & _)].
  - destruct (f v) as [x|] eqn:E; simpl; rewrite IH; split.
    + intros [-> | (w & Hw & Ew)]; [exists v; auto | exists w; auto].
    + intros (w & [-> | Hw] & Ew); [left; congruence | right; exists w; auto].
    + intros (w & Hw & Ew). exists w; auto.
    + intros (w & [-> | Hw] & Ew); [congruence | exists w; auto].
Qed.

Lemma null_count (values : list jsval) :
  length (filter (fun t : option pgtype =>
                    match t with None => true | Some _ => false end)
            (map (detectType lower date_valid json_valid) values))
  = length (filter (fun v => negb (not_blank v)) values).
Proof.
  induction values as [|v values IH]; [reflexivity|]. simpl.
  pose proof (detectType_None v) as H.
  destruct (detectType lower date_valid json_valid v) as [t|].
  - destruct (not_blank v); simpl; [exact IH|].
    destruct H as [_ H]. discriminate (H eq_refl).
  - destruct H as [H _]. rewrite (H eq_refl). simpl. rewrite IH. reflexivity.
Qed.

Lemma filter_split_length {A : Type} (p : A -> bool) (l : list A) :
  (length (filter (fun x => negb (p x)) l) + length (filter p l))%nat
  = length l.
Proof.
  induction l as [|x l IH]; [reflexivity|]. simpl.
  destruct (p x); simpl; lia.
Qed.

Lemma fits_widens (n : Z) (a b : pgtype) :
  fits n a = true -> widens a b = true ->
  has_type b [pg_smallint; pg_integer; pg_bigint; pg_numeric] = true ->
  fits n b = true.
Proof.
  destruct a, b; simpl; try discriminate; try reflexivity; intros H _ _;
    try exact H;
    apply andb_true_iff in H; destruct H as [H1 H2];
    apply Z.leb_le in H1; apply Z.leb_le in H2;
    apply andb_true_iff; split; apply Z.leb_le; lia.
Qed.

End DetectorFacts.

(** X18.  [detectType] does not look at the white space around a text: a
    text and the same text trimmed are given the same type. *)
Theorem detectType_trim
  (lower : str -> str) (date_valid json_valid : str -> bool) (s : str) :
  detectType lower date_valid json_valid (JStr s)
  = detectType lower date_valid json_valid (JStr (trim s)).
Proof.
  unfold detectType. destruct s as [|c s]; [reflexivity|].
  cbn [is_nullish String_of].
  destruct (trim (c :: s)) as [|x y] eqn:E; [reflexivity|].
  cbn [is_nullish].
  pose proof (trim_trimmed (c :: s)) as T. unfold trimmed in T.
  rewrite E in T. rewrite T. reflexivity.
Qed.

(** X19.  In the analysis of a column, the values that get no type are the
    blank ones (null, undefined, or white space only), which are the values
    left out of the uniqueness test: the null count and the number of values
    that test looks at add up to the sample size; the column is nullable
    exactly when some value is blank; and a column of blank values only is
    [text] and not unique. *)
Theorem analyzeColumn_counts
  (lower : str -> str) (date_valid json_valid : str -> bool)
  (values : list jsval) :
  let c := analyzeColumn lower date_valid json_valid values in
  nullCount c = length (filter (fun v => negb (not_blank v)) values)
  /\ (nullCount c + length (filter not_blank values))%nat = sampleSize c
  /\ (nullable c = true <-> exists v, In v values /\ not_blank v = false)
  /\ (Forall (fun v => not_blank v = false) values ->
      pgType c = pg_text /\ isUnique c = false).
Proof.
  cbv zeta. unfold analyzeColumn. cbn [nullCount sampleSize nullable pgType isUnique].
  rewrite null_count. split; [reflexivity|].
  split; [apply filter_split_length|]. split.
  - rewrite Nat.ltb_lt. split.
    + intros H.
      destruct (filter (fun v => negb (not_blank v)) values) as [|v l] eqn:E;
        [simpl in H; lia|].
      assert (Hv : In v (filter (fun v => negb (not_blank v)) values))
        by (rewrite E; left; reflexivity).
      apply filter_In in Hv. destruct Hv as [Hv Hb].
      exists v. split; [exact Hv|]. destruct (not_blank v); [discriminate|reflexivity].
    + intros (v & Hv & Hb).
      assert (Hi : In v (filter (fun v => negb (not_blank v)) values))
        by (apply filter_In; rewrite Hb; auto).
      destruct (filter (fun v => negb (not_blank v)) values);
        [destruct Hi | simpl; lia].
  - intros H.
    assert (E1 : filter not_blank values = []).
    { induction H as [|v l Hv _ IH]; [reflexivity|]. simpl. rewrite Hv. exact IH. }
    assert (E2 : non_null (map (detectType lower date_valid json_valid) values) = []).
    { clear E1. induction H as [|v l Hv _ IH]; [reflexivity|]. simpl.
      apply (detectType_None lower date_valid json_valid) in Hv. rewrite Hv. exact IH. }
    rewrite E1. unfold resolveType. rewrite E2. split; reflexivity.
Qed.

(** X20.  A column of integer literals: every value matches [-?\d+] once
    trimmed.  The column is not nullable; its type is the type of one of its
    values; and the number each value denotes is in the range of that
    type. *)
Theorem analyzeColumn_integers
  (lower : str -> str) (date_valid json_valid : str -> bool)
  (values : list jsval) :
  values <> [] ->
  Forall (fun v => INTEGER_RE (value_text v) = true) values ->
  let c := analyzeColumn lower date_valid json_valid values in
  nullable c = false
  /\ (exists v, In v values
                /\ detectType lower date_valid json_valid v = Some (pgType c))
  /\ Forall (fun v => fits (BigInt (value_text v)) (pgType c) = true) values.
Proof.
  intros Hne H. cbv zeta. unfold analyzeColumn. cbn [nullable pgType].
  rewrite Forall_forall in H.
  set (types := map (detectType lower date_valid json_valid) values).
  assert (Hfam : forall x, seen x types = true ->
                 has_type x [pg_smallint; pg_integer; pg_bigint; pg_numeric]
                 = true).
  { intros x Hx. apply seen_map in Hx. destruct Hx as (v & Hv & Ev).
    destruct (detectType_integer lower date_valid json_valid v (H v Hv))
      as (t & Et & Ht & _). congruence. }
  assert (Hb : seen pg_boolean types = false).
  { destruct (seen pg_boolean types) eqn:E; [|reflexivity].
    discriminate (Hfam _ E). }
  assert (Hseen : seen (resolveType types) types = true).
  { destruct values as [|v0 values']; [congruence|].
    destruct (detectType_integer lower date_valid json_valid v0
                (H v0 (or_introl eq_refl))) as (t0 & Et0 & _ & _).
    assert (H0 : seen t0 types = true)
      by (apply seen_map; exists v0; split; [left; reflexivity | exact Et0]).
    rewrite resolveType_canonical.
    exact (resolve_members_seen (fun x => seen x types) t0 H0 Hfam). }
  split; [|split].
  - unfold types. rewrite null_count. apply Nat.ltb_ge.
    assert (E : filter (fun v => negb (not_blank v)) values = []).
    { clear Hne Hfam Hb Hseen types. induction values as [|v l IH]; [reflexivity|]. simpl.
      destruct (detectType_integer lower date_valid json_valid v
                  (H v (or_introl eq_refl))) as (t & Et & _ & _).
      destruct (not_blank v) eqn:Eb.
      - simpl. apply IH. intros w Hw. apply H. right. exact Hw.
      - apply (detectType_None lower date_valid json_valid) in Eb. congruence. }
    rewrite E. simpl. lia.
  - apply seen_map in Hseen. exact Hseen.
  - apply Forall_forall. intros v Hv.
    destruct (detectType_integer lower date_valid json_valid v (H v Hv))
      as (t & Et & Ht & Hf).
    assert (Hs : seen t types = true)
      by (apply seen_map; exists v; split; assumption).
    apply (fits_widens _ t); [exact Hf | | apply Hfam; exact Hseen].
    rewrite resolveType_canonical.
    exact (resolve_members_widens (fun x => seen x types) t Hb Hs).
Qed.

Lemma analyzeColumn_integers_witness :
  let c := analyzeColumn toLowerCase (fun _ => true) (fun _ => true)
             [JStr (js " 7 "); JStr (js "-40000"); JOther (js "12")] in
  nullable c = false
  /\ (exists v, In v [JStr (js " 7 "); JStr (js "-40000"); JOther (js "12")]
                /\ detectType toLowerCase (fun _ => true) (fun _ => true) v
                   = Some (pgType c))
  /\ Forall (fun v => fits (BigInt (value_text v)) (pgType c) = true)
       [JStr (js " 7 "); JStr (js "-40000"); JOther (js "12")].
Proof.
  apply analyzeColumn_integers.
  - discriminate.
  - repeat constructor.
Defined.

(** * Formatting a formatted text

    The formatter prints a token sequence so that the text lexes back to it,
    unless it glues two tokens that lex differently together or a token was
    cut short by the end of the input. *)

(** ** Scanning a text that something else follows *)

(** Rewriting up to the names [char] and [str] of the types. *)
Ltac rw L :=
  let Q := fresh "Q" in
  pose proof L as Q; cbn [app length] in Q; unfold str in Q; unfold char in Q;
  unfold str; unfold char; rewrite Q; clear Q.
Ltac norm := unfold str in *; unfold char in *.

Lemma token_eqb_eq (a b : token) : token_eqb a b = true <-> a = b.
Proof.
  unfold token_eqb. destruct a as [ta va oa], b as [tb vb ob]. cbn.
  rewrite !andb_true_iff. split.
  - intros [[Ht Hv] Ho]. apply str_eqb_eq in Hv.
    assert (ta = tb) by (destruct ta, tb; try discriminate; reflexivity).
    subst. destruct oa as [x|], ob as [y|]; try discriminate; [|reflexivity].
    apply str_eqb_eq in Ho. subst. reflexivity.
  - intros E. injection E as -> -> ->. repeat split.
    + destruct tb; reflexivity.
    + apply str_eqb_refl.
    + destruct ob; [apply str_eqb_refl | reflexivity].
Qed.

Lemma firstn_app_exact (a b : str) : firstn (length a) (a ++ b) = a.
Proof.
  rewrite firstn_app, Nat.sub_diag, firstn_all. apply app_nil_r.
Qed.

Lemma firstn_cons_exact (x : char) (a b : str) :
  firstn (S (length a)) (x :: a ++ b) = x :: a.
Proof. cbn [firstn]. rewrite firstn_app_exact. reflexivity. Qed.

Lemma skipn_app_exact (a b : str) : skipn (length a) (a ++ b) = b.
Proof.
  rewrite skipn_app, Nat.sub_diag, skipn_all. reflexivity.
Qed.

(** A prefix of [a ++ [x]] that is [a] has the length of [a]. *)
Lemma firstn_is_prefix (a : str) (x : char) (m : nat) :
  firstn m (a ++ [x]) = a -> m = length a.
Proof.
  intros H. apply (f_equal (@length char)) in H.
  rewrite length_firstn, length_app in H. cbn [length] in H. lia.
Qed.

Lemma run_le (p : char -> bool) (s : str) : (run p s <= length s)%nat.
Proof.
  induction s as [|c s IH]; cbn; [lia|]. destruct (p c); cbn; lia.
Qed.

Lemma run_stop (p : char -> bool) (a : str) (x : char) (b : str) :
  p x = false -> (run p (a ++ x :: b) <= length a)%nat.
Proof.
  intros Hx. induction a as [|c a IH]; cbn [app run length].
  - rewrite Hx. lia.
  - destruct (p c); lia.
Qed.

Lemma run_full (p : char -> bool) (a b : str) :
  (length a <= run p (a ++ b))%nat -> forallb p a = true.
Proof.
  induction a as [|c a IH]; cbn [app run length forallb]; [reflexivity|].
  destruct (p c); [|lia]. intros H. apply IH. lia.
Qed.

(** A run that stops inside [a] does not depend on what follows [a]. *)
Lemma run_inside (p : char -> bool) (a b b' : str) :
  (run p (a ++ b) < length a)%nat -> run p (a ++ b') = run p (a ++ b).
Proof.
  induction a as [|c a IH]; cbn [app run length]; [lia|].
  destruct (p c); [|reflexivity]. intros H. rewrite IH by lia. reflexivity.
Qed.

Lemma starts_with_inside (pat a b : str) :
  (length pat <= length a)%nat ->
  starts_with pat (a ++ b) = starts_with pat a.
Proof.
  revert a. induction pat as [|p pat IH]; intros a H; [reflexivity|].
  destruct a as [|c a]; cbn [length] in H; [lia|].
  cbn [app starts_with]. rewrite IH by lia. reflexivity.
Qed.

(** An occurrence found inside [a] does not depend on what follows [a]. *)
Lemma indexOf_inside (pat a b b' : str) :
  forall k, indexOf pat (a ++ b) = Some k ->
            (k + length pat <= length a)%nat ->
            indexOf pat (a ++ b') = Some k.
Proof.
  induction a as [|c a IH]; intros k H Hk.
  - cbn [length] in Hk. assert (k = O) by lia. subst.
    destruct pat; [|cbn [length] in Hk; lia].
    destruct b'; reflexivity.
  - cbn [app indexOf] in H |- *.
    destruct k as [|k].
    + assert (Hp : (length pat <= length (c :: a))%nat) by (cbn [Nat.add] in Hk; lia).
      change (c :: a ++ b) with ((c :: a) ++ b) in H.
      change (c :: a ++ b') with ((c :: a) ++ b').
      rewrite (starts_with_inside pat (c :: a) b Hp) in H.
      rewrite (starts_with_inside pat (c :: a) b' Hp).
      destruct (starts_with pat (c :: a)); [reflexivity|].
      destruct (indexOf pat (a ++ b)); discriminate.
    + assert (Hp : (length pat <= length (c :: a))%nat) by (cbn [length] in *; lia).
      change (c :: a ++ b) with ((c :: a) ++ b) in H.
      change (c :: a ++ b') with ((c :: a) ++ b').
      rewrite (starts_with_inside pat (c :: a) b Hp) in H.
      rewrite (starts_with_inside pat (c :: a) b' Hp).
      destruct (starts_with pat (c :: a)); [discriminate|].
      cbn [app].
      destruct (indexOf pat (a ++ b)) as [k'|] eqn:E; [|discriminate].
      injection H as ->. rewrite (IH k eq_refl) by (cbn [length] in Hk; lia).
      reflexivity.
Qed.

Lemma indexOf_bound (pat s : str) :
  forall k, indexOf pat s = Some k -> (k + length pat <= length s)%nat.
Proof.
  induction s as [|c s IH]; intros k; cbn [indexOf].
  - destruct pat; cbn; [intros H; injection H as <-; cbn; lia | discriminate].
  - destruct (starts_with pat (c :: s)) eqn:E.
    + intros H. injection H as <-. cbn [Nat.add].
      clear IH. revert E. generalize (c :: s). intros l. revert l.
      induction pat as [|p pat IHp]; intros l E; cbn [length]; [lia|].
      destruct l as [|x l]; [discriminate|]. cbn [starts_with] in E.
      apply andb_true_iff in E as [_ E]. apply IHp in E. cbn [length]. lia.
    + destruct (indexOf pat s) as [k'|]; [|discriminate].
      intros H. injection H as <-. specialize (IH k' eq_refl). cbn [length]. lia.
Qed.

Lemma length_drop_while (p : char -> bool) (s : str) :
  (length (drop_while p s) <= length s)%nat.
Proof.
  induction s as [|c s IH]; cbn; [lia|]. destruct (p c); cbn; lia.
Qed.

Lemma length_trim (s : str) : (length (trim s) <= length s)%nat.
Proof.
  unfold trim, trimEnd.
  pose proof (length_drop_while is_space (rev (drop_while is_space (rev s)))) as H1.
  pose proof (length_drop_while is_space (rev s)) as H2.
  rewrite length_rev in H1, H2. lia.
Qed.

Lemma indexOf_char_none (c : char) (s : str) :
  forall k, indexOf [c] s = Some k -> existsb (N.eqb c) (firstn k s) = false.
Proof.
  induction s as [|x s IH]; intros k; cbn [indexOf starts_with]; [discriminate|].
  rewrite andb_true_r. destruct (c =? x) eqn:E.
  - intros H. injection H as <-. reflexivity.
  - destruct (indexOf [c] s) as [k'|]; [|discriminate].
    intros H. injection H as <-. cbn [firstn existsb]. rewrite E.
    apply IH. reflexivity.
Qed.

Lemma indexOf_char_app (c : char) (a b : str) :
  existsb (N.eqb c) a = false -> indexOf [c] (a ++ c :: b) = Some (length a).
Proof.
  induction a as [|x a IH]; cbn [existsb app indexOf starts_with length].
  - intros _. rewrite N.eqb_refl. reflexivity.
  - intros H. apply orb_false_iff in H as [Hx Ha]. rewrite Hx. cbn [andb].
    rewrite (IH Ha). reflexivity.
Qed.

(** *** The scanners *)

Lemma scan_eq (t0 t : token) (n0 n : nat) :
  (Some t0, n0) = (Some t, n) -> t = t0 /\ n = n0.
Proof. intros H. injection H as <- <-. split; reflexivity. Qed.

Lemma some_scan_eq (t0 t : token) (n0 n : nat) :
  Some (Some t0, n0) = Some (Some t, n) -> t = t0 /\ n = n0.
Proof. intros H. injection H as <- <-. split; reflexivity. Qed.

Lemma line_comment_stable (T : str) (t : token) (n : nat) (rest : str) :
  line_comment (T ++ [10]) = (Some t, n) -> value t = T ->
  line_comment (T ++ 10 :: rest) = (Some t, S (length T)).
Proof.
  unfold line_comment. intros H Hv. apply scan_eq in H as [-> _]. cbn [value tok] in Hv.
  destruct (indexOf [10] (T ++ [10])) as [k|] eqn:E.
  - pose proof (indexOf_bound _ _ _ E) as Hb.
    rewrite length_app in Hb. cbn [length] in Hb.
    pose proof (length_trim (firstn k (T ++ [10]))) as Hl.
    rewrite Hv, length_firstn, length_app in Hl. cbn [length] in Hl.
    assert (k = length T) by lia. subst k.
    pose proof (indexOf_char_none _ _ _ E) as Hn.
    rewrite firstn_app_exact in Hn, Hv.
    rw (indexOf_char_app 10 T rest Hn). rw (firstn_app_exact T (10 :: rest)).
    rw (firstn_app_exact T [10]). rewrite Nat.add_1_r. reflexivity.
  - exfalso.
    pose proof (indexOf_char_app 10 (firstn (run (fun x => negb (10 =? x)) T) T)
                  (skipn (S (run (fun x => negb (10 =? x)) T)) (T ++ [10]))) as Hx.
    clear Hx.
    assert (F : forall a, indexOf [10] (a ++ [10]) <> None).
    { clear. induction a as [|x a IH]; cbn [app indexOf starts_with].
      - discriminate.
      - rewrite andb_true_r. destruct (10 =? x); [discriminate|].
        destruct (indexOf [10] (a ++ [10])); [discriminate | contradiction]. }
    exact (F T E).
Qed.

Lemma block_comment_stable (T : str) (t : token) (n : nat) (x : str) :
  (2 <= length T)%nat ->
  block_comment (T ++ [10]) = (Some t, n) -> value t = T ->
  block_comment (T ++ x) = (Some t, length T).
Proof.
  unfold block_comment. intros H2 H Hv. apply scan_eq in H as [-> _].
  cbn [value tok] in Hv. norm.
  assert (Sk : forall y, skipn 2 (T ++ y) = skipn 2 T ++ y).
  { intros y. rewrite skipn_app.
    replace (2 - length T)%nat with O by lia. reflexivity. }
  rewrite Sk in Hv. rewrite !Sk.
  destruct (indexOf (js "*/") (skipn 2 T ++ [10])) as [k|] eqn:E.
  - apply firstn_is_prefix in Hv. norm.
    assert (Hk : (k + length (js "*/") <= length (skipn 2 T))%nat)
      by (rewrite length_skipn; change (length (js "*/")) with 2%nat; lia).
    rw (indexOf_inside _ _ _ x k E Hk).
    replace (2 + k + 2)%nat with (length T) by lia.
    rw (firstn_app_exact T x). rw (firstn_app_exact T [10]). reflexivity.
  - apply firstn_is_prefix in Hv. norm.
    rewrite length_app in Hv. cbn [length] in Hv. lia.
Qed.

Lemma string_end_stable (a : str) (c : char) (rest : str) :
  (c =? 39) = false ->
  S (string_end (a ++ [10])) = length a ->
  string_end (a ++ c :: rest) = string_end (a ++ [10]).
Proof.
  intros Hc.
  assert (H : forall n a, (length a <= n)%nat ->
              S (string_end (a ++ [10])) = length a ->
              string_end (a ++ c :: rest) = string_end (a ++ [10])).
  { clear a. induction n as [|n IH]; intros a Hlen.
    - destruct a; [cbn; discriminate | cbn [length] in Hlen; lia].
    - destruct a as [|x [|y a]].
      + cbn. discriminate.
      + cbn [app string_end length]. destruct (x =? 39).
        * change (10 =? 39) with false. rewrite Hc. reflexivity.
        * cbn. discriminate.
      + cbn [app string_end length]. destruct (x =? 39).
        * destruct (y =? 39); [|discriminate].
          intros H. do 2 f_equal.
          apply IH; [cbn [length] in Hlen; lia|].
          exact (eq_add_S _ _ (eq_add_S _ _ H)).
        * intros H. f_equal. apply (IH (y :: a)); [cbn [length] in *; lia|].
          exact (eq_add_S _ _ H). }
  apply (H (length a)). apply le_n.
Qed.

Lemma quoted_string_stable (T' : str) (t : token) (n : nat) (c : char)
    (rest : str) :
  (c =? 39) = false ->
  quoted_string (39 :: T' ++ [10]) = (Some t, n) -> value t = 39 :: T' ->
  quoted_string (39 :: T' ++ c :: rest) = (Some t, S (length T')).
Proof.
  unfold quoted_string. cbn [skipn]. intros Hc H Hv.
  apply scan_eq in H as [-> _]. cbn [value tok] in Hv.
  apply (firstn_is_prefix (39 :: T') 10) in Hv. cbn [length] in Hv. norm.
  assert (Hs : S (string_end (T' ++ [10])) = length T') by lia.
  rw (string_end_stable T' c rest Hc Hs).
  rewrite Hv.
  rw (firstn_cons_exact 39 T' (c :: rest)).
  rw (firstn_cons_exact 39 T' [10]). reflexivity.
Qed.

Lemma next_is_skipn_inside (k : char) (r : nat) (a b b' : str) :
  (r < length a)%nat -> next_is k (skipn r (a ++ b')) = next_is k (skipn r (a ++ b)).
Proof.
  intros H. rewrite !skipn_app.
  replace (r - length a)%nat with O by lia. cbn [skipn].
  destruct (skipn r a) eqn:E; [|reflexivity].
  apply (f_equal (@length char)) in E. rewrite length_skipn in E.
  cbn [length] in E. lia.
Qed.

Lemma dollar_quoted_stable (T' : str) (t : token) (n : nat) (x : str) :
  dollar_quoted (36 :: T' ++ [10]) = Some (Some t, n) -> value t = 36 :: T' ->
  dollar_quoted (36 :: T' ++ x) = Some (Some t, S (length T')).
Proof.
  unfold dollar_quoted.
  change (skipn 1 (36 :: T' ++ [10])) with (T' ++ [10]).
  change (skipn 1 (36 :: T' ++ x)) with (T' ++ x).
  set (r := run is_alpha (T' ++ [10])).
  assert (Lf : forall y, length (firstn r (T' ++ y)) = Nat.min r (length (T' ++ y)))
    by (intros y; apply length_firstn).
  pose proof (run_le is_alpha (T' ++ [10])) as Hle. fold r in Hle.
  rewrite (Lf [10]), (Nat.min_l _ _ Hle).
  change (skipn (S r) (36 :: T' ++ [10])) with (skipn r (T' ++ [10])).
  destruct (next_is 36 (skipn r (T' ++ [10]))) eqn:En; [|discriminate].
  assert (Hr : (r < length T')%nat).
  { destruct (Nat.lt_ge_cases r (length T')) as [L | L]; [exact L|].
    exfalso. rewrite skipn_app, skipn_all2 in En by exact L. cbn [app] in En.
    destruct (r - length T')%nat as [|[|m]]; discriminate En. }
  assert (Er : run is_alpha (T' ++ x) = r)
    by (apply run_inside; exact Hr).
  assert (Ef : forall y, firstn r (T' ++ y) = firstn r T')
    by (intros y; rewrite firstn_app;
        replace (r - length T')%nat with O by lia; cbn [firstn];
        apply app_nil_r).
  rewrite Er, !Ef.
  assert (Ln : length (firstn r T') = r) by (rewrite length_firstn; lia).
  rewrite Ln.
  change (skipn (S r) (36 :: T' ++ x)) with (skipn r (T' ++ x)).
  rewrite (next_is_skipn_inside 36 r T' [10] x Hr), En.
  set (tag := 36 :: firstn r T' ++ [36]).
  assert (Lt : length tag = S (S r))
    by (unfold tag; cbn [length]; rewrite length_app, Ln; cbn [length]; lia).
  rewrite Lt.
  change (skipn (S (S r)) (36 :: T' ++ [10])) with (skipn (S r) (T' ++ [10])).
  change (skipn (S (S r)) (36 :: T' ++ x)) with (skipn (S r) (T' ++ x)).
  assert (Sk : forall y, skipn (S r) (T' ++ y) = skipn (S r) T' ++ y).
  { intros y. rewrite skipn_app. replace (S r - length T')%nat with O by lia.
    reflexivity. }
  rewrite !Sk.
  destruct (indexOf tag (skipn (S r) T' ++ [10])) as [k|] eqn:Ei; [|discriminate].
  intros H Hv. apply some_scan_eq in H as [-> _]. cbn [value tok] in Hv.
  pose proof (firstn_is_prefix (36 :: T') 10 _ Hv) as H. cbn [length] in H.
  assert (Hk : (k + length tag <= length (skipn (S r) T'))%nat)
    by (rewrite length_skipn, Lt; lia).
  rewrite (indexOf_inside _ _ _ x k Ei Hk).
  rewrite H. rw (firstn_cons_exact 36 T' x). rw (firstn_cons_exact 36 T' [10]).
  reflexivity.
Qed.

Lemma number_stable (T : str) (t : token) (n : nat) (c : char) (rest : str) :
  is_numchar c = false ->
  number (T ++ [10]) = (Some t, n) -> value t = T ->
  number (T ++ c :: rest) = (Some t, length T).
Proof.
  unfold number. intros Hc H Hv. apply scan_eq in H as [-> _].
  cbn [value tok] in Hv.
  pose proof (firstn_is_prefix T 10 _ Hv) as Hj.
  pose proof (run_full is_numchar T [10]) as Hf. norm.
  rewrite Hj in Hf. specialize (Hf (le_n _)).
  destruct (run_app is_numchar T (c :: rest) Hf Hc) as [Hr _]. norm.
  rewrite Hr, Hj. rw (firstn_app_exact T (c :: rest)).
  rw (firstn_app_exact T [10]). reflexivity.
Qed.

Lemma word_token_stable (T : str) (t : token) (n : nat) (c : char)
    (rest : str) :
  is_word c = false ->
  word_token (T ++ [10]) = (Some t, n) -> value t = T ->
  word_token (T ++ c :: rest) = (Some t, length T).
Proof.
  unfold word_token. intros Hc H Hv.
  pose proof (run_stop is_word T 10 [] eq_refl) as Hle.
  pose proof (run_full is_word T [10]) as Hf. norm.
  set (j := run is_word (T ++ [10])) in *.
  assert (Hj : j = length T).
  { destruct (in_set _ KEYWORDS); apply scan_eq in H as [-> _];
      cbn [value tok] in Hv; apply (f_equal (@length N)) in Hv.
    - unfold toUpperCase in Hv. rewrite length_map, length_firstn, length_app in Hv.
      cbn [length] in Hv. lia.
    - rewrite length_firstn, length_app in Hv. cbn [length] in Hv. lia. }
  rewrite Hj in Hf. specialize (Hf (le_n _)).
  destruct (run_app is_word T (c :: rest) Hf Hc) as [Hr _]. norm.
  rewrite Hr. rewrite Hj in H.
  pose proof (firstn_app_exact T (c :: rest)) as F1.
  pose proof (firstn_app_exact T [10]) as F2. norm.
  rewrite F1. rewrite F2 in H.
  destruct (in_set (toUpperCase T) KEYWORDS);
    apply scan_eq in H as [-> _]; reflexivity.
Qed.

Lemma quoted_identifier_stable (T' : str) (t : token) (n : nat) (x : str) :
  quoted_identifier (34 :: T' ++ [10]) = (Some t, n) -> value t = 34 :: T' ->
  quoted_identifier (34 :: T' ++ x) = (Some t, S (length T')).
Proof.
  unfold quoted_identifier.
  change (skipn 1 (34 :: T' ++ [10])) with (T' ++ [10]).
  change (skipn 1 (34 :: T' ++ x)) with (T' ++ x).
  intros H Hv. apply scan_eq in H as [-> _]. cbn [value tok] in Hv.
  pose proof (firstn_is_prefix (34 :: T') 10 _ Hv) as Hl. cbn [length] in Hl.
  assert (Hr : Nat.lt (run (fun c => negb (c =? 34)) (T' ++ [10])) (length T'))
    by (unfold Nat.lt; norm; lia).
  pose proof (run_inside _ T' [10] x Hr) as Hi. norm.
  rewrite Hi, Hl. rw (firstn_cons_exact 34 T' x).
  rw (firstn_cons_exact 34 T' [10]). reflexivity.
Qed.

(** The operators: a two-character operator, or a symbol that the next
    character does not turn into one. *)
Lemma two_char_length (v : str) : in_set v TWO_CHAR = true -> length v = 2%nat.
Proof.
  intros H. apply in_set_In in H. cbn [TWO_CHAR map In] in H.
  repeat destruct H as [<- | H]; try reflexivity. destruct H.
Qed.

Lemma symbol_follow_two (s c : char) :
  symbol_follow s c = true -> in_set [s; c] TWO_CHAR = false.
Proof.
  unfold symbol_follow. rewrite negb_true_iff, !orb_false_iff.
  intros H; decompose [and] H; clear H.
  change TWO_CHAR
    with [[33; 61]; [60; 62]; [60; 61]; [62; 61]; [58; 58]; [124; 124];
          [45; 62]; [61; 62]].
  cbn [in_set existsb str_eqb]. rewrite !andb_true_r.
  repeat match goal with
         | H : _ && (_ || _) = false |- _ => rewrite andb_orb_distrib_r in H;
                                             apply orb_false_iff in H as [? ?]
         end.
  repeat match goal with
         | H : ?b = false |- context [?b] => rewrite H
         end.
  reflexivity.
Qed.

Lemma operators_stable (T : str) (t : token) (n : nat) (c : char)
    (rest : str) :
  operators (T ++ [10]) = (Some t, n) -> value t = T ->
  (forall s, T = [s] -> symbol_follow s c = true) ->
  operators (T ++ c :: rest) = (Some t, length T).
Proof.
  unfold operators. intros H Hv Hf.
  destruct (in_set (firstn 2 (T ++ [10])) TWO_CHAR) eqn:E2.
  - apply scan_eq in H as [-> _]. cbn [value tok] in Hv.
    pose proof (two_char_length _ E2) as L. rewrite Hv in L.
    destruct T as [|a [|b [|? ?]]]; try discriminate L.
    cbn [app firstn] in E2 |- *. rewrite E2. reflexivity.
  - destruct (str_eqb (firstn 3 (T ++ [10])) (js "->>")) eqn:E3.
    + exfalso. apply str_eqb_eq in E3.
      destruct T as [|a [|b [|d T]]]; try discriminate E3.
      cbn [app firstn] in E3, E2. injection E3 as -> -> ->. discriminate E2.
    + apply scan_eq in H as [-> _]. cbn [value tok] in Hv.
      destruct T as [|a [|b T]]; try discriminate Hv.
      * assert (E2' : in_set (firstn 2 ([a] ++ c :: rest)) TWO_CHAR = false)
          by (apply (symbol_follow_two a c (Hf a eq_refl))).
        assert (E3' : str_eqb (firstn 3 ([a] ++ c :: rest)) (js "->>") = false).
        { specialize (Hf a eq_refl). unfold symbol_follow in Hf.
          rewrite negb_true_iff, !orb_false_iff in Hf.
          destruct Hf as [[[[[[[[[H1 _] _] _] _] _] _] _] _] _].
          change (js "->>") with [45; 62; 62].
          destruct rest as [|d rest]; cbn [app firstn str_eqb];
            [rewrite !andb_false_r; reflexivity|].
          destruct (a =? 45); [|reflexivity]. cbn [andb] in H1 |- *.
          apply orb_false_iff in H1 as [_ H1]. rewrite H1. reflexivity. }
        rewrite E2', E3'. reflexivity.
Qed.

(** *** One iteration of the lexer *)


Lemma moved_length (T : str) (c : char) (rest : str) :
  moved (length T) T c rest.
Proof. left. apply skipn_app_exact. Qed.

Lemma lex_at_stable_long (c0 c1 : char) (T : str) (t : token) (n0 : nat)
    (c : char) (rest : str) :
  lex_at operators ((c0 :: c1 :: T) ++ [10]) = (Some t, n0) ->
  value t = c0 :: c1 :: T ->
  follow_ok t c = true ->
  exists n,
    lex_at operators ((c0 :: c1 :: T) ++ c :: rest) = (Some t, n)
    /\ moved n (c0 :: c1 :: T) c rest.
Proof.
  unfold lex_at. cbn [app next_is]. intros H Hv Hf. norm.
  destruct (is_space c0); [discriminate|].
  destruct ((c0 =? 45) && (c1 =? 45)) eqn:E1.
  { apply andb_true_iff in E1 as [Ea Eb].
    apply N.eqb_eq in Ea. apply N.eqb_eq in Eb. subst c0 c1.
    assert (Hc : c = 10).
    { unfold line_comment in H. apply scan_eq in H as [-> _].
      unfold follow_ok in Hf. cbn [type value tok] in Hf, Hv.
      rewrite Hv in Hf. cbn in Hf. apply N.eqb_eq in Hf. exact Hf. }
    subst c. exists (S (length (45 :: 45 :: T))). split.
    - apply (line_comment_stable (45 :: 45 :: T) t n0 rest H Hv).
    - right. split; [reflexivity|].
      change (skipn (S (length (45 :: 45 :: T))) ((45 :: 45 :: T) ++ 10 :: rest))
        with (skipn (S (length T)) (T ++ 10 :: rest)).
      replace (S (length T)) with (length (T ++ [10]))
        by (rewrite length_app; cbn [length]; lia).
      change (T ++ 10 :: rest) with (T ++ [10] ++ rest).
      rewrite app_assoc. apply skipn_app_exact. }
  destruct ((c0 =? 47) && (c1 =? 42)) eqn:E2.
  { exists (length (c0 :: c1 :: T)). split; [|apply moved_length].
    apply (block_comment_stable (c0 :: c1 :: T) t n0 (c :: rest));
      [cbn [length]; lia | exact H | exact Hv]. }
  destruct (c0 =? 39) eqn:E3.
  { apply N.eqb_eq in E3. subst c0.
    exists (length (39 :: c1 :: T)). split; [|apply moved_length].
    apply (quoted_string_stable (c1 :: T) t n0 c rest); [|exact H | exact Hv].
    unfold quoted_string in H. apply scan_eq in H as [-> _].
    unfold follow_ok in Hf. cbn [type value tok] in Hf, Hv.
    rewrite Hv in Hf. cbn in Hf. apply negb_true_iff in Hf. exact Hf. }
  destruct (c0 =? 36) eqn:E4.
  { apply N.eqb_eq in E4. subst c0.
    destruct (dollar_quoted (36 :: c1 :: T ++ [10])) as [r|] eqn:Ed.
    - subst r. exists (length (36 :: c1 :: T)). split; [|apply moved_length].
      rw (dollar_quoted_stable (c1 :: T) t n0 (c :: rest) Ed Hv).
      reflexivity.
    - exfalso. unfold lex_plain in H. cbn [is_digit is_alpha between] in H.
      change (36 =? 46) with false in H. change (36 =? 34) with false in H.
      cbn in H. revert H. unfold operators. cbn [firstn].
      replace (in_set [36; c1] TWO_CHAR) with false by reflexivity.
      replace (str_eqb (36 :: c1 :: firstn 1 (T ++ [10])) (js "->>"))
        with false by reflexivity.
      intros H. apply scan_eq in H as [-> _]. discriminate Hv. }
  unfold lex_plain in *. cbn [next_sat] in *.
  destruct (is_digit c0 || (c0 =? 46) && is_digit c1).
  { exists (length (c0 :: c1 :: T)). split; [|apply moved_length].
    apply (number_stable (c0 :: c1 :: T) t n0 c rest); [|exact H | exact Hv].
    unfold number in H. apply scan_eq in H as [-> _].
    unfold follow_ok in Hf. cbn [type tok] in Hf.
    apply negb_true_iff in Hf. exact Hf. }
  destruct (is_alpha c0) eqn:Ea.
  { exists (length (c0 :: c1 :: T)). split; [|apply moved_length].
    apply (word_token_stable (c0 :: c1 :: T) t n0 c rest); [|exact H | exact Hv].
    unfold word_token in H.
    destruct (in_set _ KEYWORDS); apply scan_eq in H as [-> _];
      unfold follow_ok in Hf; cbn [type value tok] in Hf, Hv.
    - apply negb_true_iff in Hf. exact Hf.
    - rewrite Hv in Hf. cbn [next_is] in Hf.
      destruct (c0 =? 34) eqn:Eq.
      + apply N.eqb_eq in Eq. subst c0. discriminate Ea.
      + cbn [orb] in Hf. apply negb_true_iff in Hf. exact Hf. }
  destruct (c0 =? 34) eqn:E5.
  { apply N.eqb_eq in E5. subst c0.
    exists (length (34 :: c1 :: T)). split; [|apply moved_length].
    apply (quoted_identifier_stable (c1 :: T) t n0 (c :: rest) H Hv). }
  exists (length (c0 :: c1 :: T)). split; [|apply moved_length].
  apply (operators_stable (c0 :: c1 :: T) t n0 c rest H Hv).
  intros s Hs. discriminate Hs.
Qed.

Lemma symbol_follow_parts (s c : char) :
  symbol_follow s c = true ->
  (s =? 45) && (c =? 45) = false
  /\ (s =? 47) && (c =? 42) = false
  /\ (s =? 46) && is_digit c = false
  /\ ((s =? 36) = true -> is_alpha c = false /\ (c =? 36) = false).
Proof.
  unfold symbol_follow. rewrite negb_true_iff, !orb_false_iff.
  intros (((((((((H1 & H2) & H3) & H4) & _) & _) & _) & _) & _) & _).
  split; [|split; [|split; [|intros E]]].
  - destruct (s =? 45); [|reflexivity]. cbn [andb] in *.
    apply orb_false_iff in H1 as [H1 _]. exact H1.
  - exact H2.
  - exact H3.
  - rewrite E in H4. cbn [andb] in H4. apply orb_false_iff in H4. exact H4.
Qed.

Lemma word_start (k : char) :
  is_digit k = true \/ is_alpha k = true ->
  (k =? 45) = false /\ (k =? 47) = false /\ (k =? 39) = false
  /\ (k =? 36) = false /\ (k =? 46) = false /\ (k =? 34) = false.
Proof.
  unfold is_digit, is_alpha, between.
  rewrite !orb_true_iff, !andb_true_iff, !N.leb_le, N.eqb_eq.
  intros H. repeat split; apply N.eqb_neq; lia.
Qed.

(** A symbol before a character that may follow it goes to the operator
    case. *)
Lemma lex_at_symbol (k c : char) (rest : str) :
  is_space k = false -> is_digit k = false -> is_alpha k = false ->
  (k =? 39) = false -> (k =? 34) = false ->
  symbol_follow k c = true ->
  lex_at operators (k :: c :: rest) = operators (k :: c :: rest).
Proof.
  intros Hs Hd Ha H39 H34 Hf.
  apply symbol_follow_parts in Hf as (S1 & S2 & S3 & S4).
  unfold lex_at, lex_plain. cbn [next_is next_sat].
  rewrite Hs, S1, S2, H39, Hd, S3, Ha, H34. cbn [orb].
  destruct (k =? 36) eqn:E; [|reflexivity].
  destruct (S4 eq_refl) as [Sa Sb].
  unfold dollar_quoted. cbn [skipn run]. rewrite Sa.
  cbn [firstn length skipn next_is]. rewrite Sb. reflexivity.
Qed.

Lemma operators_one (c0 : char) (t : token) (n0 : nat) :
  operators [c0; 10] = (Some t, n0) -> t = tok Tsymbol [c0].
Proof.
  unfold operators.
  replace (in_set (firstn 2 [c0; 10]) TWO_CHAR) with false.
  2:{ symmetry. change TWO_CHAR
        with [[33; 61]; [60; 62]; [60; 61]; [62; 61]; [58; 58]; [124; 124];
              [45; 62]; [61; 62]].
      cbn [firstn in_set existsb str_eqb].
      change (10 =? 61) with false. change (10 =? 62) with false.
      change (10 =? 58) with false. change (10 =? 124) with false.
      rewrite !andb_false_r. reflexivity. }
  replace (str_eqb (firstn 3 [c0; 10]) (js "->>")) with false.
  2:{ symmetry. change (js "->>") with [45; 62; 62].
      cbn [firstn str_eqb]. change (10 =? 62) with false.
      rewrite !andb_false_r. reflexivity. }
  intros H. apply scan_eq in H as [-> _]. reflexivity.
Qed.

Lemma lex_at_stable_one (c0 : char) (t : token) (n0 : nat) (c : char)
    (rest : str) :
  lex_at operators ([c0] ++ [10]) = (Some t, n0) ->
  value t = [c0] ->
  follow_ok t c = true ->
  exists n,
    lex_at operators ([c0] ++ c :: rest) = (Some t, n) /\ moved n [c0] c rest.
Proof.
  intros H Hv Hf. exists 1%nat. split; [|apply (moved_length [c0])].
  cbn [app] in *. unfold lex_at in H. cbn [next_is] in H.
  destruct (is_space c0) eqn:Es; [discriminate|].
  change (10 =? 45) with false in H. change (10 =? 42) with false in H.
  rewrite !andb_false_r in H.
  destruct (c0 =? 39) eqn:E39.
  { unfold quoted_string in H. apply scan_eq in H as [-> _].
    discriminate Hv. }
  assert (Hp : lex_plain operators c0 [10] [c0; 10] = (Some t, n0)).
  { destruct (c0 =? 36); [|exact H].
    replace (dollar_quoted [c0; 10]) with (@None scan) in H by reflexivity.
    exact H. }
  clear H. unfold lex_plain in Hp. cbn [next_sat] in Hp.
  change (is_digit 10) with false in Hp.
  rewrite andb_false_r, orb_false_r in Hp.
  destruct (is_digit c0) eqn:Ed.
  { destruct (word_start c0 (or_introl Ed)) as (W1 & W2 & W3 & W4 & W5 & W6).
    unfold lex_at, lex_plain. cbn [next_is next_sat].
    rewrite Es, W1, W2, W3, W4, Ed. cbn [andb orb].
    apply (number_stable [c0] t n0 c rest); [|exact Hp | exact Hv].
    unfold number in Hp. apply scan_eq in Hp as [-> _].
    unfold follow_ok in Hf. cbn [type tok] in Hf.
    apply negb_true_iff in Hf. exact Hf. }
  destruct (is_alpha c0) eqn:Ea.
  { destruct (word_start c0 (or_intror Ea)) as (W1 & W2 & W3 & W4 & W5 & W6).
    unfold lex_at, lex_plain. cbn [next_is next_sat].
    rewrite Es, W1, W2, W3, W4, Ed, W5, Ea. cbn [andb orb].
    apply (word_token_stable [c0] t n0 c rest); [|exact Hp | exact Hv].
    unfold word_token in Hp.
    destruct (in_set _ KEYWORDS); apply scan_eq in Hp as [-> _];
      unfold follow_ok in Hf; cbn [type value tok] in Hf, Hv.
    - apply negb_true_iff in Hf. exact Hf.
    - rewrite Hv in Hf. cbn [next_is] in Hf. rewrite W6 in Hf.
      cbn [orb] in Hf. apply negb_true_iff in Hf. exact Hf. }
  destruct (c0 =? 34) eqn:E34.
  { unfold quoted_identifier in Hp. apply scan_eq in Hp as [-> _].
    discriminate Hv. }
  pose proof (operators_one c0 t n0 Hp) as Et.
  assert (Hs : symbol_follow c0 c = true) by (subst t; exact Hf).
  rewrite (lex_at_symbol c0 c rest Es Ed Ea E39 E34 Hs).
  apply (operators_stable [c0] t n0 c rest Hp Hv).
  intros s E. injection E as <-. exact Hs.
Qed.

(** A token that lexes to itself goes on doing so before any character that
    may follow it. *)
Lemma lex_at_stable (T : str) (t : token) (n0 : nat) (c : char) (rest : str) :
  lex_at operators (T ++ [10]) = (Some t, n0) ->
  value t = T ->
  follow_ok t c = true ->
  exists n,
    lex_at operators (T ++ c :: rest) = (Some t, n) /\ moved n T c rest.
Proof.
  destruct T as [|c0 [|c1 T]].
  - discriminate.
  - apply lex_at_stable_one.
  - apply lex_at_stable_long.
Qed.

(** *** Tokens in a text *)

Lemma tokenize_cons_token (c0 : char) (s : str) (t : token) (n : nat) :
  lex_at operators (c0 :: s) = (Some t, n) ->
  tokenize (c0 :: s) = t :: tokenize (skipn n (c0 :: s)).
Proof.
  intros H. unfold tokenize.
  rewrite (tokenize_with_cons _ operators_advances), H. reflexivity.
Qed.

Lemma tokenize_space (c : char) (s : str) :
  is_space c = true -> tokenize (c :: s) = tokenize s.
Proof.
  intros H. unfold tokenize.
  rewrite (tokenize_with_cons _ operators_advances).
  unfold lex_at. rewrite H. reflexivity.
Qed.

Lemma tokenize_spaces (ws s : str) :
  forallb is_space ws = true -> tokenize (ws ++ s) = tokenize s.
Proof.
  induction ws as [|w ws IH]; [reflexivity|]. cbn [forallb app].
  intros H. apply andb_true_iff in H as [Hw Hws].
  rewrite (tokenize_space w _ Hw). apply IH, Hws.
Qed.

Lemma text_of_value (t : token) : value t <> [] -> text_of t = value t.
Proof. unfold text_of. destruct (value t); [congruence | reflexivity]. Qed.

Lemma ends_solid_spec (s : str) :
  ends_solid s = true <-> exists b x, s = b ++ [x] /\ is_space x = false.
Proof.
  unfold ends_solid. split.
  - destruct (rev s) as [|x r] eqn:E; [discriminate|].
    intros H. apply negb_true_iff in H. exists (rev r), x.
    split; [|exact H].
    rewrite <- (rev_involutive s), E. reflexivity.
  - intros (b & x & -> & Hx). rewrite rev_unit, Hx. reflexivity.
Qed.

Lemma follow_ok_canon (t t' : token) (c : char) :
  canon t' = canon t -> follow_ok t' c = follow_ok t c.
Proof.
  intros H. unfold follow_ok.
  rewrite <- (canon_type t), <- (canon_type t'), <- (canon_value t),
    <- (canon_value t'), H. reflexivity.
Qed.

(** The text of a token that lexes to itself, before a character that may
    follow it, gives that token first, whatever comes then. *)
Lemma self_lexes_first (t : token) (c : char) (rest : str) :
  self_lexes t = true -> follow_ok t c = true ->
  map canon (tokenize (value t ++ c :: rest))
  = canon t :: map canon (tokenize (c :: rest)).
Proof.
  unfold self_lexes. intros H Hf. apply andb_true_iff in H as [Hs H].
  destruct (lex_at operators (value t ++ [10])) as [[t'|] n0] eqn:E;
    [|discriminate].
  apply token_eqb_eq in H.
  assert (Hv : value t' = value t)
    by (rewrite <- (canon_value t'), H; apply canon_value).
  rewrite <- Hv in E.
  rewrite <- (follow_ok_canon t t' c H) in Hf.
  destruct (lex_at_stable (value t') t' n0 c rest E eq_refl Hf) as (n & En & Hm).
  rewrite <- Hv.
  destruct (value t') as [|c0 T] eqn:Ev.
  - apply ends_solid_spec in Hs as (b & x & Eb & _). rewrite <- Hv in Eb.
    destruct b; discriminate.
  - cbn [app] in En |- *. rewrite (tokenize_cons_token c0 _ t' n En).
    cbn [map]. rewrite H. f_equal.
    destruct Hm as [Hm | [-> Hm]]; cbn [app] in Hm; rewrite Hm; [reflexivity|].
    rewrite (tokenize_space 10 rest eq_refl). reflexivity.
Qed.

(** ** What the formatter has printed *)

Lemma lex_ok_nil : lex_ok None [] [].
Proof. intros c rest _. reflexivity. Qed.

(** White space may follow any token but a line comment, and the end of the
    line any token. *)
Lemma follow_ok_space (t : token) (w : char) :
  is_space w = true -> is_type Tcomment t = false -> follow_ok t w = true.
Proof.
  intros Hw Hc.
  assert (Hnw : is_word w = false /\ is_numchar w = false /\ is_digit w = false
                /\ is_alpha w = false
                /\ Forall (fun k => (w =? k) = false)
                     [39; 45; 62; 42; 36; 61; 58; 124]).
  { unfold is_space in Hw. cbn [existsb] in Hw. unfold between in Hw.
    rewrite !orb_true_iff, andb_true_iff, !N.eqb_eq, !N.leb_le in Hw.
    unfold is_word, is_numchar, is_digit, is_alpha, between.
    repeat split;
      try (repeat constructor; apply N.eqb_neq; lia);
      rewrite ?orb_false_iff, ?andb_false_iff, ?N.leb_gt, ?N.eqb_neq;
      repeat split; try lia;
      try (destruct Hw as [Hw | Hw]; [|right; lia];
           repeat destruct Hw as [Hw | Hw]; try (left; lia); try (right; lia)). }
  destruct Hnw as (H1 & H2 & H3 & H4 & H5).
  repeat match goal with
         | H : Forall _ (_ :: _) |- _ =>
             let a := fresh "F" in
             let b := fresh "G" in
             apply Forall_cons_iff in H as [a b]
         end.
  unfold follow_ok, is_type in *. destruct (type t); try discriminate.
  - rewrite H1. reflexivity.
  - rewrite H1. apply orb_true_r.
  - rewrite F. apply orb_true_r.
  - rewrite H2. reflexivity.
  - reflexivity.
  - unfold symbol_follow. rewrite H3, H4, F0, F1, F2, F3, F4, F5, F6.
    rewrite !andb_false_r. reflexivity.
Qed.

Lemma follow_ok_newline (t : token) : follow_ok t 10 = true.
Proof.
  destruct (is_type Tcomment t) eqn:E.
  - unfold follow_ok. unfold is_type in E. destruct (type t); try discriminate.
    apply orb_true_r.
  - apply follow_ok_space; [reflexivity | exact E].
Qed.

(** Printing one more token, after white space or right after the last
    one. *)
Lemma lex_ok_place (lst : option token) (done : list token) (body sep : str)
    (t : token) :
  lex_ok lst done body ->
  forallb is_space sep = true ->
  self_lexes t = true ->
  match lst with
  | Some l => follow_ok l (hd 0 (sep ++ value t)) = true
  | None => True
  end ->
  lex_ok (Some t) (done ++ [t]) (body ++ sep ++ value t).
Proof.
  intros Hok Hsep Hself Hfol c rest Hc.
  assert (Hne : exists x r, sep ++ value t ++ c :: rest = x :: r
                            /\ hd 0 (sep ++ value t) = x).
  { destruct sep as [|w sep]; cbn [app hd].
    - destruct (value t) as [|v0 v] eqn:Ev; cbn [app hd].
      + unfold self_lexes in Hself. rewrite Ev in Hself. discriminate.
      + exists v0, (v ++ c :: rest). split; reflexivity.
    - exists w, (sep ++ value t ++ c :: rest). split; reflexivity. }
  destruct Hne as (x & r & Ex & Hx).
  rewrite <- !app_assoc, Ex.
  rewrite (Hok x r) by (destruct lst; [rewrite <- Hx; exact Hfol | exact I]).
  rewrite <- Ex, (tokenize_spaces sep _ Hsep).
  rewrite (self_lexes_first t c rest Hself Hc).
  rewrite map_app, <- app_assoc. reflexivity.
Qed.

(** *** White space at the end of the printed text *)

Lemma drop_while_spaces (ws s : str) :
  forallb is_space ws = true ->
  drop_while is_space (ws ++ s) = drop_while is_space s.
Proof.
  induction ws as [|w ws IH]; [reflexivity|]. cbn [forallb app drop_while].
  intros H. apply andb_true_iff in H as [-> H]. apply IH, H.
Qed.

Lemma trimEnd_keep (s : str) : ends_solid s = true -> trimEnd s = s.
Proof.
  intros H. apply ends_solid_spec in H as (b & x & -> & Hx).
  unfold trimEnd. rewrite rev_unit. cbn [drop_while]. rewrite Hx.
  rewrite <- (rev_unit b x). apply rev_involutive.
Qed.

Lemma trimEnd_spaces (body ws : str) :
  forallb is_space ws = true -> trimEnd (body ++ ws) = trimEnd body.
Proof.
  intros H. unfold trimEnd. rewrite rev_app_distr, drop_while_spaces;
    [reflexivity|]. rewrite forallb_rev. exact H.
Qed.

Lemma ends_solid_app (a b : str) :
  ends_solid b = true -> ends_solid (a ++ b) = true.
Proof.
  intros H. apply ends_solid_spec in H as (b' & x & -> & Hx).
  apply ends_solid_spec. exists (a ++ b'), x. rewrite app_assoc. auto.
Qed.

Lemma trimEnd_tail (a v : str) :
  ends_solid v = true -> trimEnd (a ++ v) = a ++ v.
Proof. intros H. apply trimEnd_keep, ends_solid_app, H. Qed.

Lemma endsWith_last (c x : char) (b : str) :
  endsWith [c] (b ++ [x]) = (c =? x).
Proof.
  unfold endsWith. rewrite rev_unit. cbn [rev app starts_with].
  apply andb_true_r.
Qed.

Lemma indent_spaces (n : Z) : forallb is_space (indent_str n) = true.
Proof.
  unfold indent_str. induction (Z.to_nat n) as [|k IH]; [reflexivity|].
  cbn [repeat concat]. rewrite forallb_app, IH. reflexivity.
Qed.

Lemma tokenize_drop_while (s r : str) :
  tokenize (drop_while is_space s ++ r) = tokenize (s ++ r).
Proof.
  induction s as [|c s IH]; [reflexivity|]. cbn [drop_while].
  destruct (is_space c) eqn:E; [|reflexivity].
  cbn [app]. rewrite (tokenize_space c _ E). exact IH.
Qed.

(** *** The state after some tokens *)

Lemma printed_trimEnd st lst done body ws :
  printed_as st lst done body ws -> trimEnd (out st) = body.
Proof.
  intros (Hout & Hws & _ & H). rewrite Hout, (trimEnd_spaces _ _ Hws).
  destruct lst as [l|].
  - destruct H as ((b0 & ->) & Hs & _). apply trimEnd_tail, Hs.
  - destruct H as (-> & _). reflexivity.
Qed.

Lemma printed_init : printed_as init_state None [] [] [].
Proof.
  unfold printed_as. cbn. repeat split; reflexivity.
Qed.

Lemma is_sym_spec (v : string) (t : token) :
  is_sym v t = true -> type t = Tsymbol /\ value t = js v.
Proof.
  unfold is_sym, is_type. intros H. apply andb_true_iff in H as [H1 H2].
  apply str_eqb_eq in H2. split; [|exact H2].
  destruct (type t); try discriminate; reflexivity.
Qed.

Lemma is_sym_not_comment (v : string) (t : token) :
  is_sym v t = true -> is_type Tcomment t = true -> False.
Proof.
  intros H. apply is_sym_spec in H as [H _]. unfold is_type. rewrite H.
  discriminate.
Qed.

(** Printing the token [t] after the separator [sep], with the white space
    [ws'] after it. *)
Lemma printed_place st st' lst done body ws sep t ws' :
  printed_as st lst done body ws ->
  self_lexes t = true ->
  forallb is_space sep = true ->
  match lst with
  | Some l => follow_ok l (hd 0 (sep ++ value t)) = true
  | None => True
  end ->
  out st' = body ++ sep ++ value t ++ ws' ->
  forallb is_space ws' = true ->
  (exists p, prevToken st' = Some p /\ type p = type t
             /\ is_sym "." p = is_sym "." t) ->
  (is_type Tcomment t = true -> hd_error ws' = Some 10) ->
  (lineStart st' = true -> ws' <> []) ->
  printed_as st' (Some t) (done ++ [t]) (body ++ sep ++ value t) ws'.
Proof.
  intros (Hout & Hws & Hok & H) Hself Hsep Hfol Hout' Hws' Hp Hc Hl.
  unfold printed_as.
  refine (conj _ (conj Hws' (conj _ (conj _ (conj _ (conj Hp (conj Hc Hl))))))).
  - rewrite Hout', <- !app_assoc. reflexivity.
  - apply (lex_ok_place lst); assumption.
  - exists (body ++ sep). rewrite app_assoc. reflexivity.
  - unfold self_lexes in Hself. apply andb_true_iff in Hself as [Hs _].
    exact Hs.
Qed.

(** White space after the last token, or the first character of a token
    glued to it, may follow it. *)
Lemma follow_sep st lst done body ws e t :
  printed_as st lst done body ws ->
  forallb is_space e = true ->
  match lst with Some l => pair_ok l t = true | None => True end ->
  (ws ++ e = [] ->
   match lst with Some l => glued l t = true | None => True end) ->
  match lst with
  | Some l => follow_ok l (hd 0 ((ws ++ e) ++ value t)) = true
  | None => True
  end.
Proof.
  intros (_ & Hws & _ & H) He Hp Hg. destruct lst as [l|]; [|exact I].
  destruct H as (_ & _ & _ & Hc & _).
  destruct ws as [|w ws].
  - destruct e as [|x e].
    + specialize (Hg eq_refl). unfold pair_ok in Hp. rewrite Hg in Hp.
      exact Hp.
    + cbn [app hd]. cbn [forallb] in He. apply andb_true_iff in He as [Hx _].
      apply follow_ok_space; [exact Hx|].
      destruct (is_type Tcomment l); [|reflexivity].
      specialize (Hc eq_refl). discriminate.
  - cbn [app hd]. cbn [forallb] in Hws. apply andb_true_iff in Hws as [Hw _].
    destruct (is_type Tcomment l) eqn:E.
    + specialize (Hc eq_refl). cbn in Hc. injection Hc as ->.
      apply follow_ok_newline.
    + apply follow_ok_space; assumption.
Qed.

Lemma follow_line (lst : option token) (x v : str) :
  match lst with
  | Some l => follow_ok l (hd 0 ((10 :: x) ++ v)) = true
  | None => True
  end.
Proof. destruct lst; [apply follow_ok_newline | exact I]. Qed.

(** The token goes after what [out] ends with, and maybe a space. *)
Lemma place_after st st' lst done body ws e t ws' :
  printed_as st lst done body ws ->
  self_lexes t = true ->
  match lst with Some l => pair_ok l t = true | None => True end ->
  forallb is_space e = true ->
  (ws ++ e = [] ->
   match lst with Some l => glued l t = true | None => True end) ->
  out st' = out st ++ e ++ value t ++ ws' ->
  forallb is_space ws' = true ->
  (exists p, prevToken st' = Some p /\ type p = type t
             /\ is_sym "." p = is_sym "." t) ->
  (is_type Tcomment t = true -> hd_error ws' = Some 10) ->
  (lineStart st' = true -> ws' <> []) ->
  exists body', printed_as st' (Some t) (done ++ [t]) body' ws'.
Proof.
  intros P Hself Hp He Hg Hout' Hws' Hprev Hc Hl.
  exists (body ++ (ws ++ e) ++ value t).
  apply (printed_place st st' lst done body ws (ws ++ e) t ws');
    try assumption.
  - destruct P as (_ & Hws & _). rewrite forallb_app, Hws, He. reflexivity.
  - apply (follow_sep st lst done body ws); assumption.
  - destruct P as (Hout & _). rewrite Hout', Hout, <- !app_assoc.
    reflexivity.
Qed.

(** The token goes on a new line. *)
Lemma place_line st st' lst done body ws x t ws' :
  printed_as st lst done body ws ->
  self_lexes t = true ->
  forallb is_space x = true ->
  out st' = trimEnd (out st) ++ (10 :: x) ++ value t ++ ws' ->
  forallb is_space ws' = true ->
  (exists p, prevToken st' = Some p /\ type p = type t
             /\ is_sym "." p = is_sym "." t) ->
  (is_type Tcomment t = true -> hd_error ws' = Some 10) ->
  (lineStart st' = true -> ws' <> []) ->
  exists body', printed_as st' (Some t) (done ++ [t]) body' ws'.
Proof.
  intros P Hself Hx Hout' Hws' Hprev Hc Hl.
  exists (body ++ (10 :: x) ++ value t).
  apply (printed_place st st' lst done body ws (10 :: x) t ws');
    try assumption.
  - apply follow_line.
  - rewrite Hout', (printed_trimEnd _ _ _ _ _ P). reflexivity.
Qed.

(** What [space] adds, and when it adds nothing right after a token. *)
Lemma space_sep st lst done body ws :
  printed_as st lst done body ws ->
  exists e,
    space st = set_out (out st ++ e) st
    /\ forallb is_space e = true
    /\ (ws ++ e = [] ->
        match lst with
        | Some l => is_type Tcomment l = false
                    /\ endsWith (js "(") (value l) = true
        | None => True
        end).
Proof.
  intros (Hout & Hws & _ & H). unfold space.
  destruct (negb (lineStart st) && (0 <? length (out st))%nat
            && negb (endsWith (js " ") (out st))
            && negb (endsWith [10] (out st))
            && negb (endsWith (js "(") (out st))) eqn:E.
  - exists (js " "). split; [reflexivity|]. split; [reflexivity|].
    intros F. apply app_eq_nil in F as [_ F]. discriminate.
  - exists []. split; [rewrite app_nil_r; destruct st; reflexivity|].
    split; [reflexivity|]. rewrite app_nil_r. intros ->.
    destruct lst as [l|]; [|exact I].
    destruct H as ((b0 & Hb) & Hs & _ & Hc & Hl).
    split.
    { destruct (is_type Tcomment l); [|reflexivity].
      specialize (Hc eq_refl). discriminate. }
    apply ends_solid_spec in Hs as (b & x & Hv & Hx).
    rewrite app_nil_r in Hout. rewrite Hout, Hb, Hv, app_assoc in E.
    rewrite Hv.
    change (js " ") with [32] in E. change (js "(") with [40] in E |- *.
    rewrite !endsWith_last in E. rewrite endsWith_last.
    rewrite length_app in E. cbn [length] in E.
    destruct (lineStart st); [exfalso; apply Hl; reflexivity|].
    replace (0 <? length (b0 ++ b) + 1)%nat with true in E
      by (symmetry; apply Nat.ltb_lt; lia).
    destruct (32 =? x) eqn:E1;
      [apply N.eqb_eq in E1; subst x; discriminate|].
    destruct (10 =? x) eqn:E2;
      [apply N.eqb_eq in E2; subst x; discriminate|].
    destruct (40 =? x); [reflexivity | discriminate].
Qed.

Lemma prev_type st lst done body ws (q : token -> bool) :
  printed_as st lst done body ws ->
  prev_is q st = true ->
  exists l p, lst = Some l /\ prevToken st = Some p /\ q p = true
              /\ type p = type l /\ is_sym "." p = is_sym "." l.
Proof.
  intros (_ & _ & _ & H) Hq. unfold prev_is in Hq.
  destruct lst as [l|].
  - destruct H as (_ & _ & (p & Hp & Ht & Hd) & _). rewrite Hp in Hq.
    exists l, p. auto.
  - destruct H as (_ & _ & _ & Hp & _). rewrite Hp in Hq. discriminate.
Qed.

Ltac glue H := unfold glued; rewrite H; rewrite ?orb_true_r; reflexivity.

(** *** One iteration of the formatter *)

Lemma set_out_same (st : fstate) : set_out (out st) st = st.
Proof. destruct st; reflexivity. Qed.

Lemma self_lexes_solid (t : token) :
  self_lexes t = true -> ends_solid (value t) = true.
Proof. unfold self_lexes. intros H. apply andb_true_iff in H as [H _]. exact H. Qed.

Lemma self_lexes_text (t : token) : self_lexes t = true -> text_of t = value t.
Proof.
  intros H. apply text_of_value. apply self_lexes_solid in H.
  destruct (value t); [discriminate H | discriminate].
Qed.

Lemma keyword_not_comment (t : token) :
  is_type Tkeyword t = true -> is_type Tcomment t = true -> False.
Proof. unfold is_type. destruct (type t); discriminate. Qed.

Lemma keyword_not_dot (t : token) :
  is_type Tkeyword t = true -> is_sym "." t = false.
Proof. unfold is_sym, is_type. destruct (type t); try discriminate; reflexivity. Qed.

Lemma on_comment_printed st lst done body ws t :
  printed_as st lst done body ws ->
  self_lexes t = true ->
  exists ws' body',
    printed_as (on_comment t st) (Some t) (done ++ [t]) body' ws'.
Proof.
  intros P Hs. exists (10 :: indent_str (indent st)).
  apply (place_line st _ lst done body ws (indent_str (indent st)) t _ P Hs).
  - apply indent_spaces.
  - unfold on_comment, newline, emit.
    cbn [out indent set_out set_lineStart set_prevToken].
    rewrite (trimEnd_tail _ _ (self_lexes_solid t Hs)), <- !app_assoc.
    reflexivity.
  - apply (indent_spaces (indent st)).
  - eexists. split; [reflexivity|]. split; reflexivity.
  - reflexivity.
  - discriminate.
Qed.

Lemma on_open_printed st lst done body ws t next :
  printed_as st lst done body ws ->
  self_lexes t = true ->
  match lst with Some l => pair_ok l t = true | None => True end ->
  is_sym "(" t = true ->
  exists ws' body',
    printed_as (on_open t next st) (Some t) (done ++ [t]) body' ws'.
Proof.
  intros P Hs Hp Hsym. destruct (is_sym_spec _ _ Hsym) as [Hty Hv].
  destruct (space_sep _ _ _ _ _ P) as (e & Hsp & He & Hg).
  unfold on_open.
  set (st1 := if prev_is _ st then st else space st).
  assert (H1 : exists e1,
             st1 = set_out (out st ++ e1) st /\ forallb is_space e1 = true
             /\ (ws ++ e1 = [] ->
                 match lst with Some l => glued l t = true | None => True end)).
  { subst st1.
    destruct (prev_is (fun p => is_type Tidentifier p || is_type Tkeyword p) st)
      eqn:Eprev.
    - exists []. split; [rewrite app_nil_r; symmetry; apply set_out_same|].
      split; [reflexivity|]. intros _.
      destruct (prev_type _ _ _ _ _ _ P Eprev) as (l & p & -> & _ & Hq & Hty' & _).
      unfold glued. rewrite Hsym. unfold is_type in *. rewrite <- Hty', Hq.
      reflexivity.
    - exists e. split; [exact Hsp|]. split; [exact He|]. intros Hn.
      specialize (Hg Hn). destruct lst; [|exact I]. destruct Hg as [Hc Hend].
      unfold glued. rewrite Hc, Hend. cbn [negb andb].
      rewrite ?orb_true_r. reflexivity. }
  clearbody st1. destruct H1 as (e1 & -> & He1 & Hg1).
  assert (Hsolid : ends_solid (js "(") = true) by reflexivity.
  destruct next as [n|]; [destruct (is_kw "SELECT" n)|].
  - exists (10 :: indent_str (indent st + 1)).
    apply (place_after st _ lst done body ws e1 t _ P Hs Hp He1 Hg1).
    + unfold newline, emit.
      cbn [out indent set_out set_lineStart set_prevToken set_indent
           set_parenDepth].
      rewrite (trimEnd_tail _ _ Hsolid), Hv, <- !app_assoc. reflexivity.
    + apply (indent_spaces (indent st + 1)).
    + eexists. split; [reflexivity|]. split; reflexivity.
    + intros F. destruct (is_sym_not_comment _ _ Hsym F).
    + discriminate.
  - exists [].
    apply (place_after st _ lst done body ws e1 t _ P Hs Hp He1 Hg1).
    + unfold emit.
      cbn [out indent set_out set_lineStart set_prevToken set_indent
           set_parenDepth].
      rewrite Hv, app_nil_r, <- !app_assoc. reflexivity.
    + reflexivity.
    + eexists. split; [reflexivity|]. split; reflexivity.
    + intros F. destruct (is_sym_not_comment _ _ Hsym F).
    + discriminate.
  - exists [].
    apply (place_after st _ lst done body ws e1 t _ P Hs Hp He1 Hg1).
    + unfold emit.
      cbn [out indent set_out set_lineStart set_prevToken set_indent
           set_parenDepth].
      rewrite Hv, app_nil_r, <- !app_assoc. reflexivity.
    + reflexivity.
    + eexists. split; [reflexivity|]. split; reflexivity.
    + intros F. destruct (is_sym_not_comment _ _ Hsym F).
    + discriminate.
Qed.

Lemma close_depth_out st : out (close_depth st) = out st.
Proof. unfold close_depth. destruct (_ >? _)%Z; reflexivity. Qed.

Lemma close_depth_indent st : indent (close_depth st) = indent st.
Proof. unfold close_depth. destruct (_ >? _)%Z; reflexivity. Qed.

Lemma on_close_printed st lst done body ws t :
  printed_as st lst done body ws ->
  self_lexes t = true ->
  match lst with Some l => pair_ok l t = true | None => True end ->
  is_sym ")" t = true ->
  exists ws' body',
    printed_as (on_close t st) (Some t) (done ++ [t]) body' ws'.
Proof.
  intros P Hs Hp Hsym. destruct (is_sym_spec _ _ Hsym) as [Hty Hv].
  exists []. unfold on_close.
  destruct (after_limit (close_depth st)).
  - apply (place_line st _ lst done body ws
             (indent_str (Z.max 0 (indent (close_depth st) - 1))) t _ P Hs).
    + apply indent_spaces.
    + unfold newline, emit.
      cbn [out indent set_out set_lineStart set_prevToken set_indent
           set_parenDepth].
      rewrite close_depth_out, Hv, app_nil_r, <- !app_assoc. reflexivity.
    + reflexivity.
    + eexists. split; [reflexivity|]. split; reflexivity.
    + intros F. destruct (is_sym_not_comment _ _ Hsym F).
    + discriminate.
  - apply (place_after st _ lst done body ws [] t _ P Hs Hp eq_refl).
    + intros _. destruct lst; [|exact I]. glue Hsym.
    + unfold emit.
      cbn [out indent set_out set_lineStart set_prevToken set_indent
           set_parenDepth].
      rewrite close_depth_out, Hv, app_nil_r. reflexivity.
    + reflexivity.
    + eexists. split; [reflexivity|]. split; reflexivity.
    + intros F. destruct (is_sym_not_comment _ _ Hsym F).
    + discriminate.
Qed.

Lemma on_comma_printed st lst done body ws t :
  printed_as st lst done body ws ->
  self_lexes t = true ->
  match lst with Some l => pair_ok l t = true | None => True end ->
  is_sym "," t = true ->
  exists ws' body',
    printed_as (on_comma t st) (Some t) (done ++ [t]) body' ws'.
Proof.
  intros P Hs Hp Hsym. destruct (is_sym_spec _ _ Hsym) as [Hty Hv].
  assert (Hsolid : ends_solid (js ",") = true) by reflexivity.
  unfold on_comma.
  destruct (parenDepth (emit (js ",") st) =? 0)%Z.
  - exists ((10 :: indent_str (indent st)) ++ js "  ").
    apply (place_after st _ lst done body ws [] t _ P Hs Hp eq_refl).
    + intros _. destruct lst; [|exact I]. glue Hsym.
    + unfold newline, emit.
      cbn [out indent set_out set_lineStart set_prevToken set_indent
           set_parenDepth].
      rewrite (trimEnd_tail _ _ Hsolid), Hv, <- !app_assoc. reflexivity.
    + rewrite forallb_app. apply andb_true_iff. split; [|reflexivity].
      apply (indent_spaces (indent st)).
    + eexists. split; [reflexivity|]. split; reflexivity.
    + intros F. destruct (is_sym_not_comment _ _ Hsym F).
    + discriminate.
  - exists (js " ").
    apply (place_after st _ lst done body ws [] t _ P Hs Hp eq_refl).
    + intros _. destruct lst; [|exact I]. glue Hsym.
    + unfold emit.
      cbn [out indent set_out set_lineStart set_prevToken set_indent
           set_parenDepth].
      rewrite Hv, <- !app_assoc. reflexivity.
    + reflexivity.
    + eexists. split; [reflexivity|]. split; reflexivity.
    + intros F. destruct (is_sym_not_comment _ _ Hsym F).
    + discriminate.
Qed.

Lemma on_semicolon_printed st lst done body ws t :
  printed_as st lst done body ws ->
  self_lexes t = true ->
  match lst with Some l => pair_ok l t = true | None => True end ->
  is_sym ";" t = true ->
  exists ws' body',
    printed_as (on_semicolon t st) (Some t) (done ++ [t]) body' ws'.
Proof.
  intros P Hs Hp Hsym. destruct (is_sym_spec _ _ Hsym) as [Hty Hv].
  exists [10]. unfold on_semicolon.
  apply (place_after st _ lst done body ws [] t _ P Hs Hp eq_refl).
  - intros _. destruct lst; [|exact I]. glue Hsym.
  - unfold emit.
    cbn [out indent set_out set_lineStart set_prevToken set_indent
         set_parenDepth].
    rewrite Hv. reflexivity.
  - reflexivity.
  - eexists. split; [reflexivity|]. split; reflexivity.
  - intros F. destruct (is_sym_not_comment _ _ Hsym F).
  - discriminate.
Qed.

Lemma on_keyword_printed st lst done body ws t :
  printed_as st lst done body ws ->
  self_lexes t = true ->
  match lst with Some l => pair_ok l t = true | None => True end ->
  is_type Tkeyword t = true ->
  exists ws' body',
    printed_as (on_keyword t st) (Some t) (done ++ [t]) body' ws'.
Proof.
  intros P Hs Hp Hk. exists []. unfold on_keyword.
  destruct (in_set (value t) CLAUSE_KEYWORDS && (parenDepth st =? 0)%Z).
  - assert (Hline : forall st',
               out st' = out (emit (value t) (newline st)) ->
               prevToken st' = Some t -> lineStart st' = false ->
               exists body', printed_as st' (Some t) (done ++ [t]) body' []).
    { intros st' Ho Hpr Hls.
      apply (place_line st _ lst done body ws (indent_str (indent st)) t _ P Hs).
      - apply indent_spaces.
      - rewrite Ho. unfold newline, emit.
        cbn [out indent set_out set_lineStart set_prevToken set_indent
             set_parenDepth].
        rewrite app_nil_r, <- !app_assoc. reflexivity.
      - reflexivity.
      - exists t. split; [exact Hpr|]. split; reflexivity.
      - intros F. destruct (keyword_not_comment _ Hk F).
      - rewrite Hls. discriminate. }
    destruct (in_set (value t) (map js ["AND"; "OR"]%string)).
    + apply (place_line st _ lst done body ws
               (indent_str (indent st) ++ js "  ") t _ P Hs).
      * rewrite forallb_app. apply andb_true_iff. split; [|reflexivity].
        apply (indent_spaces (indent st)).
      * unfold newline, emit.
        cbn [out indent set_out set_lineStart set_prevToken set_indent
             set_parenDepth].
        rewrite app_nil_r, <- !app_assoc. cbn [app].
        rewrite <- !app_assoc. reflexivity.
      * reflexivity.
      * eexists. split; [reflexivity|]. split; reflexivity.
      * intros F. destruct (keyword_not_comment _ Hk F).
      * discriminate.
    + destruct (str_eqb (value t) (js "SELECT")
                && prev_is (is_kw "UNION ALL") st);
        apply Hline; reflexivity.
  - destruct (space_sep _ _ _ _ _ P) as (e & -> & He & Hg).
    apply (place_after st _ lst done body ws e t _ P Hs Hp He).
    + intros Hn. specialize (Hg Hn). destruct lst; [|exact I].
      destruct Hg as [Hc Hend]. unfold glued. rewrite Hc, Hend.
      cbn [negb andb]. rewrite ?orb_true_r. reflexivity.
    + unfold emit.
      cbn [out indent set_out set_lineStart set_prevToken set_indent
           set_parenDepth].
      rewrite app_nil_r, <- !app_assoc. reflexivity.
    + reflexivity.
    + eexists. split; [reflexivity|]. split; reflexivity.
    + intros F. destruct (keyword_not_comment _ Hk F).
    + discriminate.
Qed.

Lemma on_default_printed st lst done body ws t :
  printed_as st lst done body ws ->
  self_lexes t = true ->
  match lst with Some l => pair_ok l t = true | None => True end ->
  is_type Tcomment t = false ->
  exists ws' body',
    printed_as (on_default t st) (Some t) (done ++ [t]) body' ws'.
Proof.
  intros P Hs Hp Hnc. exists []. unfold on_default.
  rewrite (self_lexes_text t Hs).
  assert (Hcom : is_type Tcomment t = true -> hd_error (@nil char) = Some 10)
    by (rewrite Hnc; discriminate).
  destruct (is_type Toperator t
            && (str_eqb (value t) (js "::") || str_eqb (value t) (js "->")
                || str_eqb (value t) (js "->>"))) eqn:Ecast;
    [|destruct (is_sym "." t) eqn:Edot;
      [|destruct (prev_is (is_sym ".") st) eqn:Eprev]].
  - apply (place_after st _ lst done body ws [] t _ P Hs Hp eq_refl).
    + intros _. destruct lst; [|exact I].
      unfold glued, is_cast_op. rewrite Ecast. rewrite ?orb_true_r.
      reflexivity.
    + unfold emit.
      cbn [out indent set_out set_lineStart set_prevToken set_indent
           set_parenDepth].
      rewrite app_nil_r. reflexivity.
    + reflexivity.
    + eexists. split; [reflexivity|]. split; reflexivity.
    + exact Hcom.
    + discriminate.
  - destruct (is_sym_spec _ _ Edot) as [_ Hv].
    exists (body ++ [] ++ value t).
    apply (printed_place st _ lst done body ws [] t [] P Hs eq_refl).
    + destruct lst as [l|]; [|exact I]. cbn [app].
      unfold pair_ok in Hp. replace (glued l t) with true in Hp; [exact Hp|].
      symmetry. glue Edot.
    + unfold emit.
      cbn [out indent set_out set_lineStart set_prevToken set_indent
           set_parenDepth].
      rewrite (printed_trimEnd _ _ _ _ _ P), Hv, app_nil_r. reflexivity.
    + reflexivity.
    + eexists. split; [reflexivity|]. split; reflexivity.
    + exact Hcom.
    + discriminate.
  - apply (place_after st _ lst done body ws [] t _ P Hs Hp eq_refl).
    + intros _.
      destruct (prev_type _ _ _ _ _ _ P Eprev) as (l & p & -> & _ & Hq & _ & Hd).
      rewrite Hd in Hq. glue Hq.
    + unfold emit.
      cbn [out indent set_out set_lineStart set_prevToken set_indent
           set_parenDepth].
      rewrite app_nil_r. reflexivity.
    + reflexivity.
    + eexists. split; [reflexivity|]. split; reflexivity.
    + exact Hcom.
    + discriminate.
  - destruct (space_sep _ _ _ _ _ P) as (e & -> & He & Hg).
    apply (place_after st _ lst done body ws e t _ P Hs Hp He).
    + intros Hn. specialize (Hg Hn). destruct lst; [|exact I].
      destruct Hg as [Hc Hend]. unfold glued. rewrite Hc, Hend.
      cbn [negb andb]. rewrite ?orb_true_r. reflexivity.
    + unfold emit.
      cbn [out indent set_out set_lineStart set_prevToken set_indent
           set_parenDepth].
      rewrite app_nil_r, <- !app_assoc. reflexivity.
    + reflexivity.
    + eexists. split; [reflexivity|]. split; reflexivity.
    + exact Hcom.
    + discriminate.
Qed.

Lemma compound_spec (t : token) (next : option token) (pair : str) :
  compound_of t next = Some pair ->
  exists n, next = Some n /\ is_type Tkeyword t = true
            /\ is_type Tkeyword n = true
            /\ pair = value t ++ js " " ++ value n.
Proof.
  unfold compound_of. destruct next as [n|]; [|discriminate].
  destruct (is_type Tkeyword t); [|discriminate].
  destruct (is_type Tkeyword n) eqn:En; [|discriminate]. cbn [andb].
  destruct (in_set _ CLAUSE_KEYWORDS); [|discriminate].
  intros H. injection H as <-. exists n. repeat split. exact En.
Qed.

Lemma on_compound_printed st lst done body ws t n :
  printed_as st lst done body ws ->
  self_lexes t = true ->
  match lst with Some l => pair_ok l t = true | None => True end ->
  self_lexes n = true ->
  pair_ok t n = true ->
  is_type Tkeyword t = true ->
  is_type Tkeyword n = true ->
  exists ws' body',
    printed_as (on_compound (value t ++ js " " ++ value n) st) (Some n)
      ((done ++ [t]) ++ [n]) body' ws'.
Proof.
  intros P Hs Hp Hsn Hpn Hk Hkn. exists []. unfold on_compound.
  set (pair := value t ++ js " " ++ value n).
  set (st1 := if (parenDepth st =? 0)%Z then _ else _).
  assert (H1 : exists body1,
             printed_as (set_lineStart false
                           (set_prevToken t (emit (value t) st1)))
               (Some t) (done ++ [t]) body1 []).
  { subst st1. destruct (parenDepth st =? 0)%Z.
    - set (stx := if in_set pair _ then set_indent 0 st else st).
      assert (Ho : out stx = out st) by (subst stx; destruct (in_set _ _); reflexivity).
      clearbody stx.
      apply (place_line st _ lst done body ws (indent_str (indent stx)) t _ P Hs).
      + apply indent_spaces.
      + unfold newline, emit.
        cbn [out indent set_out set_lineStart set_prevToken set_indent
             set_parenDepth].
        rewrite Ho, app_nil_r, <- !app_assoc. reflexivity.
      + reflexivity.
      + eexists. split; [reflexivity|]. split; reflexivity.
      + intros F. destruct (keyword_not_comment _ Hk F).
      + discriminate.
    - destruct (space_sep _ _ _ _ _ P) as (e & -> & He & Hg).
      apply (place_after st _ lst done body ws e t _ P Hs Hp He).
      + intros Hn. specialize (Hg Hn). destruct lst; [|exact I].
        destruct Hg as [Hc Hend]. unfold glued. rewrite Hc, Hend.
        cbn [negb andb]. rewrite ?orb_true_r. reflexivity.
      + unfold emit.
        cbn [out indent set_out set_lineStart set_prevToken set_indent
             set_parenDepth].
        rewrite app_nil_r, <- !app_assoc. reflexivity.
      + reflexivity.
      + eexists. split; [reflexivity|]. split; reflexivity.
      + intros F. destruct (keyword_not_comment _ Hk F).
      + discriminate. }
  clearbody st1. destruct H1 as (body1 & P1).
  apply (place_after _ _ (Some t) (done ++ [t]) body1 [] (js " ") n _ P1 Hsn
           Hpn eq_refl).
  - intros F. discriminate F.
  - subst pair. unfold emit.
    cbn [out indent set_out set_lineStart set_prevToken set_indent
         set_parenDepth].
    rewrite app_nil_r, <- !app_assoc. reflexivity.
  - reflexivity.
  - eexists. split; [reflexivity|]. split; [symmetry|].
    + unfold is_type in Hkn. cbn [type tok].
      destruct (type n); try discriminate; reflexivity.
    + rewrite (keyword_not_dot n Hkn). reflexivity.
  - intros F. destruct (keyword_not_comment _ Hkn F).
  - discriminate.
Qed.

(** One iteration prints its token, or its two tokens. *)
Lemma step_printed st lst done body ws t next :
  printed_as st lst done body ws ->
  self_lexes t = true ->
  match lst with Some l => pair_ok l t = true | None => True end ->
  match next with
  | Some n => self_lexes n = true /\ pair_ok t n = true
  | None => True
  end ->
  exists ws' body',
    if snd (format_step st t next)
    then exists n, next = Some n
                   /\ printed_as (fst (format_step st t next)) (Some n)
                        ((done ++ [t]) ++ [n]) body' ws'
    else printed_as (fst (format_step st t next)) (Some t) (done ++ [t])
           body' ws'.
Proof.
  intros P Hs Hp Hn. unfold format_step, step_with.
  destruct (is_type Tcomment t) eqn:Ec;
    [exact (on_comment_printed _ _ _ _ _ _ P Hs)|].
  destruct (is_sym "(" t) eqn:E1;
    [exact (on_open_printed _ _ _ _ _ _ _ P Hs Hp E1)|].
  destruct (is_sym ")" t) eqn:E2;
    [exact (on_close_printed _ _ _ _ _ _ P Hs Hp E2)|].
  destruct (is_sym "," t) eqn:E3;
    [exact (on_comma_printed _ _ _ _ _ _ P Hs Hp E3)|].
  destruct (is_sym ";" t) eqn:E4;
    [exact (on_semicolon_printed _ _ _ _ _ _ P Hs Hp E4)|].
  destruct (compound_of t next) as [pair|] eqn:E5.
  - destruct (compound_spec _ _ _ E5) as (n & -> & Hk & Hkn & ->).
    destruct Hn as [Hsn Hpn].
    destruct (on_compound_printed _ _ _ _ _ _ n P Hs Hp Hsn Hpn Hk Hkn)
      as (ws' & body' & H).
    exists ws', body'. cbn [fst snd]. exists n. split; [reflexivity | exact H].
  - destruct (is_type Tkeyword t) eqn:E6.
    + exact (on_keyword_printed _ _ _ _ _ _ P Hs Hp E6).
    + exact (on_default_printed _ _ _ _ _ _ P Hs Hp Ec).
Qed.

(** *** The loop, and the text it returns *)

Lemma loop_printed (k : nat) :
  forall toks st lst done body ws,
    (length toks <= k)%nat ->
    printed_as st lst done body ws ->
    linked lst toks = true ->
    exists lst' body' ws',
      printed_as (fmt_loop format_step st toks) lst' (done ++ toks) body' ws'.
Proof.
  induction k as [|k IH]; intros toks st lst done body ws Hlen P Hl.
  - destruct toks; [|cbn in Hlen; lia]. rewrite app_nil_r.
    exists lst, body, ws. exact P.
  - destruct toks as [|t rest].
    { rewrite app_nil_r. exists lst, body, ws. exact P. }
    cbn [linked] in Hl. apply andb_true_iff in Hl as [Hl Hrest].
    apply andb_true_iff in Hl as [Hs Hp].
    assert (Hp' : match lst with Some l => pair_ok l t = true | None => True end)
      by (destruct lst; [exact Hp | exact I]).
    assert (Hn : match hd_error rest with
                 | Some n => self_lexes n = true /\ pair_ok t n = true
                 | None => True
                 end).
    { destruct rest as [|n rest']; [exact I|]. cbn [hd_error].
      cbn [linked] in Hrest. apply andb_true_iff in Hrest as [Hrest _].
      apply andb_true_iff in Hrest. exact Hrest. }
    destruct (step_printed st lst done body ws t (hd_error rest) P Hs Hp' Hn)
      as (ws' & body' & H).
    cbn [fmt_loop].
    destruct (format_step st t (hd_error rest)) as [st' skip].
    cbn [fst snd] in H. destruct skip.
    + destruct H as (n & En & H). destruct rest as [|n' rest'];
        [discriminate|]. cbn [hd_error] in En. injection En as ->.
      cbn [linked] in Hrest. apply andb_true_iff in Hrest as [_ Hrest].
      cbn [length] in Hlen.
      destruct (IH rest' st' (Some n) ((done ++ [t]) ++ [n]) body' ws'
                  ltac:(lia) H Hrest) as (lst' & b & w & H').
      exists lst', b, w. rewrite <- !app_assoc in H'. exact H'.
    + cbn [length] in Hlen.
      destruct (IH rest st' (Some t) (done ++ [t]) body' ws'
                  ltac:(lia) H Hrest) as (lst' & b & w & H').
      exists lst', b, w. rewrite <- app_assoc in H'. exact H'.
Qed.

Lemma finish_tokens st lst done body ws :
  printed_as st lst done body ws ->
  map canon (tokenize (finish st)) = map canon done.
Proof.
  intros P. unfold finish, trim.
  rewrite (printed_trimEnd _ _ _ _ _ P), tokenize_drop_while.
  destruct P as (_ & _ & Hok & H).
  assert (Hf : match lst with
               | Some l => follow_ok l 10 = true
               | None => True
               end)
    by (destruct lst; [apply follow_ok_newline | exact I]).
  etransitivity; [exact (Hok 10 [] Hf)|].
  rewrite (tokenize_space 10 [] eq_refl). apply app_nil_r.
Qed.

(** The formatted text of a printable input lexes to the tokens of the
    input, the spelling of keywords left aside. *)
Lemma format_relexes (x : str) :
  printable (tokenize x) = true ->
  map canon (tokenize (format x)) = map canon (tokenize x).
Proof.
  intros H. unfold format.
  destruct (loop_printed (length (tokenize x)) (tokenize x) init_state None
              [] [] [] (le_n _) printed_init H) as (lst & body & ws & P).
  exact (finish_tokens _ _ _ _ _ P).
Qed.

(** C3.  Formatting is idempotent on every input whose tokens are
    [printable]: each token, alone on a line, lexes to itself and does not
    end in white space, and no token that the formatter prints right after
    another one starts with a character that would change how that one
    lexes.  The formatted text of such an input lexes to the tokens of the
    input, and formatting it gives it back. *)
Theorem format_idempotent_printable (x : str) :
  printable (tokenize x) = true ->
  map canon (tokenize (format x)) = map canon (tokenize x)
  /\ format (format x) = format x.
Proof.
  intros H. split; [exact (format_relexes x H)|].
  apply format_of_tokens, format_relexes, H.
Qed.

Lemma format_idempotent_printable_witness :
  let x := js "select u.id, count(*) from users u where u.age::int >= 18 group by u.id;" in
  printable (tokenize x) = true /\ format (format x) = format x.
Proof.
  split; [reflexivity|].
  exact (proj2 (format_idempotent_printable
    (js "select u.id, count(*) from users u where u.age::int >= 18 group by u.id;")
    eq_refl)).
Defined.
